(** * Integral images (summed-area tables): a shallow embedding of
    [src/integral.cpp] and [tests/test_integral.cpp].

    Samples are [u32], table cells and accumulators are [u64], indices are
    [size_t], taken to be 64 bits wide.  Every machine integer is a [Z]
    whose wrap-around is written out with [wrap32] / [wrap64].  A
    [std::vector] is a [list Z]; [operator[]] is unchecked in C++, so the
    embedding makes every access return [option] and the builders run in
    the option monad: [None] is an access outside the vector.  An output
    parameter ([integral]) is an argument, the buffer as the caller passes
    it, and the result, the buffer on return.

    Not modelled: failure of an allocation ([assign], the [rowCum]
    constructor) or of a thread creation, and the measured times of the
    benchmarks.  The threads of a phase of [computeIntegralMulti] write
    disjoint cells and read none that another thread of the phase writes;
    a phase is modelled by its workers taking effect one after another,
    and the results are proved independent of that order. *)

From Stdlib Require Import ZArith Lia List.
From stdpp Require Import base tactics option numbers list strings.

Local Open Scope Z_scope.

(** ** Machine integers *)

Definition wrap32 (z : Z) : Z := z mod 2 ^ 32.
Definition wrap64 (z : Z) : Z := z mod 2 ^ 64.

Definition is_u32 (z : Z) : Prop := 0 ≤ z < 2 ^ 32.
Definition is_u64 (z : Z) : Prop := 0 ≤ z < 2 ^ 64.
(** [int] as the harness and the tests use it (32 bits, two's complement). *)
Definition is_int (z : Z) : Prop := - 2 ^ 31 ≤ z < 2 ^ 31.

(** [static_cast<std::ptrdiff_t>] of a [size_t] value (two's complement). *)
Definition to_ptrdiff (z : Z) : Z := if bool_decide (z < 2 ^ 63) then z else z - 2 ^ 64.

(** ** Vectors *)

(** [v[i]] read.  *)
Definition vget (v : list Z) (i : Z) : option Z :=
  if decide (0 ≤ i) then v !! Z.to_nat i else None.

(** [v[i] = x]. *)
Definition vset (v : list Z) (i x : Z) : option (list Z) :=
  if decide (0 ≤ i < Z.of_nat (length v)) then Some (<[Z.to_nat i := x]> v)
  else None.

(** [v.clear()]. *)
Definition vclear (v : list Z) : list Z := [].

(** [v.assign(n, x)]: the previous contents are dropped. *)
Definition vassign (v : list Z) (n x : Z) : list Z := replicate (Z.to_nat n) x.

(** ** Counting loops *)

(** [n] iterations of [body], the loop variable starting at [i]. *)
Fixpoint for_range {St : Type} (n : nat) (i : Z) (body : Z → St → option St)
    (s : St) : option St :=
  match n with
  | O => Some s
  | S n' => s' ← body i s; for_range n' (i + 1) body s'
  end.

(** [for (i = lo; i < hi; ++i) body]: no iteration when [hi ≤ lo]. *)
Definition for_loop {St : Type} (lo hi : Z) (body : Z → St → option St)
    (s : St) : option St :=
  for_range (Z.to_nat (hi - lo)) lo body s.

(** ** The builders *)

Section Single.
(** The [u64] addition of the accumulators, kept abstract so that the same
    text can be run with the hardware adder ([add_u64]) and with an adder
    that stops on a carry out of bit 63 ([add_u64_carry]). *)
Variable add : Z → Z → option Z.

Definition computeIntegralSingle_with (img : list Z) (w h : Z)
    (integral : list Z) : option (list Z) :=
  if bool_decide (w = 0) || bool_decide (h = 0) then Some (vclear integral)
  else
    let integral := vassign integral (wrap64 (w * h)) 0 in
    for_loop 0 h (λ y integral,
      let row_sum := 0 in
      let base := wrap64 (y * w) in
      '(_, integral) ← for_loop 0 w (λ x '(row_sum, integral),
        px ← vget img (wrap64 (base + x));
        row_sum ← add row_sum px;
        above ← (if bool_decide (0 < y)
                 then vget integral (wrap64 (wrap64 (wrap64 (y - 1) * w) + x))
                 else Some 0);
        cell ← add row_sum above;
        integral ← vset integral (wrap64 (base + x)) cell;
        Some (row_sum, integral)) (row_sum, integral);
      Some integral) integral.
End Single.

Definition add_u64 (a b : Z) : option Z := Some (wrap64 (a + b)).

Definition add_u64_carry (a b : Z) : option Z :=
  if decide (a + b < 2 ^ 64) then Some (a + b) else None.

(** [computeIntegralSingle(img, w, h, integral)]; the last argument is the
    output buffer as the caller passes it, the result is the buffer on
    return. *)
Definition computeIntegralSingle : list Z → Z → Z → list Z → option (list Z) :=
  computeIntegralSingle_with add_u64.

(** [computeIntegralMulti]: phase 1, the rows of worker [tid]. *)
Definition worker_rows (img : list Z) (w h num_threads tid : Z)
    (rowCum : list Z) : option (list Z) :=
  let rows_per := wrap64 (wrap64 (h + wrap64 num_threads) - 1) / wrap64 num_threads in
  let y0 := wrap64 (wrap64 tid * rows_per) in
  let y1 := Z.min h (wrap64 (y0 + rows_per)) in
  for_loop y0 y1 (λ y rowCum,
    let s := 0 in
    let base := wrap64 (y * w) in
    '(_, rowCum) ← for_loop 0 w (λ x '(s, rowCum),
      px ← vget img (wrap64 (base + x));
      let s := wrap64 (s + px) in
      rowCum ← vset rowCum (wrap64 (base + x)) s;
      Some (s, rowCum)) (s, rowCum);
    Some rowCum) rowCum.

(** [computeIntegralMulti]: phase 2, the columns of worker [tid]. *)
Definition worker_cols (rowCum : list Z) (w h num_threads tid : Z)
    (integral : list Z) : option (list Z) :=
  let cols_per := wrap64 (wrap64 (w + wrap64 num_threads) - 1) / wrap64 num_threads in
  let x0 := wrap64 (wrap64 tid * cols_per) in
  let x1 := Z.min w (wrap64 (x0 + cols_per)) in
  for_loop x0 x1 (λ x integral,
    let s := 0 in
    '(_, integral) ← for_loop 0 h (λ y '(s, integral),
      r ← vget rowCum (wrap64 (wrap64 (y * w) + x));
      let s := wrap64 (s + r) in
      integral ← vset integral (wrap64 (wrap64 (y * w) + x)) s;
      Some (s, integral)) (s, integral);
    Some integral) integral.

(** Fork and join: the workers [0 .. num_threads-1] are spawned in this
    order and joined before the next statement.  A schedule is the order in
    which the workers take effect; each worker is run to completion. *)
Fixpoint fork_join (schedule : list Z) (worker : Z → list Z → option (list Z))
    (buf : list Z) : option (list Z) :=
  match schedule with
  | [] => Some buf
  | tid :: rest => buf ← worker tid buf; fork_join rest worker buf
  end.

(** [computeIntegralMulti] under a given schedule for each of the two phases. *)
Definition computeIntegralMulti_sched (sched1 sched2 : Z → list Z)
    (img : list Z) (w h : Z) (integral : list Z) (num_threads : Z)
    : option (list Z) :=
  if bool_decide (w = 0) || bool_decide (h = 0) then Some (vclear integral)
  else
    let num_threads := if bool_decide (num_threads < 1) then 1 else num_threads in
    let integral := vassign integral (wrap64 (w * h)) 0 in
    let rowCum := replicate (Z.to_nat (wrap64 (w * h))) 0 in
    rowCum ← fork_join (sched1 num_threads) (worker_rows img w h num_threads) rowCum;
    fork_join (sched2 num_threads) (worker_cols rowCum w h num_threads) integral.

(** The spawn order [0, 1, .., n-1]. *)
Definition spawn_order (n : Z) : list Z := seqZ 0 n.

(** [computeIntegralMulti(img, w, h, integral, num_threads)]. *)
Definition computeIntegralMulti : list Z → Z → Z → list Z → Z → option (list Z) :=
  computeIntegralMulti_sched spawn_order spawn_order.

(** [computeIntegralOpenMP(img, w, h, integral, num_threads)], compiled
    with [-fopenmp] only.  The iterations of a [parallel for] are
    independent of each other; they are run in the order of the loop. *)
Definition computeIntegralOpenMP (img : list Z) (w h : Z) (integral : list Z)
    (num_threads : Z) : option (list Z) :=
  if bool_decide (w = 0) || bool_decide (h = 0) then Some (vclear integral)
  else
    let num_threads := if bool_decide (num_threads < 1) then 1 else num_threads in
    let integral := vassign integral (wrap64 (w * h)) 0 in
    let rowCum := replicate (Z.to_nat (wrap64 (w * h))) 0 in
    rowCum ← for_loop 0 (to_ptrdiff h) (λ y rowCum,
      let s := 0 in
      let base := wrap64 (wrap64 y * w) in
      '(_, rowCum) ← for_loop 0 w (λ x '(s, rowCum),
        px ← vget img (wrap64 (base + x));
        let s := wrap64 (s + px) in
        rowCum ← vset rowCum (wrap64 (base + x)) s;
        Some (s, rowCum)) (s, rowCum);
      Some rowCum) rowCum;
    for_loop 0 (to_ptrdiff w) (λ x integral,
      let s := 0 in
      '(_, integral) ← for_loop 0 h (λ y '(s, integral),
        r ← vget rowCum (wrap64 (wrap64 (y * w) + wrap64 x));
        let s := wrap64 (s + r) in
        integral ← vset integral (wrap64 (wrap64 (y * w) + wrap64 x)) s;
        Some (s, integral)) (s, integral);
      Some integral) integral.

(** [computeIntegralNaive(img, w, h, integral)]. *)
Definition computeIntegralNaive (img : list Z) (w h : Z) (integral : list Z)
    : option (list Z) :=
  if bool_decide (w = 0) || bool_decide (h = 0) then Some (vclear integral)
  else
    let integral := vassign integral (wrap64 (w * h)) 0 in
    for_loop 0 h (λ y integral,
      for_loop 0 w (λ x integral,
        let s := 0 in
        s ← for_loop 0 (x + 1) (λ i s,
               for_loop 0 (y + 1) (λ j s,
                 px ← vget img (wrap64 (wrap64 (j * w) + i));
                 Some (wrap64 (s + px))) s) s;
        vset integral (wrap64 (wrap64 (y * w) + x)) s) integral) integral.

(** ** Verification layer *)

Fixpoint equalIntegral_loop (n : nat) (i : Z) (a b : list Z) : option bool :=
  match n with
  | O => Some true
  | S n' =>
      x ← vget a i; y ← vget b i;
      if bool_decide (x ≠ y) then Some false
      else equalIntegral_loop n' (i + 1) a b
  end.

(** [equalIntegral(a, b)]. *)
Definition equalIntegral (a b : list Z) : option bool :=
  if bool_decide (length a ≠ length b) then Some false
  else equalIntegral_loop (length a) 0 a b.

(** [++x] on an [int]: the value afterwards; a signed overflow is
    undefined. *)
Definition incr_int (x : Z) : option Z :=
  if bool_decide (x + 1 < 2 ^ 31) then Some (x + 1) else None.

(** The lambda [rect] of [test_rect_sum_property], with what it captures
    ([I], [img], [w]) as arguments.  Its coordinates and its loop counters
    are [int], [w] is [unsigned]: there is no call with other values (the
    first line), an index is computed in [unsigned] arithmetic, and each
    turn of a loop ends with the [++] of its [int] counter, the last turn
    too.  [y0 - 1] and [x0 - 1] are computed for positive [y0], [x0] only.
    The values are [u64].  The result is the pair [(sum, sref)]. *)
Definition rect (I img : list Z) (w : Z) (x0 y0 x1 y1 : Z) : option (Z * Z) :=
  if bool_decide (0 ≤ w < 2 ^ 32 ∧ (- 2 ^ 31 ≤ x0 < 2 ^ 31 ∧ - 2 ^ 31 ≤ y0 < 2 ^ 31) ∧
                  (- 2 ^ 31 ≤ x1 < 2 ^ 31 ∧ - 2 ^ 31 ≤ y1 < 2 ^ 31)) then
    let index (y x : Z) := wrap32 (wrap32 (wrap32 y * w) + wrap32 x) in
    A ← vget I (index y1 x1);
    B ← (if bool_decide (0 < y0) then vget I (index (y0 - 1) x1) else Some 0);
    C ← (if bool_decide (0 < x0) then vget I (index y1 (x0 - 1)) else Some 0);
    D ← (if bool_decide (0 < x0) && bool_decide (0 < y0)
         then vget I (index (y0 - 1) (x0 - 1)) else Some 0);
    let sum := wrap64 (wrap64 (wrap64 (A - B) - C) + D) in
    let sref := 0 in
    sref ← for_loop y0 (y1 + 1) (λ y sref,
              sref ← for_loop x0 (x1 + 1) (λ x sref,
                        px ← vget img (index y x);
                        let sref := wrap64 (sref + px) in
                        _ ← incr_int x;
                        Some sref) sref;
              _ ← incr_int y;
              Some sref) sref;
    Some (sum, sref)
  else None.

(** ** The command-line harness *)

Record options : Type := Options {
  opt_w : Z; opt_h : Z; opt_threads : Z; opt_runs : Z; opt_seed : Z;
  opt_method : string
}.

Inductive parsed : Type :=
| Parsed (o : options)
| Help                        (* [--help]: usage text, [return 0] *)
| Throws.                     (* [std::stoul] / [std::stoi] threw *)

(** What the harness does that can be observed, in order.  The measured
    times are not part of the model. *)
Inductive event : Type :=
| Usage
| Banner (w h threads runs seed : Z)
| Differ (backend : string)
| Bench (name : string) (runs : Z).

Inductive outcome : Type :=
| Exit (code : Z)
| Terminate                   (* an exception left [main] *)
| Undefined.                  (* a builder read or wrote outside a vector *)

Section Harness.
(** The builders under test, the optional OpenMP backend ([None] when the
    program is compiled without it), and the library calls of [main]. *)
Variable single : list Z → Z → Z → list Z → option (list Z).
Variable multi : list Z → Z → Z → list Z → Z → option (list Z).
Variable openmp : option (list Z → Z → Z → list Z → Z → option (list Z)).
Variable randImage : Z → Z → Z → list Z.
Variables stoul stoi : string → option Z.
Variable hardware_concurrency : Z.

Definition defaults : options :=
  Options 2000 1000 hardware_concurrency 5 1337 "both".

Fixpoint parse_args (args : list string) (o : options) : parsed :=
  match args with
  | [] => Parsed o
  | s :: rest =>
      match rest with
      | v :: rest' =>
          if bool_decide (s = "--width"%string) then
            match stoul v with
            | Some n => parse_args rest' (Options n (opt_h o) (opt_threads o) (opt_runs o) (opt_seed o) (opt_method o))
            | None => Throws
            end
          else if bool_decide (s = "--height"%string) then
            match stoul v with
            | Some n => parse_args rest' (Options (opt_w o) n (opt_threads o) (opt_runs o) (opt_seed o) (opt_method o))
            | None => Throws
            end
          else if bool_decide (s = "--threads"%string) then
            match stoi v with
            | Some n => parse_args rest' (Options (opt_w o) (opt_h o) n (opt_runs o) (opt_seed o) (opt_method o))
            | None => Throws
            end
          else if bool_decide (s = "--runs"%string) then
            match stoi v with
            | Some n => parse_args rest' (Options (opt_w o) (opt_h o) (opt_threads o) n (opt_seed o) (opt_method o))
            | None => Throws
            end
          else if bool_decide (s = "--seed"%string) then
            match stoul v with
            | Some n => parse_args rest' (Options (opt_w o) (opt_h o) (opt_threads o) (opt_runs o) (wrap32 n) (opt_method o))
            | None => Throws
            end
          else if bool_decide (s = "--method"%string) then
            parse_args rest' (Options (opt_w o) (opt_h o) (opt_threads o) (opt_runs o) (opt_seed o) v)
          else if bool_decide (s = "--help"%string) then Help
          else parse_args rest o
      | [] => if bool_decide (s = "--help"%string) then Help else Parsed o
      end
  end.

(** [bench(name, f)]: [f] is run [runs] times on its output buffer, then
    the line of [name] is printed. *)
Definition bench (name : string) (runs : Z) (f : list Z → option (list Z))
    (buf : list Z) : option (list Z * list event) :=
  buf ← for_loop 0 runs (λ _ buf, f buf) buf;
  Some (buf, [Bench name runs]).

(** The benchmarks [main] runs for a method, in order. *)
Definition benchmarks (method : string) (runs : Z) (img : list Z)
    (w h threads : Z) (I_single I_multi : list Z) : option (list event) :=
  '(_, log1) ←
    (if bool_decide (method = "both"%string) || bool_decide (method = "single"%string)
     then bench "Single" runs (single img w h) I_single
     else Some (I_single, []));
  '(I_multi, log2) ←
    (if bool_decide (method = "both"%string) || bool_decide (method = "multi"%string)
     then bench "Multi" runs (λ buf, multi img w h buf threads) I_multi
     else Some (I_multi, []));
  '(_, log3) ←
    match openmp with
    | Some backend =>
        if bool_decide (method = "openmp"%string)
        then bench "OpenMP" runs (λ buf, backend img w h buf threads) I_multi
        else Some (I_multi, [])
    | None => Some (I_multi, [])
    end;
  Some (log1 ++ log2 ++ log3).

(** The second cross-check, compiled in with OpenMP and run for
    [--method openmp]: whether the tables agree, and [I_multi] afterwards. *)
Definition check_openmp (method : string) (img : list Z) (w h threads : Z)
    (I_single I_multi : list Z) : option (bool * list Z) :=
  match openmp with
  | Some backend =>
      if bool_decide (method = "openmp"%string)
      then I_multi ← backend img w h I_multi threads;
           same ← equalIntegral I_single I_multi;
           Some (same, I_multi)
      else Some (true, I_multi)
  | None => Some (true, I_multi)
  end.

(** [main]; [argv] is the argument vector without the program name. *)
Definition main (argv : list string) : outcome * list event :=
  match parse_args argv defaults with
  | Help => (Exit 0, [Usage])
  | Throws => (Terminate, [])
  | Parsed o =>
      let w := opt_w o in
      let h := opt_h o in
      if bool_decide (w = 0) || bool_decide (h = 0) then (Terminate, [])
      else
        let runs := if bool_decide (opt_runs o ≤ 0) then 1 else opt_runs o in
        let threads := if bool_decide (opt_threads o ≤ 0) then 1 else opt_threads o in
        let log := [Banner w h threads runs (opt_seed o)] in
        let img := randImage w h (opt_seed o) in
        match single img w h [], multi img w h [] threads with
        | Some I_single, Some I_multi =>
            match equalIntegral I_single I_multi with
            | None => (Undefined, log)
            | Some false => (Exit 2, log ++ [Differ "multi"])
            | Some true =>
                match check_openmp (opt_method o) img w h threads I_single I_multi with
                | None => (Undefined, log)
                | Some (false, _) => (Exit 2, log ++ [Differ "openmp"])
                | Some (true, I_multi) =>
                    match benchmarks (opt_method o) runs img w h threads
                            I_single I_multi with
                    | None => (Undefined, log)
                    | Some lines => (Exit 0, log ++ lines)
                    end
                end
            end
        | _, _ => (Undefined, log)
        end
  end.
End Harness.

(** ** Specification vocabulary: exact sums over the grid *)

(** [f 0 + f 1 + .. + f (n-1)]. *)
Fixpoint sum_upto (n : nat) (f : Z → Z) : Z :=
  match n with
  | O => 0
  | S k => sum_upto k f + f (Z.of_nat k)
  end.

(** The sum of [f i] over [lo ≤ i < hi]. *)
Definition sumZ (lo hi : Z) (f : Z → Z) : Z :=
  sum_upto (Z.to_nat (hi - lo)) (λ k, f (lo + k)).

(** The sample [img[y*w + x]]. *)
Definition pixel (img : list Z) (w x y : Z) : Z :=
  default 0 (img !! Z.to_nat (y * w + x)).

(** The sum of row [y] over the columns [0 .. x]. *)
Definition row_prefix (img : list Z) (w y x : Z) : Z :=
  sumZ 0 (x + 1) (λ i, pixel img w i y).

(** The sum of [img[j*w + i]] over [0 ≤ i ≤ x], [0 ≤ j ≤ y]. *)
Definition sat (img : list Z) (w x y : Z) : Z :=
  sumZ 0 (y + 1) (λ j, row_prefix img w j x).

(** The sum of [img[y*w + x]] over [x0 ≤ x ≤ x1], [y0 ≤ y ≤ y1]. *)
Definition rect_sum (img : list Z) (w x0 y0 x1 y1 : Z) : Z :=
  sumZ y0 (y1 + 1) (λ y, sumZ x0 (x1 + 1) (λ x, pixel img w x y)).

(** The sum of all samples. *)
Definition total (img : list Z) : Z := foldr Z.add 0 img.

(** A [std::vector<u32>]: every element is a [u32], and the elements (4
    bytes each) fit a 64-bit address space. *)
Definition vec_u32 (img : list Z) : Prop :=
  Forall is_u32 img ∧ 4 * Z.of_nat (length img) < 2 ^ 64.

(** A grid [img] of dimensions [w], [h]: [img.size() == w*h]. *)
Definition grid (img : list Z) (w h : Z) : Prop :=
  is_u64 w ∧ is_u64 h ∧ vec_u32 img ∧ Z.of_nat (length img) = w * h.

(** The cell of the table [t] at column [x] of row [y]. *)
Definition cell (t : list Z) (w x y : Z) : option Z := t !! Z.to_nat (y * w + x).

(** The inclusion-exclusion value of a rectangle on the table [t]: the
    four lookups of [rect] and their [u64] combination [A - B - C + D]
    ([test_integral.cpp], lines 41-45), on the cells of a table of any
    size. *)
Definition inclusion_exclusion (t : list Z) (w x0 y0 x1 y1 : Z) : option Z :=
  A ← cell t w x1 y1;
  B ← (if bool_decide (0 < y0) then cell t w x1 (y0 - 1) else Some 0);
  C ← (if bool_decide (0 < x0) then cell t w (x0 - 1) y1 else Some 0);
  D ← (if bool_decide (0 < x0) && bool_decide (0 < y0)
       then cell t w (x0 - 1) (y0 - 1) else Some 0);
  Some (wrap64 (wrap64 (wrap64 (A - B) - C) + D)).

(** Loop invariants.  [filled_upto val img w h t n]: the table [t] has its
    final size, and its first [n] cells (in row-major order) hold their
    final value, the sum stored as [val] stores it. *)
Definition filled_upto (val : Z → Z) (img : list Z) (w h : Z) (t : list Z)
    (n : Z) : Prop :=
  Z.of_nat (length t) = w * h ∧
  ∀ k, 0 ≤ k < n → t !! Z.to_nat k = Some (val (sat img w (k mod w) (k / w))).

(** [updated w h D f t t']: [t'] has the size of the grid, holds [f x y] at
    the cells of the region [D], and agrees with [t] elsewhere. *)
Definition updated (w h : Z) (D : Z → Z → Prop) (f : Z → Z → Z)
    (t t' : list Z) : Prop :=
  Z.of_nat (length t') = w * h ∧
  (∀ x y, 0 ≤ x < w → 0 ≤ y < h → D x y → cell t' w x y = Some (f x y)) ∧
  (∀ x y, 0 ≤ x < w → 0 ≤ y < h → ¬ D x y → cell t' w x y = cell t w x y).

(** A schedule of [n] workers runs each of the workers [0 .. n-1], in any
    order. *)
Definition complete_schedule (sched : Z → list Z) : Prop :=
  ∀ n tid, tid ∈ sched n ↔ 0 ≤ tid < n.

Definition is_bench (e : event) : Prop :=
  match e with Bench _ _ => True | _ => False end.

Definition is_differ (e : event) : Prop :=
  match e with Differ _ => True | _ => False end.

(** A grid of one row, [2^32 + 2] samples wide, every sample [0xFFFFFFFF]:
    the smallest grid whose total does not fit 64 bits. *)
Definition wide_w : Z := 2 ^ 32 + 2.
Definition wide_row : list Z := replicate (Z.to_nat wide_w) (2 ^ 32 - 1).

(** ** The rest of the program *)

(** The block of worker [tid] among [num_threads] workers over [n]
    indices, as [worker_rows] computes [y0], [y1] from [h] and
    [worker_cols] computes [x0], [x1] from [w]: the indices [lo .. hi-1]. *)
Definition worker_block (n num_threads tid : Z) : Z * Z :=
  let per := wrap64 (wrap64 (n + wrap64 num_threads) - 1) / wrap64 num_threads in
  let lo := wrap64 (wrap64 tid * per) in
  let hi := Z.min n (wrap64 (lo + per)) in
  (lo, hi).

(** The sum of column [x] of the table [t] over the rows [0 .. y]. *)
Definition col_prefix (t : list Z) (w x y : Z) : Z :=
  sumZ 0 (y + 1) (λ j, pixel t w x j).

Section RandImage.
(** [std::mt19937 rng(seed)] and one call [d(rng)] of the
    [std::uniform_int_distribution<int> d(0,255)]: the [int] drawn and the
    generator afterwards.  The distribution is implementation-defined. *)
Variable Rng : Type.
Variable mt19937 : Z → Rng.
Variable draw : Rng → Z * Rng.

(** [for (auto &v : img) v = (u32)d(rng);] *)
Fixpoint redraw (img : list Z) (rng : Rng) : list Z :=
  match img with
  | [] => []
  | _ :: rest => let '(v, rng) := draw rng in wrap32 v :: redraw rest rng
  end.

(** [randImage(img, w, h, seed)]: [img] as the caller passes it, and on
    return. *)
Definition randImage (img : list Z) (w h seed : Z) : list Z :=
  let rng := mt19937 seed in
  let img := resize (Z.to_nat (wrap64 (w * h))) 0 img in
  redraw img rng.
End RandImage.

(** The lines [main] prints for its benchmarks, by [--method]; [openmp]
    says whether the program is compiled with OpenMP. *)
Definition benchmark_lines (openmp : bool) (method : string) (runs : Z) : list event :=
  (if bool_decide (method = "both"%string) || bool_decide (method = "single"%string)
   then [Bench "Single" runs] else []) ++
  (if bool_decide (method = "both"%string) || bool_decide (method = "multi"%string)
   then [Bench "Multi" runs] else []) ++
  (if openmp && bool_decide (method = "openmp"%string)
   then [Bench "OpenMP" runs] else []).

(** ** The test program *)

(** Conversion of an unsigned value below [2^32] to [int]. *)
Definition to_int (z : Z) : Z := if bool_decide (z < 2 ^ 31) then z else z - 2 ^ 32.

(** How a test ends: it returns ([Some true]), an [assert] fails and the
    program is aborted ([Some false]), or a vector is left ([None]). *)
Definition check (test rest : option bool) : option bool :=
  match test with
  | Some true => rest
  | Some false => Some false
  | None => None
  end.

(** How the test program ends. *)
Inductive test_outcome : Type :=
| Returned (code : Z)
| Aborted
| Unspecified.

Section Tests.
(** [std::mt19937 rng(seed)], a call [d(rng)] of the distribution
    [d(0,255)], and a call [rng()] of the generator itself, which returns
    an unsigned value. *)
Variable Rng : Type.
Variable mt19937 : Z → Rng.
Variable draw : Rng → Z * Rng.
Variable next : Rng → Z * Rng.

(** [for (auto &v : img) v = (u32)d(rng);], with the generator afterwards. *)
Fixpoint fill_random (img : list Z) (rng : Rng) : list Z * Rng :=
  match img with
  | [] => ([], rng)
  | _ :: rest =>
      let '(v, rng) := draw rng in
      let '(rest, rng) := fill_random rest rng in
      (wrap32 v :: rest, rng)
  end.

(** [test_small_known()]. *)
Definition test_small_known : option bool :=
  let img := [1; 2; 3; 4; 5; 6; 7; 8; 9] in
  A ← computeIntegralSingle img 3 3 [];
  B ← computeIntegralMulti img 3 3 [] 2;
  C ← computeIntegralNaive img 3 3 [];
  check (Some (bool_decide (A = B))) (Some (bool_decide (A = C))).

(** [test_random_compare(w, h, seed)]; [w] and [h] are [unsigned]. *)
Definition test_random_compare (w h seed : Z) : option bool :=
  let rng := mt19937 seed in
  let '(img, _) := fill_random (replicate (Z.to_nat (wrap32 (w * h))) 0) rng in
  A ← computeIntegralSingle img w h [];
  B ← computeIntegralMulti img w h [] 4;
  Some (bool_decide (A = B)).

(** The loop of [test_rect_sum_property]: [n] rectangles are drawn and
    checked. *)
Fixpoint rect_trials (n : nat) (I img : list Z) (w h : Z) (rng : Rng)
    : option bool :=
  match n with
  | O => Some true
  | S n' =>
      let '(r, rng) := next rng in let x0 := to_int (r mod w) in
      let '(r, rng) := next rng in let x1 := to_int (r mod w) in
      let '(r, rng) := next rng in let y0 := to_int (r mod h) in
      let '(r, rng) := next rng in let y1 := to_int (r mod h) in
      let '(x0, x1) := if bool_decide (x0 > x1) then (x1, x0) else (x0, x1) in
      let '(y0, y1) := if bool_decide (y0 > y1) then (y1, y0) else (y0, y1) in
      p ← rect I img w x0 y0 x1 y1;
      check (Some (bool_decide (p.1 = p.2))) (rect_trials n' I img w h rng)
  end.

(** [test_rect_sum_property()]. *)
Definition test_rect_sum_property : option bool :=
  let w := 10 in
  let h := 10 in
  let rng := mt19937 123 in
  let '(img, rng) := fill_random (replicate (Z.to_nat (wrap32 (w * h))) 0) rng in
  I ← computeIntegralSingle img w h [];
  rect_trials 100 I img w h rng.

(** The calls [test_random_compare(32 + s*8, 16 + s*7, 1000+s)] for
    [s = from, .., from + n - 1]. *)
Fixpoint random_compares (n : nat) (s : Z) (rest : option bool) : option bool :=
  match n with
  | O => rest
  | S n' =>
      check (test_random_compare (wrap32 (32 + wrap32 (s * 8)))
                                 (wrap32 (16 + wrap32 (s * 7)))
                                 (wrap32 (1000 + s)))
            (random_compares n' (s + 1) rest)
  end.

(** [main] of the test program. *)
Definition test_main : test_outcome :=
  match check test_small_known (random_compares 5 0 test_rect_sum_property) with
  | Some true => Returned 0
  | Some false => Aborted
  | None => Unspecified
  end.
End Tests.

(** The options [main] recognises. *)
Definition option_names : list string :=
  ["--width"; "--height"; "--threads"; "--runs"; "--seed"; "--method"; "--help"]%string.

(** * Proofs *)

Example single_3x3 :
  computeIntegralSingle [1;2;3;4;5;6;7;8;9] 3 3 [] = Some [1;3;6;5;12;21;12;27;45].
Proof. vm_compute. reflexivity. Qed.

Example multi_3x3 :
  computeIntegralMulti [1;2;3;4;5;6;7;8;9] 3 3 [7;7] 2 = Some [1;3;6;5;12;21;12;27;45].
Proof. vm_compute. reflexivity. Qed.

Example multi_3x3_many_workers :
  computeIntegralMulti [1;2;3;4;5;6;7;8;9] 3 3 [] 8 = Some [1;3;6;5;12;21;12;27;45].
Proof. vm_compute. reflexivity. Qed.

Example openmp_3x3 :
  computeIntegralOpenMP [1;2;3;4;5;6;7;8;9] 3 3 [] 2 = Some [1;3;6;5;12;21;12;27;45].
Proof. vm_compute. reflexivity. Qed.

Example multi_3x3_last_worker_first :
  computeIntegralMulti_sched (λ n, reverse (seqZ 0 n)) (λ n, reverse (seqZ 0 n))
    [1;2;3;4;5;6;7;8;9] 3 3 [] 3 = Some [1;3;6;5;12;21;12;27;45].
Proof. vm_compute. reflexivity. Qed.

Example rect_3x3 :
  rect [1;3;6;5;12;21;12;27;45] [1;2;3;4;5;6;7;8;9] 3 1 1 2 2 = Some (28, 28).
Proof. vm_compute. reflexivity. Qed.

Example single_short_image : computeIntegralSingle [1;2;3] 2 2 [] = None.
Proof. vm_compute. reflexivity. Qed.

Example equalIntegral_differs : equalIntegral [1;3;6] [1;3;7] = Some false.
Proof. vm_compute. reflexivity. Qed.

Example naive_3x3 :
  computeIntegralNaive [1;2;3;4;5;6;7;8;9] 3 3 [] = Some [1;3;6;5;12;21;12;27;45].
Proof. vm_compute. reflexivity. Qed.

(** ** Machine arithmetic *)

Lemma wrap64_small z : 0 ≤ z < 2 ^ 64 → wrap64 z = z.
Proof. intros. unfold wrap64. apply Z.mod_small. lia. Qed.

Lemma wrap32_small z : 0 ≤ z < 2 ^ 32 → wrap32 z = z.
Proof. intros. unfold wrap32. apply Z.mod_small. lia. Qed.

Lemma wrap64_add_l a b : wrap64 (wrap64 a + b) = wrap64 (a + b).
Proof. unfold wrap64. apply Zplus_mod_idemp_l. Qed.

Lemma wrap64_add_r a b : wrap64 (a + wrap64 b) = wrap64 (a + b).
Proof. unfold wrap64. apply Zplus_mod_idemp_r. Qed.

Lemma wrap64_add a b : wrap64 (wrap64 a + wrap64 b) = wrap64 (a + b).
Proof. by rewrite wrap64_add_l, wrap64_add_r. Qed.

(** ** Vector accesses *)

Lemma vget_lookup (v : list Z) i x :
  0 ≤ i → v !! Z.to_nat i = Some x → vget v i = Some x.
Proof. intros ? ?. unfold vget. by rewrite decide_True. Qed.

Lemma vget_in_range (v : list Z) i :
  0 ≤ i < Z.of_nat (length v) → ∃ x, vget v i = Some x ∧ v !! Z.to_nat i = Some x.
Proof.
  intros Hi. destruct (lookup_lt_is_Some_2 v (Z.to_nat i)) as [x Hx]; [lia|].
  exists x. split; [apply vget_lookup; [lia | done] | done].
Qed.

Lemma vget_out_of_range (v : list Z) i :
  Z.of_nat (length v) ≤ i → vget v i = None.
Proof.
  intros Hi. unfold vget. rewrite decide_True by lia.
  apply lookup_ge_None. lia.
Qed.

Lemma vset_in_range (v : list Z) i x :
  0 ≤ i < Z.of_nat (length v) → vset v i x = Some (<[Z.to_nat i := x]> v).
Proof. intros. unfold vset. by rewrite decide_True. Qed.

Lemma vset_out_of_range (v : list Z) i x :
  Z.of_nat (length v) ≤ i → vset v i x = None.
Proof. intros. unfold vset. rewrite decide_False; [done | lia]. Qed.

(** ** The loop rule: an invariant carried through every iteration gives
    a result, and the invariant at the exit. *)

Lemma for_range_inv {St : Type} (I : Z → St → Prop) (body : Z → St → option St)
    (n : nat) (lo : Z) (s : St) :
  I lo s →
  (∀ i s, lo ≤ i < lo + Z.of_nat n → I i s →
          ∃ s', body i s = Some s' ∧ I (i + 1) s') →
  ∃ s', for_range n lo body s = Some s' ∧ I (lo + Z.of_nat n) s'.
Proof.
  revert lo s. induction n as [|n IH]; intros lo s H0 Hstep.
  - exists s. split; [done|]. by replace (lo + Z.of_nat 0) with lo by lia.
  - destruct (Hstep lo s) as (s1 & Hb & H1); [lia | done |].
    destruct (IH (lo + 1) s1) as (s2 & Hr & H2); [done | |].
    + intros i s' Hi. apply Hstep. lia.
    + exists s2. split.
      * simpl. rewrite Hb. simpl. done.
      * by replace (lo + Z.of_nat (S n)) with (lo + 1 + Z.of_nat n) by lia.
Qed.

Lemma for_loop_inv {St : Type} (I : Z → St → Prop) (body : Z → St → option St)
    (lo hi : Z) (s : St) :
  lo ≤ hi → I lo s →
  (∀ i s, lo ≤ i < hi → I i s → ∃ s', body i s = Some s' ∧ I (i + 1) s') →
  ∃ s', for_loop lo hi body s = Some s' ∧ I hi s'.
Proof.
  intros Hle H0 Hstep. unfold for_loop.
  destruct (for_range_inv I body (Z.to_nat (hi - lo)) lo s) as (s' & ? & ?);
    [done | intros i s1 ?; apply Hstep; lia |].
  exists s'. split; [done|]. by replace hi with (lo + Z.of_nat (Z.to_nat (hi - lo))) by lia.
Qed.

Lemma for_loop_skip {St : Type} (body : Z → St → option St) (lo hi : Z) (s : St) :
  hi ≤ lo → for_loop lo hi body s = Some s.
Proof. intros. unfold for_loop. by replace (Z.to_nat (hi - lo)) with O by lia. Qed.

Lemma for_range_ext {St : Type} (body body' : Z → St → option St)
    (n : nat) (lo : Z) (s : St) :
  (∀ i s, lo ≤ i < lo + Z.of_nat n → body i s = body' i s) →
  for_range n lo body s = for_range n lo body' s.
Proof.
  revert lo s. induction n as [|n IH]; intros lo s Hext; [done|].
  simpl. rewrite Hext by lia. destruct (body' lo s) as [s'|]; simpl; [|done].
  apply IH. intros i s1 Hi. apply Hext. lia.
Qed.

Lemma for_loop_ext {St : Type} (body body' : Z → St → option St)
    (lo hi : Z) (s : St) :
  (∀ i s, lo ≤ i < hi → body i s = body' i s) →
  for_loop lo hi body s = for_loop lo hi body' s.
Proof.
  intros Hext. unfold for_loop. apply for_range_ext.
  intros i s1 Hi. apply Hext. lia.
Qed.

(** ** Finite sums *)

Lemma sumZ_nil lo hi f : hi ≤ lo → sumZ lo hi f = 0.
Proof. intros. unfold sumZ. by replace (Z.to_nat (hi - lo)) with O by lia. Qed.

Lemma sumZ_snoc lo hi f : lo ≤ hi → sumZ lo (hi + 1) f = sumZ lo hi f + f hi.
Proof.
  intros. unfold sumZ.
  replace (Z.to_nat (hi + 1 - lo)) with (S (Z.to_nat (hi - lo))) by lia.
  simpl. do 2 f_equal. lia.
Qed.

(** Induction on the upper bound of a range. *)
Lemma range_ind (P : Z → Prop) (lo : Z) :
  P lo → (∀ hi, lo ≤ hi → P hi → P (hi + 1)) → ∀ hi, lo ≤ hi → P hi.
Proof.
  intros H0 Hs hi Hle.
  replace hi with (lo + Z.of_nat (Z.to_nat (hi - lo))) by lia.
  induction (Z.to_nat (hi - lo)) as [|n IH].
  - by replace (lo + Z.of_nat 0) with lo by lia.
  - replace (lo + Z.of_nat (S n)) with (lo + Z.of_nat n + 1) by lia.
    apply Hs; [lia | done].
Qed.

Lemma sumZ_ext lo hi f g :
  (∀ i, lo ≤ i < hi → f i = g i) → sumZ lo hi f = sumZ lo hi g.
Proof.
  destruct (Z.le_gt_cases lo hi) as [Hle|Hgt]; [|intros; rewrite !sumZ_nil; lia].
  revert hi Hle. apply (range_ind (λ hi, (∀ i, lo ≤ i < hi → f i = g i) → sumZ lo hi f = sumZ lo hi g)).
  - intros. by rewrite !sumZ_nil.
  - intros hi Hle IH Hfg. rewrite !sumZ_snoc by done.
    rewrite IH, Hfg; [done | lia |]. intros. apply Hfg. lia.
Qed.

Lemma sumZ_nonneg lo hi f : (∀ i, lo ≤ i < hi → 0 ≤ f i) → 0 ≤ sumZ lo hi f.
Proof.
  destruct (Z.le_gt_cases lo hi) as [Hle|Hgt]; [|intros; rewrite sumZ_nil; lia].
  revert hi Hle. apply (range_ind (λ hi, (∀ i, lo ≤ i < hi → 0 ≤ f i) → 0 ≤ sumZ lo hi f)).
  - intros. by rewrite sumZ_nil.
  - intros hi Hle IH Hf. rewrite sumZ_snoc by done.
    assert (0 ≤ f hi) by (apply Hf; lia).
    assert (0 ≤ sumZ lo hi f) by (apply IH; intros; apply Hf; lia). lia.
Qed.

Lemma sumZ_split lo mid hi f :
  lo ≤ mid → mid ≤ hi → sumZ lo hi f = sumZ lo mid f + sumZ mid hi f.
Proof.
  intros Hlm. revert hi. apply range_ind.
  - rewrite (sumZ_nil mid mid); lia.
  - intros hi Hle IH. rewrite !sumZ_snoc by lia. lia.
Qed.

Lemma sumZ_le lo hi f g :
  (∀ i, lo ≤ i < hi → f i ≤ g i) → sumZ lo hi f ≤ sumZ lo hi g.
Proof.
  destruct (Z.le_gt_cases lo hi) as [Hle|Hgt]; [|intros; rewrite !sumZ_nil; lia].
  revert hi Hle. apply (range_ind (λ hi, (∀ i, lo ≤ i < hi → f i ≤ g i) → sumZ lo hi f ≤ sumZ lo hi g)).
  - intros. rewrite !sumZ_nil; lia.
  - intros hi Hle IH Hfg. rewrite !sumZ_snoc by done.
    assert (f hi ≤ g hi) by (apply Hfg; lia).
    assert (sumZ lo hi f ≤ sumZ lo hi g) by (apply IH; intros; apply Hfg; lia). lia.
Qed.

Lemma sumZ_mono_hi lo hi hi' f :
  (∀ i, 0 ≤ f i) → hi ≤ hi' → sumZ lo hi f ≤ sumZ lo hi' f.
Proof.
  intros Hf Hle. destruct (Z.le_gt_cases lo hi) as [Hlo|Hlo].
  - rewrite (sumZ_split lo hi hi') by lia.
    assert (0 ≤ sumZ hi hi' f) by (apply sumZ_nonneg; auto). lia.
  - rewrite (sumZ_nil lo hi) by lia. apply sumZ_nonneg; auto.
Qed.

Lemma sumZ_plus lo hi f g :
  sumZ lo hi (λ i, f i + g i) = sumZ lo hi f + sumZ lo hi g.
Proof.
  destruct (Z.le_gt_cases lo hi) as [Hle|Hgt]; [|rewrite !sumZ_nil; lia].
  revert hi Hle. apply range_ind.
  - rewrite !sumZ_nil; lia.
  - intros hi Hle IH. rewrite !sumZ_snoc by done. lia.
Qed.

Lemma sumZ_minus lo hi f g :
  sumZ lo hi (λ i, f i - g i) = sumZ lo hi f - sumZ lo hi g.
Proof.
  destruct (Z.le_gt_cases lo hi) as [Hle|Hgt]; [|rewrite !sumZ_nil; lia].
  revert hi Hle. apply range_ind.
  - rewrite !sumZ_nil; lia.
  - intros hi Hle IH. rewrite !sumZ_snoc by done. lia.
Qed.

Lemma sumZ_zero lo hi : sumZ lo hi (λ _, 0) = 0.
Proof.
  destruct (Z.le_gt_cases lo hi) as [Hle|Hgt]; [|rewrite sumZ_nil; lia].
  revert hi Hle. apply range_ind.
  - rewrite sumZ_nil; lia.
  - intros hi Hle IH. rewrite sumZ_snoc by done. lia.
Qed.

Lemma sumZ_const lo hi c : lo ≤ hi → sumZ lo hi (λ _, c) = (hi - lo) * c.
Proof.
  revert hi. apply range_ind.
  - rewrite sumZ_nil; lia.
  - intros hi Hle IH. rewrite sumZ_snoc by done. lia.
Qed.

(** Exchange of two finite sums. *)
Lemma sumZ_swap a b c d (f : Z → Z → Z) :
  sumZ a b (λ i, sumZ c d (λ j, f i j)) = sumZ c d (λ j, sumZ a b (λ i, f i j)).
Proof.
  destruct (Z.le_gt_cases a b) as [Hle|Hgt].
  - revert b Hle. apply range_ind.
    + rewrite sumZ_nil by lia. symmetry.
      erewrite sumZ_ext; [apply sumZ_zero|]. intros. simpl. apply sumZ_nil. lia.
    + intros b Hle IH. rewrite sumZ_snoc by done. rewrite IH, <- sumZ_plus.
      apply sumZ_ext. intros. simpl. by rewrite sumZ_snoc.
  - rewrite sumZ_nil by lia. symmetry.
    erewrite sumZ_ext; [apply sumZ_zero|]. intros. simpl. apply sumZ_nil. lia.
Qed.

(** ** Row-major indexing *)

Lemma cell_index_bound w h x y :
  0 ≤ x < w → 0 ≤ y < h → 0 ≤ y * w + x < w * h.
Proof. intros. nia. Qed.

Lemma cell_index_div w x y : 0 ≤ x < w → (y * w + x) / w = y.
Proof.
  intros. rewrite Z.add_comm, Z.div_add by lia. rewrite Z.div_small by lia. lia.
Qed.

Lemma cell_index_mod w x y : 0 ≤ x < w → (y * w + x) mod w = x.
Proof.
  intros. rewrite Z.add_comm, Z.mod_add by lia. apply Z.mod_small. lia.
Qed.

Lemma cell_index_inj w x y x' y' :
  0 ≤ x < w → 0 ≤ x' < w → y * w + x = y' * w + x' → x = x' ∧ y = y'.
Proof.
  intros Hx Hx' Heq. split.
  - rewrite <- (cell_index_mod w x y), <- (cell_index_mod w x' y') by done. by rewrite Heq.
  - rewrite <- (cell_index_div w x y), <- (cell_index_div w x' y') by done. by rewrite Heq.
Qed.

(** The [size_t] computation of [y*w + x] does not wrap inside the grid. *)
Lemma index_wrap64 w x y :
  0 ≤ w → 0 ≤ x → 0 ≤ y → y * w + x < 2 ^ 64 →
  wrap64 (wrap64 (y * w) + x) = y * w + x.
Proof.
  intros. rewrite (wrap64_small (y * w)) by nia. apply wrap64_small. nia.
Qed.

(** ** Recurrences of the exact sums *)

Lemma row_prefix_before img w y : row_prefix img w y (-1) = 0.
Proof. unfold row_prefix. by rewrite sumZ_nil. Qed.

Lemma row_prefix_step img w y x :
  0 ≤ x → row_prefix img w y x = row_prefix img w y (x - 1) + pixel img w x y.
Proof.
  intros. unfold row_prefix. rewrite sumZ_snoc by lia.
  by replace (x - 1 + 1) with x by lia.
Qed.

Lemma sat_before img w x : sat img w x (-1) = 0.
Proof. unfold sat. by rewrite sumZ_nil. Qed.

Lemma sat_step img w x y :
  0 ≤ y → sat img w x y = sat img w x (y - 1) + row_prefix img w y x.
Proof.
  intros. unfold sat. rewrite sumZ_snoc by lia.
  by replace (y - 1 + 1) with y by lia.
Qed.

Lemma pixel_lookup (img : list Z) w x y :
  0 ≤ w → 0 ≤ x → 0 ≤ y → y * w + x < Z.of_nat (length img) →
  vget img (y * w + x) = Some (pixel img w x y).
Proof.
  intros. destruct (vget_in_range img (y * w + x)) as (v & Hg & Hl); [nia|].
  unfold pixel. by rewrite Hl.
Qed.

(** ** The sequential builder, for any adder that represents exact sums

    [val s] is how the adder stores the exact sum [s]; [ok s] says the
    adder can produce [s].  The hardware adder stores [wrap64 s] and never
    fails; the carry-checking adder stores [s] itself and needs
    [s < 2^64]. *)

Section SingleCorrect.
Variable add : Z → Z → option Z.
Variable val : Z → Z.
Variable ok : Z → Prop.
Hypothesis val_0 : val 0 = 0.
Hypothesis add_val : ∀ a b, ok (a + b) → add (val a) (val b) = Some (val (a + b)).
Hypothesis add_raw : ∀ a b, ok (a + b) → add (val a) b = Some (val (a + b)).

Variables (img : list Z) (w h : Z).
Hypothesis Hw : 0 < w.
Hypothesis Hh : 0 < h.
Hypothesis Hlen : w * h ≤ Z.of_nat (length img).
Hypothesis Hfit : w * h < 2 ^ 64.
Hypothesis ok_row : ∀ x y, 0 ≤ x < w → 0 ≤ y < h → ok (row_prefix img w y x).
Hypothesis ok_sat : ∀ x y, 0 ≤ x < w → 0 ≤ y < h → ok (sat img w x y).

Lemma filled_upto_cell t n x y :
  filled_upto val img w h t n → 0 ≤ x < w → 0 ≤ y → y * w + x < n →
  t !! Z.to_nat (y * w + x) = Some (val (sat img w x y)).
Proof.
  intros [_ Hc] Hx Hy Hn. rewrite Hc by nia.
  by rewrite cell_index_mod, cell_index_div.
Qed.

Lemma filled_upto_write t x y c :
  filled_upto val img w h t (y * w + x) → 0 ≤ x < w → 0 ≤ y < h →
  c = val (sat img w x y) →
  ∃ t', vset t (y * w + x) c = Some t' ∧ filled_upto val img w h t' (y * w + x + 1).
Proof.
  intros [Hl Hc] Hx Hy ->. pose proof (cell_index_bound w h x y Hx Hy).
  eexists. split; [apply vset_in_range; lia|]. split.
  - by rewrite length_insert.
  - intros k Hk. destruct (decide (k = y * w + x)) as [->|Hne].
    + rewrite list_lookup_insert_eq by lia.
      by rewrite cell_index_mod, cell_index_div.
    + rewrite list_lookup_insert_ne by lia. apply Hc. lia.
Qed.

Lemma single_row_step y t :
  0 ≤ y < h → filled_upto val img w h t (y * w) →
  ∃ rs t',
    for_loop 0 w (λ x '(row_sum, integral),
        px ← vget img (wrap64 (wrap64 (y * w) + x));
        row_sum ← add row_sum px;
        above ← (if bool_decide (0 < y)
                 then vget integral (wrap64 (wrap64 (wrap64 (y - 1) * w) + x))
                 else Some 0);
        cell ← add row_sum above;
        integral ← vset integral (wrap64 (wrap64 (y * w) + x)) cell;
        Some (row_sum, integral)) (0, t) = Some (rs, t')
    ∧ filled_upto val img w h t' ((y + 1) * w).
Proof.
  intros Hy Hf.
  set (Inv := λ (x : Z) (s : Z * list Z),
         s.1 = val (row_prefix img w y (x - 1)) ∧ filled_upto val img w h s.2 (y * w + x)).
  edestruct (for_loop_inv Inv) as ([rs t'] & Hrun & Hrs & Hend); [| |
    | exists rs, t'; split; [exact Hrun|]].
  - lia.
  - split; simpl.
    + by rewrite row_prefix_before.
    + by replace (y * w + 0) with (y * w) by lia.
  - intros x [rs0 t0] Hx [Hrs0 Hf0]. simpl in Hrs0, Hf0.
    pose proof (cell_index_bound w h x y ltac:(lia) Hy) as Hk.
    rewrite index_wrap64 by lia.
    rewrite pixel_lookup by lia. simpl.
    rewrite Hrs0, add_raw; cycle 1.
    { rewrite <- row_prefix_step by lia. apply ok_row; lia. }
    rewrite <- row_prefix_step by lia. simpl.
    assert (Habove : (if bool_decide (0 < y)
               then vget t0 (wrap64 (wrap64 (wrap64 (y - 1) * w) + x))
               else Some 0) = Some (val (sat img w x (y - 1)))).
    { case_bool_decide as Hy0.
      - rewrite (wrap64_small (y - 1)) by nia.
        rewrite index_wrap64 by nia.
        apply vget_lookup; [nia|].
        apply (filled_upto_cell _ _ _ _ Hf0); lia.
      - replace y with 0 by lia. simpl. by rewrite sat_before, val_0. }
    rewrite Habove. simpl.
    rewrite add_val; cycle 1.
    { replace (row_prefix img w y x + sat img w x (y - 1)) with (sat img w x y)
        by (rewrite (sat_step img w x y); lia).
      apply ok_sat; lia. }
    simpl.
    destruct (filled_upto_write t0 x y
                (val (row_prefix img w y x + sat img w x (y - 1))))
      as (t1 & Hset & Hf1); [done | lia | done | |].
    { f_equal. rewrite (sat_step img w x y); lia. }
    rewrite Hset. simpl. eexists. split; [done|]. split; simpl.
    + by replace (x + 1 - 1) with x by lia.
    + by replace (y * w + (x + 1)) with (y * w + x + 1) by lia.
  - simpl in Hend. by replace ((y + 1) * w) with (y * w + w) by lia.
Qed.

Lemma single_with_correct buf :
  ∃ t, computeIntegralSingle_with add img w h buf = Some t ∧ filled_upto val img w h t (w * h).
Proof.
  unfold computeIntegralSingle_with.
  rewrite !bool_decide_eq_false_2 by lia. simpl.
  edestruct (for_loop_inv (λ y t, filled_upto val img w h t (y * w))) as (t & Hrun & Hend);
    [| | | exists t; split; [exact Hrun|]].
  - lia.
  - split.
    + unfold vassign. rewrite length_replicate, wrap64_small; lia.
    + intros; lia.
  - intros y t Hy Hf. simpl.
    destruct (single_row_step y t Hy Hf) as (rs & t' & Hrun & Hf').
    rewrite (wrap64_small (y * w)) in Hrun |- * by nia.
    rewrite Hrun. simpl. eauto.
  - by replace (w * h) with (h * w) by lia.
Qed.

Lemma single_with_cells buf :
  ∃ t, computeIntegralSingle_with add img w h buf = Some t ∧
       Z.of_nat (length t) = w * h ∧
       ∀ x y, 0 ≤ x < w → 0 ≤ y < h → cell t w x y = Some (val (sat img w x y)).
Proof.
  destruct (single_with_correct buf) as (t & Hrun & Hf).
  exists t. split; [done|]. split; [apply Hf|].
  intros x y Hx Hy. apply (filled_upto_cell t (w * h)); [done | done | lia |].
  pose proof (cell_index_bound w h x y Hx Hy). lia.
Qed.
End SingleCorrect.

Lemma single_cells img w h buf :
  0 < w → 0 < h → w * h ≤ Z.of_nat (length img) → w * h < 2 ^ 64 →
  ∃ t, computeIntegralSingle img w h buf = Some t ∧
       Z.of_nat (length t) = w * h ∧
       ∀ x y, 0 ≤ x < w → 0 ≤ y < h → cell t w x y = Some (wrap64 (sat img w x y)).
Proof.
  intros. apply (single_with_cells add_u64 wrap64 (λ _, True)); try done.
  - intros a b _. unfold add_u64. by rewrite wrap64_add.
  - intros a b _. unfold add_u64. by rewrite wrap64_add_l.
Qed.

(** ** Tables updated cell by cell *)

Section Tables.
Variables w h : Z.

Lemma updated_none D f t :
  Z.of_nat (length t) = w * h → (∀ x y, 0 ≤ x < w → 0 ≤ y < h → ¬ D x y) →
  updated w h D f t t.
Proof. intros Hl HD. split; [done|]. split; [|done]. intros x y ? ? ?. by destruct (HD x y). Qed.

Lemma updated_ext D D' f t t' :
  (∀ x y, 0 ≤ x < w → 0 ≤ y < h → D x y ↔ D' x y) →
  updated w h D f t t' → updated w h D' f t t'.
Proof.
  intros HD (Hl & Hin & Hout). split; [done|]. split.
  - intros x y ? ? ?. apply Hin; [done..|]. by apply HD.
  - intros x y ? ? Hn. apply Hout; [done..|]. intros ?. apply Hn. by apply HD.
Qed.

Lemma updated_trans D1 D2 f t0 t1 t2 :
  (∀ x y, Decision (D2 x y)) →
  updated w h D1 f t0 t1 → updated w h D2 f t1 t2 →
  updated w h (λ x y, D1 x y ∨ D2 x y) f t0 t2.
Proof.
  intros Hdec (_ & Hin1 & Hout1) (Hl & Hin2 & Hout2). split; [done|]. split.
  - intros x y Hx Hy Hd. destruct (Hdec x y) as [H2|H2]; [by apply Hin2|].
    rewrite Hout2 by done. apply Hin1; [done..|]. by destruct Hd.
  - intros x y Hx Hy Hn. rewrite Hout2, Hout1; [done | done | done | | done | done |]; tauto.
Qed.

Lemma updated_write D f t t' x y c :
  updated w h D f t t' → 0 ≤ x < w → 0 ≤ y < h → c = f x y →
  ∃ t'', vset t' (y * w + x) c = Some t'' ∧
         updated w h (λ x' y', D x' y' ∨ (x' = x ∧ y' = y)) f t t''.
Proof.
  intros (Hl & Hin & Hout) Hx Hy ->.
  pose proof (cell_index_bound w h x y Hx Hy).
  eexists. split; [apply vset_in_range; lia|]. unfold updated, cell in *.
  split; [by rewrite length_insert|]. split.
  - intros x' y' Hx' Hy' Hd.
    destruct (decide (y' * w + x' = y * w + x)) as [Heq|Hne].
    + apply cell_index_inj in Heq as [-> ->]; [|done..].
      rewrite list_lookup_insert_eq by lia. done.
    + rewrite list_lookup_insert_ne by (pose proof (cell_index_bound w h x' y' Hx' Hy'); lia).
      apply Hin; [done..|]. destruct Hd as [?|[-> ->]]; [done|lia].
  - intros x' y' Hx' Hy' Hn.
    rewrite list_lookup_insert_ne.
    + apply Hout; [done..|]. tauto.
    + intros Heq. apply Hn. right.
      assert (y * w + x = y' * w + x') as Heq'.
      { pose proof (cell_index_bound w h x' y' Hx' Hy'). lia. }
      apply cell_index_inj in Heq' as [-> ->]; done.
Qed.
End Tables.

(** ** Static partition of [n] indices among [t] workers *)

Lemma block_size_bounds n t : 1 ≤ n → 1 ≤ t → 1 ≤ (n + t - 1) / t ≤ n.
Proof.
  intros. split.
  - apply Z.div_le_lower_bound; lia.
  - assert ((n + t - 1) / t < n + 1); [|lia].
    apply Z.div_lt_upper_bound; nia.
Qed.

Lemma blocks_cover n t : 1 ≤ t → n ≤ t * ((n + t - 1) / t) < n + t.
Proof.
  intros. pose proof (Z.mul_div_le (n + t - 1) t ltac:(lia)).
  pose proof (Z.mul_succ_div_gt (n + t - 1) t ltac:(lia)). lia.
Qed.

(** The block of worker [tid] holds exactly the indices [i] with
    [i / per = tid]. *)
Lemma in_block n per tid i :
  0 < per → 0 ≤ i < n →
  (tid * per ≤ i < Z.min n (tid * per + per)) ↔ i / per = tid.
Proof.
  intros Hper Hi. split.
  - intros Hb. symmetry. apply (Z.div_unique_pos i per tid (i - tid * per)); lia.
  - intros <-. pose proof (Z.mul_div_le i per Hper).
    pose proof (Z.mul_succ_div_gt i per Hper). lia.
Qed.

(** No index lies in the blocks of two workers: no cell is written by
    more than one worker of a phase. *)
Lemma blocks_disjoint n per tid tid' i :
  0 < per → 0 ≤ i < n →
  tid * per ≤ i < Z.min n (tid * per + per) →
  tid' * per ≤ i < Z.min n (tid' * per + per) →
  tid = tid'.
Proof.
  intros Hper Hi Hb Hb'.
  apply (in_block n per tid i Hper Hi) in Hb.
  apply (in_block n per tid' i Hper Hi) in Hb'. congruence.
Qed.

Lemma block_of_index n t i :
  1 ≤ t → 0 ≤ i < n → 0 ≤ i / ((n + t - 1) / t) < t.
Proof.
  intros Ht Hi. pose proof (block_size_bounds n t ltac:(lia) Ht).
  pose proof (blocks_cover n t Ht). split.
  - apply Z.div_pos; lia.
  - apply Z.div_lt_upper_bound; nia.
Qed.

(** The worker's [size_t] arithmetic does not wrap. *)
Lemma worker_bounds n num_threads tid :
  1 ≤ n < 2 ^ 62 → 1 ≤ num_threads < 2 ^ 31 → 0 ≤ tid < num_threads →
  let per := wrap64 (wrap64 (n + wrap64 num_threads) - 1) / wrap64 num_threads in
  per = (n + num_threads - 1) / num_threads ∧
  wrap64 (wrap64 tid * per) = tid * per ∧
  wrap64 (tid * per + per) = tid * per + per.
Proof.
  intros Hn Ht Htid per.
  assert (Hper : per = (n + num_threads - 1) / num_threads).
  { unfold per. rewrite (wrap64_small num_threads) by lia.
    rewrite (wrap64_small (n + num_threads)) by lia.
    rewrite wrap64_small by lia. done. }
  split; [done|]. rewrite Hper.
  pose proof (block_size_bounds n num_threads ltac:(lia) ltac:(lia)).
  pose proof (blocks_cover n num_threads ltac:(lia)).
  rewrite (wrap64_small tid) by lia.
  split; apply wrap64_small; nia.
Qed.

(** ** Fork and join over workers that own disjoint blocks *)

Lemma fork_join_updated w h (worker : Z → list Z → option (list Z))
    (owner : Z → Z → Z) (f : Z → Z → Z) (sched : list Z) (t0 : list Z) :
  (∀ tid t, tid ∈ sched → Z.of_nat (length t) = w * h →
     ∃ t', worker tid t = Some t' ∧ updated w h (λ x y, owner x y = tid) f t t') →
  Z.of_nat (length t0) = w * h →
  ∃ t', fork_join sched worker t0 = Some t' ∧
        updated w h (λ x y, owner x y ∈ sched) f t0 t'.
Proof.
  revert t0. induction sched as [|tid rest IH]; intros t0 Hworker Hl.
  - exists t0. split; [done|]. apply updated_none; [done|].
    intros x y _ _ Hin. by apply not_elem_of_nil in Hin.
  - destruct (Hworker tid t0) as (t1 & Hrun1 & Hu1); [left | done |].
    destruct (IH t1) as (t2 & Hrun2 & Hu2).
    { intros tid' t Hin. apply Hworker. by right. }
    { apply Hu1. }
    exists t2. split; [simpl; rewrite Hrun1; exact Hrun2|].
    eapply updated_ext; [|eapply updated_trans; [|exact Hu1|exact Hu2]].
    + intros x y _ _. simpl. rewrite elem_of_cons. done.
    + intros x y. simpl. apply _.
Qed.

(** ** The parallel builder *)

Section MultiCorrect.
Variables (img : list Z) (w h : Z).
Hypothesis Hw : 0 < w.
Hypothesis Hh : 0 < h.
Hypothesis Hlen : w * h ≤ Z.of_nat (length img).
Hypothesis Hfit : w * h < 2 ^ 62.

Let rowf (x y : Z) : Z := wrap64 (row_prefix img w y x).
Let satf (x y : Z) : Z := wrap64 (sat img w x y).

(** Phase 1 over the rows [a .. b-1]. *)
Lemma rows_pass a b R :
  0 ≤ a → b ≤ h → Z.of_nat (length R) = w * h →
  ∃ R',
    for_loop a b (λ y rowCum,
      '(_, rowCum) ← for_loop 0 w (λ x '(s, rowCum),
        px ← vget img (wrap64 (wrap64 (y * w) + x));
        rowCum ← vset rowCum (wrap64 (wrap64 (y * w) + x)) (wrap64 (s + px));
        Some (wrap64 (s + px), rowCum)) (0, rowCum);
      Some rowCum) R = Some R'
    ∧ updated w h (λ x y, a ≤ y < b) rowf R R'.
Proof.
  intros Ha Hb Hl. destruct (Z.le_gt_cases a b) as [Hab|Hab]; cycle 1.
  { exists R. split; [apply for_loop_skip; lia|]. apply updated_none; [done|]. lia. }
  apply (for_loop_inv (λ y R', updated w h (λ x' y', a ≤ y' < y) rowf R R')); [done | |].
  { apply updated_none; [done|]. lia. }
  intros y R1 Hy Hu1.
  edestruct (for_loop_inv (λ x (s : Z * list Z),
      s.1 = wrap64 (row_prefix img w y (x - 1)) ∧
      updated w h (λ x' y', a ≤ y' < y ∨ (y' = y ∧ x' < x)) rowf R s.2))
    as ([s R2] & Hrun & Hs & Hu2); [| | | rewrite Hrun].
  - lia.
  - split; simpl; [by rewrite row_prefix_before|].
    eapply updated_ext; [|exact Hu1]. intros; simpl; lia.
  - intros x [s0 R2] Hx [Hs0 Hu2]. simpl in Hs0, Hu2.
    pose proof (cell_index_bound w h x y ltac:(lia) ltac:(lia)).
    rewrite index_wrap64 by lia. rewrite pixel_lookup by lia. simpl.
    assert (Hs' : wrap64 (s0 + pixel img w x y) = rowf x y).
    { unfold rowf. rewrite Hs0, wrap64_add_l, <- row_prefix_step by lia. done. }
    rewrite Hs'.
    destruct (updated_write _ _ _ _ _ _ x y (rowf x y) Hu2)
      as (R3 & Hset & Hu3); [lia | lia | done |].
    rewrite Hset. simpl. eexists. split; [done|]. split; simpl.
    + by replace (x + 1 - 1) with x by lia.
    + eapply updated_ext; [|exact Hu3]. intros; simpl; lia.
  - simpl. eexists. split; [done|]. simpl in Hu2.
    eapply updated_ext; [|exact Hu2]. intros; simpl; lia.
Qed.

(** Phase 2 over the columns [a .. b-1], reading complete row sums. *)
Lemma cols_pass R a b T :
  (∀ x y, 0 ≤ x < w → 0 ≤ y < h → cell R w x y = Some (rowf x y)) →
  0 ≤ a → b ≤ w → Z.of_nat (length T) = w * h →
  ∃ T',
    for_loop a b (λ x integral,
      '(_, integral) ← for_loop 0 h (λ y '(s, integral),
        r ← vget R (wrap64 (wrap64 (y * w) + x));
        integral ← vset integral (wrap64 (wrap64 (y * w) + x)) (wrap64 (s + r));
        Some (wrap64 (s + r), integral)) (0, integral);
      Some integral) T = Some T'
    ∧ updated w h (λ x y, a ≤ x < b) satf T T'.
Proof.
  intros HR Ha Hb Hl. destruct (Z.le_gt_cases a b) as [Hab|Hab]; cycle 1.
  { exists T. split; [apply for_loop_skip; lia|]. apply updated_none; [done|]. lia. }
  apply (for_loop_inv (λ x T', updated w h (λ x' y', a ≤ x' < x) satf T T')); [done | |].
  { apply updated_none; [done|]. lia. }
  intros x T1 Hx Hu1.
  edestruct (for_loop_inv (λ y (s : Z * list Z),
      s.1 = wrap64 (sat img w x (y - 1)) ∧
      updated w h (λ x' y', a ≤ x' < x ∨ (x' = x ∧ y' < y)) satf T s.2))
    as ([s T2] & Hrun & Hs & Hu2); [| | | rewrite Hrun].
  - lia.
  - split; simpl; [by rewrite sat_before|].
    eapply updated_ext; [|exact Hu1]. intros; simpl; lia.
  - intros y [s0 T2] Hy [Hs0 Hu2]. simpl in Hs0, Hu2.
    pose proof (cell_index_bound w h x y ltac:(lia) ltac:(lia)).
    rewrite index_wrap64 by lia.
    rewrite (vget_lookup R (y * w + x) (rowf x y)); [|lia|apply HR; lia]. simpl.
    assert (Hs' : wrap64 (s0 + rowf x y) = satf x y).
    { unfold rowf, satf. rewrite Hs0, wrap64_add, <- sat_step by lia. done. }
    rewrite Hs'.
    destruct (updated_write _ _ _ _ _ _ x y (satf x y) Hu2)
      as (T3 & Hset & Hu3); [lia | lia | done |].
    rewrite Hset. simpl. eexists. split; [done|]. split; simpl.
    + by replace (y + 1 - 1) with y by lia.
    + eapply updated_ext; [|exact Hu3]. intros; simpl; lia.
  - simpl. eexists. split; [done|]. simpl in Hu2.
    eapply updated_ext; [|exact Hu2]. intros; simpl; lia.
Qed.

Variable num_threads : Z.
Hypothesis Hnt : 1 ≤ num_threads < 2 ^ 31.

Lemma worker_rows_spec tid R :
  0 ≤ tid < num_threads → Z.of_nat (length R) = w * h →
  ∃ R', worker_rows img w h num_threads tid R = Some R' ∧
        updated w h (λ x y, y / ((h + num_threads - 1) / num_threads) = tid) rowf R R'.
Proof.
  intros Htid Hl. unfold worker_rows.
  destruct (worker_bounds h num_threads tid) as (-> & -> & ->); [nia | done | done |].
  pose proof (block_size_bounds h num_threads ltac:(lia) ltac:(lia)).
  set (per := (h + num_threads - 1) / num_threads) in *.
  destruct (rows_pass (tid * per) (Z.min h (tid * per + per)) R)
    as (R' & Hrun & Hu); [nia | lia | done |].
  exists R'. split; [exact Hrun|].
  eapply updated_ext; [|exact Hu].
  intros x y _ Hy. simpl. apply in_block; lia.
Qed.

Lemma worker_cols_spec R tid T :
  (∀ x y, 0 ≤ x < w → 0 ≤ y < h → cell R w x y = Some (rowf x y)) →
  0 ≤ tid < num_threads → Z.of_nat (length T) = w * h →
  ∃ T', worker_cols R w h num_threads tid T = Some T' ∧
        updated w h (λ x y, x / ((w + num_threads - 1) / num_threads) = tid) satf T T'.
Proof.
  intros HR Htid Hl. unfold worker_cols.
  destruct (worker_bounds w num_threads tid) as (-> & -> & ->); [nia | done | done |].
  pose proof (block_size_bounds w num_threads ltac:(lia) ltac:(lia)).
  set (per := (w + num_threads - 1) / num_threads) in *.
  destruct (cols_pass R (tid * per) (Z.min w (tid * per + per)) T)
    as (T' & Hrun & Hu); [done | nia | lia | done |].
  exists T'. split; [exact Hrun|].
  eapply updated_ext; [|exact Hu].
  intros x y Hx _. simpl. apply in_block; lia.
Qed.
End MultiCorrect.

Lemma spawn_order_complete : complete_schedule spawn_order.
Proof. intros n tid. unfold spawn_order. rewrite elem_of_seqZ. lia. Qed.

Lemma multi_sched_cells img w h buf num_threads sched1 sched2 :
  0 < w → 0 < h → w * h ≤ Z.of_nat (length img) → w * h < 2 ^ 62 →
  is_int num_threads →
  complete_schedule sched1 → complete_schedule sched2 →
  ∃ t, computeIntegralMulti_sched sched1 sched2 img w h buf num_threads = Some t ∧
       Z.of_nat (length t) = w * h ∧
       ∀ x y, 0 ≤ x < w → 0 ≤ y < h → cell t w x y = Some (wrap64 (sat img w x y)).
Proof.
  intros Hw Hh Hlen Hfit Hnt Hs1 Hs2. unfold computeIntegralMulti_sched.
  rewrite !bool_decide_eq_false_2 by lia. simpl.
  set (nt := if bool_decide (num_threads < 1) then 1 else num_threads).
  assert (Hnt' : 1 ≤ nt < 2 ^ 31).
  { unfold nt, is_int in *. case_bool_decide; lia. }
  assert (Hsize : Z.of_nat (length (replicate (Z.to_nat (wrap64 (w * h))) 0)) = w * h).
  { rewrite length_replicate, wrap64_small; lia. }
  destruct (fork_join_updated w h (worker_rows img w h nt)
              (λ x y, y / ((h + nt - 1) / nt))
              (λ x y, wrap64 (row_prefix img w y x)) (sched1 nt)
              (replicate (Z.to_nat (wrap64 (w * h))) 0))
    as (R & HrunR & HuR); [| done |].
  { intros tid t Hin Hl. apply worker_rows_spec; try done. by apply Hs1. }
  rewrite HrunR. simpl.
  assert (HR : ∀ x y, 0 ≤ x < w → 0 ≤ y < h →
                cell R w x y = Some (wrap64 (row_prefix img w y x))).
  { intros x y Hx Hy. destruct HuR as (_ & Hin & _). apply Hin; [done..|].
    apply Hs1. apply block_of_index; lia. }
  destruct (fork_join_updated w h (worker_cols R w h nt)
              (λ x y, x / ((w + nt - 1) / nt))
              (λ x y, wrap64 (sat img w x y)) (sched2 nt)
              (vassign buf (wrap64 (w * h)) 0))
    as (T & HrunT & HuT); [| done |].
  { intros tid t Hin Hl. apply worker_cols_spec; try done. by apply Hs2. }
  exists T. split; [exact HrunT|]. destruct HuT as (HlT & Hin & _).
  split; [done|]. intros x y Hx Hy. apply Hin; [done..|].
  apply Hs2. apply block_of_index; lia.
Qed.

Lemma multi_cells img w h buf num_threads :
  0 < w → 0 < h → w * h ≤ Z.of_nat (length img) → w * h < 2 ^ 62 →
  is_int num_threads →
  ∃ t, computeIntegralMulti img w h buf num_threads = Some t ∧
       Z.of_nat (length t) = w * h ∧
       ∀ x y, 0 ≤ x < w → 0 ≤ y < h → cell t w x y = Some (wrap64 (sat img w x y)).
Proof.
  intros. apply multi_sched_cells; try done; apply spawn_order_complete.
Qed.

Lemma openmp_cells img w h buf num_threads :
  0 < w → 0 < h → w * h ≤ Z.of_nat (length img) → w * h < 2 ^ 62 →
  ∃ t, computeIntegralOpenMP img w h buf num_threads = Some t ∧
       Z.of_nat (length t) = w * h ∧
       ∀ x y, 0 ≤ x < w → 0 ≤ y < h → cell t w x y = Some (wrap64 (sat img w x y)).
Proof.
  intros Hw Hh Hlen Hfit. unfold computeIntegralOpenMP.
  rewrite !bool_decide_eq_false_2 by lia. simpl.
  assert (Hsize : Z.of_nat (length (replicate (Z.to_nat (wrap64 (w * h))) 0)) = w * h).
  { rewrite length_replicate, wrap64_small; lia. }
  assert (Hph : to_ptrdiff h = h) by (unfold to_ptrdiff; rewrite bool_decide_eq_true_2; nia).
  assert (Hpw : to_ptrdiff w = w) by (unfold to_ptrdiff; rewrite bool_decide_eq_true_2; nia).
  rewrite Hph, Hpw.
  destruct (rows_pass img w h) with (a := 0) (b := h)
      (R := replicate (Z.to_nat (wrap64 (w * h))) 0)
    as (R & HrunR & _ & HR & _); try lia; try done.
  erewrite for_loop_ext; [rewrite HrunR|]; cycle 1.
  { intros y s Hy. simpl. rewrite (wrap64_small y) by nia. done. }
  simpl.
  destruct (cols_pass img w h) with (R := R) (a := 0) (b := w)
      (T := vassign buf (wrap64 (w * h)) 0)
    as (T & HrunT & HlT & HT & _); try lia; try done.
  { intros x y Hx Hy. apply HR; lia. }
  erewrite for_loop_ext; [rewrite HrunT|]; cycle 1.
  { intros x s Hx. simpl. rewrite (wrap64_small x) by nia. done. }
  exists T. split; [done|]. split; [done|]. intros x y Hx Hy. apply HT; lia.
Qed.

(** ** The naive builder *)

Section NaiveCorrect.
Variables (img : list Z) (w h : Z).
Hypothesis Hw : 0 < w.
Hypothesis Hh : 0 < h.
Hypothesis Hlen : w * h ≤ Z.of_nat (length img).
Hypothesis Hfit : w * h < 2 ^ 64.

(** The two inner loops: the rectangle from the origin to [(x, y)],
    summed column by column. *)
Lemma naive_cell_sum x y :
  0 ≤ x < w → 0 ≤ y < h →
  for_loop 0 (x + 1) (λ i s,
    for_loop 0 (y + 1) (λ j s,
      px ← vget img (wrap64 (wrap64 (j * w) + i));
      Some (wrap64 (s + px))) s) 0
  = Some (wrap64 (sat img w x y)).
Proof.
  intros Hx Hy.
  edestruct (for_loop_inv (λ i s,
      s = wrap64 (sumZ 0 i (λ i', sumZ 0 (y + 1) (λ j, pixel img w i' j)))))
    as (s & Hrun & ->); [| | | rewrite Hrun].
  - lia.
  - by rewrite sumZ_nil.
  - intros i s Hi ->.
    edestruct (for_loop_inv (λ j s,
        s = wrap64 (sumZ 0 i (λ i', sumZ 0 (y + 1) (λ j, pixel img w i' j))
                    + sumZ 0 j (λ j', pixel img w i j'))))
      as (s & Hrun & ->); [| | | rewrite Hrun].
    + lia.
    + rewrite (sumZ_nil 0 0) by lia. f_equal. lia.
    + intros j s Hj ->.
      pose proof (cell_index_bound w h i j ltac:(lia) ltac:(lia)).
      rewrite index_wrap64 by lia. rewrite pixel_lookup by lia. simpl.
      eexists. split; [done|]. rewrite wrap64_add_l, (sumZ_snoc 0 j) by lia.
      f_equal. lia.
    + eexists. split; [done|]. by rewrite (sumZ_snoc 0 i) by lia.
  - f_equal. f_equal. unfold sat, row_prefix. apply sumZ_swap.
Qed.

Lemma naive_cells buf :
  ∃ t, computeIntegralNaive img w h buf = Some t ∧
       Z.of_nat (length t) = w * h ∧
       ∀ x y, 0 ≤ x < w → 0 ≤ y < h → cell t w x y = Some (wrap64 (sat img w x y)).
Proof.
  unfold computeIntegralNaive. rewrite !bool_decide_eq_false_2 by lia. simpl.
  set (t0 := vassign buf (wrap64 (w * h)) 0).
  set (satf := λ x y, wrap64 (sat img w x y)).
  assert (Hl0 : Z.of_nat (length t0) = w * h).
  { unfold t0, vassign. rewrite length_replicate, wrap64_small; lia. }
  edestruct (for_loop_inv (λ y t, updated w h (λ x' y', y' < y) satf t0 t))
    as (t & Hrun & Hu); [| | | exists t; split; [exact Hrun|]].
  - lia.
  - apply updated_none; [done|]. lia.
  - intros y t1 Hy Hu1. simpl.
    edestruct (for_loop_inv (λ x t,
             updated w h (λ x' y', y' < y ∨ (y' = y ∧ x' < x)) satf t0 t))
      as (t2 & Hrun2 & Hu2); [| | | rewrite Hrun2].
    + lia.
    + eapply updated_ext; [|exact Hu1]. intros; simpl; lia.
    + intros x t2 Hx Hu2. cbv beta. rewrite (naive_cell_sum x y) by lia. simpl.
      pose proof (cell_index_bound w h x y ltac:(lia) ltac:(lia)).
      rewrite index_wrap64 by lia.
      destruct (updated_write _ _ _ _ _ _ x y (wrap64 (sat img w x y)) Hu2)
        as (t3 & Hset & Hu3); [lia | lia | done |].
      rewrite Hset. eexists. split; [done|].
      eapply updated_ext; [|exact Hu3]. intros; simpl; lia.
    + eexists. split; [done|].
      eapply updated_ext; [|exact Hu2]. intros; simpl; lia.
  - destruct Hu as (Hl & Hin & _). split; [done|].
    intros x y Hx Hy. apply Hin; [done..|]. lia.
Qed.
End NaiveCorrect.

(** ** Tables are determined by their cells *)

Lemma table_ext w h (t1 t2 : list Z) :
  0 < w →
  Z.of_nat (length t1) = w * h → Z.of_nat (length t2) = w * h →
  (∀ x y, 0 ≤ x < w → 0 ≤ y < h → cell t1 w x y = cell t2 w x y) →
  t1 = t2.
Proof.
  intros Hw Hl1 Hl2 Hc. apply list_eq. intros i.
  destruct (decide (Z.of_nat i < w * h)) as [Hi|Hi].
  - pose proof (Z.mod_pos_bound (Z.of_nat i) w Hw).
    pose proof (Z.div_mod (Z.of_nat i) w ltac:(lia)).
    assert (0 ≤ Z.of_nat i / w < h).
    { split; [apply Z.div_pos; lia | apply Z.div_lt_upper_bound; lia]. }
    specialize (Hc (Z.of_nat i mod w) (Z.of_nat i / w) ltac:(lia) ltac:(lia)).
    unfold cell in Hc.
    replace (Z.to_nat (Z.of_nat i / w * w + Z.of_nat i mod w)) with i in Hc by lia.
    done.
  - rewrite !(proj2 (lookup_ge_None _ _)) by lia. done.
Qed.

(** ** Grids of unsigned samples: bounds on the exact sums *)

Lemma pixel_nonneg img w x y : Forall is_u32 img → 0 ≤ pixel img w x y.
Proof.
  intros Himg. unfold pixel.
  destruct (img !! Z.to_nat (y * w + x)) as [v|] eqn:Hv; simpl; [|lia].
  by destruct (Forall_lookup_1 _ _ _ _ Himg Hv).
Qed.

Lemma row_prefix_nonneg img w y x : Forall is_u32 img → 0 ≤ row_prefix img w y x.
Proof. intros. apply sumZ_nonneg. intros. by apply pixel_nonneg. Qed.

Lemma sat_nonneg img w x y : Forall is_u32 img → 0 ≤ sat img w x y.
Proof. intros. apply sumZ_nonneg. intros. by apply row_prefix_nonneg. Qed.

Lemma row_prefix_mono img w y x x' :
  Forall is_u32 img → x ≤ x' → row_prefix img w y x ≤ row_prefix img w y x'.
Proof.
  intros. apply sumZ_mono_hi; [|lia]. intros. by apply pixel_nonneg.
Qed.

Lemma sat_mono img w x y x' y' :
  Forall is_u32 img → x ≤ x' → y ≤ y' → sat img w x y ≤ sat img w x' y'.
Proof.
  intros Himg Hx Hy. unfold sat.
  etrans; [apply (sumZ_mono_hi 0 (y + 1) (y' + 1)); [|lia]|].
  - intros. by apply row_prefix_nonneg.
  - apply sumZ_le. intros. by apply row_prefix_mono.
Qed.

Lemma row_prefix_le_sat img w x y :
  Forall is_u32 img → 0 ≤ y → row_prefix img w y x ≤ sat img w x y.
Proof.
  intros. rewrite (sat_step img w x y) by done.
  pose proof (sat_nonneg img w x (y - 1) ltac:(done)). lia.
Qed.

(** *** The sum of all samples *)

Lemma sumZ_shift lo hi d f : sumZ (lo + d) (hi + d) f = sumZ lo hi (λ k, f (k + d)).
Proof.
  unfold sumZ. replace (hi + d - (lo + d)) with (hi - lo) by lia.
  induction (Z.to_nat (hi - lo)) as [|n IH]; simpl; [done|].
  rewrite IH. do 2 f_equal. lia.
Qed.

Lemma sumZ_head hi f : 0 ≤ hi → sumZ 0 (hi + 1) f = f 0 + sumZ 0 hi (λ k, f (k + 1)).
Proof.
  intros. rewrite (sumZ_split 0 1 (hi + 1)) by lia.
  rewrite (sumZ_snoc 0 0), (sumZ_nil 0 0) by lia.
  rewrite <- (sumZ_shift 0 hi 1). simpl. done.
Qed.

Lemma total_sumZ img :
  total img = sumZ 0 (Z.of_nat (length img)) (λ k, default 0 (img !! Z.to_nat k)).
Proof.
  induction img as [|a img IH]; [by rewrite sumZ_nil|].
  replace (Z.of_nat (length (a :: img))) with (Z.of_nat (length img) + 1)
    by (simpl; lia).
  rewrite sumZ_head by lia. simpl. rewrite IH. f_equal.
  apply sumZ_ext. intros k Hk.
  replace (Z.to_nat (k + 1)) with (S (Z.to_nat k)) by lia. done.
Qed.

Lemma sumZ_rows w h g :
  0 ≤ w → 0 ≤ h →
  sumZ 0 (w * h) g = sumZ 0 h (λ y, sumZ 0 w (λ x, g (y * w + x))).
Proof.
  intros Hw. revert h. apply range_ind.
  - replace (w * 0) with 0 by lia. by rewrite !sumZ_nil.
  - intros h Hh IH. rewrite sumZ_snoc by done. rewrite <- IH.
    rewrite (sumZ_split 0 (w * h) (w * (h + 1))) by nia. f_equal.
    replace (w * (h + 1)) with (w + w * h) by lia.
    rewrite <- (Z.add_0_l (w * h)) at 1. rewrite sumZ_shift.
    apply sumZ_ext. intros. f_equal. lia.
Qed.

Lemma sat_total img w h :
  0 < w → 0 < h → Z.of_nat (length img) = w * h →
  sat img w (w - 1) (h - 1) = total img.
Proof.
  intros Hw Hh Hl. rewrite total_sumZ, Hl, sumZ_rows by lia.
  unfold sat, row_prefix, pixel.
  replace (h - 1 + 1) with h by lia. replace (w - 1 + 1) with w by lia. done.
Qed.

Lemma sat_le_total img w h x y :
  Forall is_u32 img → Z.of_nat (length img) = w * h →
  0 ≤ x < w → 0 ≤ y < h → sat img w x y ≤ total img.
Proof.
  intros Himg Hl Hx Hy. rewrite <- (sat_total img w h) by lia.
  apply sat_mono; [done | lia | lia].
Qed.

Lemma total_bound img :
  Forall is_u32 img → 0 ≤ total img ≤ Z.of_nat (length img) * (2 ^ 32 - 1).
Proof.
  induction 1 as [|a img Ha _ IH]; simpl; [lia|].
  unfold is_u32 in Ha. lia.
Qed.

Lemma small_grid_total img w h :
  Forall is_u32 img → Z.of_nat (length img) = w * h → w * h ≤ 2 ^ 32 →
  total img < 2 ^ 64.
Proof. intros Himg Hl Hs. pose proof (total_bound img Himg). nia. Qed.

(** ** The rectangle query *)

Lemma sat_left img w y : sat img w (-1) y = 0.
Proof.
  unfold sat. erewrite sumZ_ext; [apply sumZ_zero|].
  intros. simpl. apply row_prefix_before.
Qed.

Lemma sumZ_from lo hi f :
  0 ≤ lo ≤ hi → sumZ lo hi f = sumZ 0 hi f - sumZ 0 lo f.
Proof. intros. rewrite (sumZ_split 0 lo hi) by lia. lia. Qed.

(** Inclusion and exclusion on the exact sums. *)
Lemma sat_inclusion_exclusion img w x0 y0 x1 y1 :
  0 ≤ x0 ≤ x1 → 0 ≤ y0 ≤ y1 →
  rect_sum img w x0 y0 x1 y1 =
  sat img w x1 y1 - sat img w x1 (y0 - 1) - sat img w (x0 - 1) y1
  + sat img w (x0 - 1) (y0 - 1).
Proof.
  intros Hx Hy. unfold rect_sum.
  erewrite (sumZ_ext y0 (y1 + 1)); cycle 1.
  { intros y _. simpl. apply (sumZ_from x0 (x1 + 1)). lia. }
  rewrite sumZ_minus. rewrite !(sumZ_from y0 (y1 + 1)) by lia.
  unfold sat, row_prefix.
  replace (y0 - 1 + 1) with y0 by lia. replace (x0 - 1 + 1) with x0 by lia. lia.
Qed.

Lemma rect_sum_le_sat img w x0 y0 x1 y1 :
  Forall is_u32 img → 0 ≤ x0 → 0 ≤ y0 →
  0 ≤ rect_sum img w x0 y0 x1 y1 ≤ sat img w x1 y1.
Proof.
  intros Himg Hx Hy. split.
  - apply sumZ_nonneg. intros. apply sumZ_nonneg. intros. by apply pixel_nonneg.
  - unfold rect_sum, sat, row_prefix.
    assert (Hrow : ∀ y, sumZ x0 (x1 + 1) (λ x, pixel img w x y)
                        ≤ sumZ 0 (x1 + 1) (λ x, pixel img w x y)).
    { intros y. destruct (Z.le_gt_cases x0 (x1 + 1)).
      - rewrite (sumZ_split 0 x0 (x1 + 1)) by lia.
        assert (0 ≤ sumZ 0 x0 (λ x, pixel img w x y)); [|lia].
        apply sumZ_nonneg. intros. by apply pixel_nonneg.
      - rewrite (sumZ_nil x0) by lia. apply sumZ_nonneg. intros. by apply pixel_nonneg. }
    destruct (Z.le_gt_cases y0 (y1 + 1)).
    + rewrite (sumZ_split 0 y0 (y1 + 1) (λ j, sumZ 0 (x1 + 1) _)) by lia.
      assert (0 ≤ sumZ 0 y0 (λ j, sumZ 0 (x1 + 1) (λ i, pixel img w i j))).
      { apply sumZ_nonneg. intros. apply sumZ_nonneg. intros. by apply pixel_nonneg. }
      pose proof (sumZ_le y0 (y1 + 1) _ _ (λ y _, Hrow y)). simpl in *. lia.
    + rewrite (sumZ_nil y0) by lia.
      apply sumZ_nonneg. intros. apply sumZ_nonneg. intros. by apply pixel_nonneg.
Qed.

Lemma wrap64_eq_of_diff X Y k : X = Y + k * 2 ^ 64 → wrap64 X = wrap64 Y.
Proof. intros ->. unfold wrap64. apply Z_mod_plus_full. Qed.

Lemma wrap64_decomp z : wrap64 z = z - z / 2 ^ 64 * 2 ^ 64.
Proof. unfold wrap64. rewrite Z.mod_eq by lia. lia. Qed.

(** The [u64] evaluation of [A - B - C + D] on wrapped operands. *)
Lemma wrap64_inclusion_exclusion a b c d :
  wrap64 (wrap64 (wrap64 (wrap64 a - wrap64 b) - wrap64 c) + wrap64 d)
  = wrap64 (a - b - c + d).
Proof.
  pose proof (wrap64_decomp a) as Ha. pose proof (wrap64_decomp b) as Hb.
  pose proof (wrap64_decomp c) as Hc. pose proof (wrap64_decomp d) as Hd.
  pose proof (wrap64_decomp (wrap64 a - wrap64 b)) as H1.
  pose proof (wrap64_decomp (wrap64 (wrap64 a - wrap64 b) - wrap64 c)) as H2.
  apply (wrap64_eq_of_diff _ _
    (- (a / 2 ^ 64) + b / 2 ^ 64 + c / 2 ^ 64 - d / 2 ^ 64
     - (wrap64 a - wrap64 b) / 2 ^ 64
     - (wrap64 (wrap64 a - wrap64 b) - wrap64 c) / 2 ^ 64)).
  lia.
Qed.

Section RectangleQuery.
Variables (img t : list Z) (w h : Z).
Hypothesis Hcells :
  ∀ x y, 0 ≤ x < w → 0 ≤ y < h → cell t w x y = Some (wrap64 (sat img w x y)).
Variables x0 y0 x1 y1 : Z.
Hypothesis Hx : 0 ≤ x0 ≤ x1 ∧ x1 < w.
Hypothesis Hy : 0 ≤ y0 ≤ y1 ∧ y1 < h.

Lemma lookup_above :
  (if bool_decide (0 < y0) then cell t w x1 (y0 - 1) else Some 0)
  = Some (wrap64 (sat img w x1 (y0 - 1))).
Proof.
  case_bool_decide; [apply Hcells; lia|].
  replace y0 with 0 by lia. by rewrite sat_before.
Qed.

Lemma lookup_left :
  (if bool_decide (0 < x0) then cell t w (x0 - 1) y1 else Some 0)
  = Some (wrap64 (sat img w (x0 - 1) y1)).
Proof.
  case_bool_decide; [apply Hcells; lia|].
  replace x0 with 0 by lia. by rewrite sat_left.
Qed.

Lemma lookup_corner :
  (if bool_decide (0 < x0) && bool_decide (0 < y0)
   then cell t w (x0 - 1) (y0 - 1) else Some 0)
  = Some (wrap64 (sat img w (x0 - 1) (y0 - 1))).
Proof.
  repeat case_bool_decide; simpl; [apply Hcells; lia | |  |].
  - replace y0 with 0 by lia. by rewrite sat_before.
  - replace x0 with 0 by lia. by rewrite sat_left.
  - replace x0 with 0 by lia. by rewrite sat_left.
Qed.

Lemma inclusion_exclusion_wrap :
  inclusion_exclusion t w x0 y0 x1 y1 = Some (wrap64 (rect_sum img w x0 y0 x1 y1)).
Proof.
  unfold inclusion_exclusion.
  rewrite lookup_above, lookup_left, lookup_corner, Hcells by lia. simpl.
  by rewrite wrap64_inclusion_exclusion, <- sat_inclusion_exclusion by lia.
Qed.
End RectangleQuery.

(** *** The lambda of the test: [unsigned] index arithmetic *)

Lemma index_wrap32 w h x y :
  0 ≤ x < w → 0 ≤ y < h → w * h ≤ 2 ^ 32 →
  wrap32 (wrap32 (wrap32 y * w) + wrap32 x) = y * w + x.
Proof.
  intros Hx Hy Hs. pose proof (cell_index_bound w h x y Hx Hy).
  rewrite (wrap32_small y), (wrap32_small x) by nia.
  rewrite (wrap32_small (y * w)) by nia. apply wrap32_small. lia.
Qed.

Section RectLambda.
Variables (img t : list Z) (w h : Z).
Hypothesis Hcells :
  ∀ x y, 0 ≤ x < w → 0 ≤ y < h → cell t w x y = Some (wrap64 (sat img w x y)).
Hypothesis Hlen : w * h ≤ Z.of_nat (length img).
Hypothesis Hsmall : w * h ≤ 2 ^ 32.
Hypothesis Hint : w < 2 ^ 31 ∧ h < 2 ^ 31.
Variables x0 y0 x1 y1 : Z.
Hypothesis Hx : 0 ≤ x0 ≤ x1 ∧ x1 < w.
Hypothesis Hy : 0 ≤ y0 ≤ y1 ∧ y1 < h.

Lemma rect_lookup x y :
  0 ≤ x < w → 0 ≤ y < h →
  vget t (wrap32 (wrap32 (wrap32 y * w) + wrap32 x)) = cell t w x y.
Proof.
  intros. rewrite (index_wrap32 w h) by done.
  unfold vget, cell. rewrite decide_True; [done | nia].
Qed.

Lemma incr_int_small x : x + 1 < 2 ^ 31 → incr_int x = Some (x + 1).
Proof. intros. unfold incr_int. by rewrite bool_decide_eq_true_2. Qed.

Lemma rect_sref :
  for_loop y0 (y1 + 1) (λ y sref,
    sref ← for_loop x0 (x1 + 1) (λ x sref,
              px ← vget img (wrap32 (wrap32 (wrap32 y * w) + wrap32 x));
              _ ← incr_int x;
              Some (wrap64 (sref + px))) sref;
    _ ← incr_int y;
    Some sref) 0
  = Some (wrap64 (rect_sum img w x0 y0 x1 y1)).
Proof.
  edestruct (for_loop_inv (λ y s,
      s = wrap64 (sumZ y0 y (λ y', sumZ x0 (x1 + 1) (λ x, pixel img w x y')))))
    as (s & Hrun & ->); [| | | rewrite Hrun; done].
  - lia.
  - by rewrite sumZ_nil.
  - intros y s Hyr ->.
    edestruct (for_loop_inv (λ x s,
        s = wrap64 (sumZ y0 y (λ y', sumZ x0 (x1 + 1) (λ x, pixel img w x y'))
                    + sumZ x0 x (λ x', pixel img w x' y))))
      as (s & Hrun & ->); [| | | rewrite Hrun].
    + lia.
    + rewrite (sumZ_nil x0 x0) by lia. f_equal. lia.
    + intros x s Hxr ->.
      pose proof (cell_index_bound w h x y ltac:(lia) ltac:(lia)).
      rewrite (index_wrap32 w h) by lia. rewrite pixel_lookup by lia. simpl.
      rewrite incr_int_small by lia. simpl.
      eexists. split; [done|]. rewrite wrap64_add_l, (sumZ_snoc x0 x) by lia.
      f_equal. lia.
    + simpl. rewrite incr_int_small by lia. simpl.
      eexists. split; [done|]. by rewrite (sumZ_snoc y0 y) by lia.
Qed.

Lemma rect_wrap :
  rect t img w x0 y0 x1 y1
  = Some (wrap64 (rect_sum img w x0 y0 x1 y1), wrap64 (rect_sum img w x0 y0 x1 y1)).
Proof.
  pose proof (inclusion_exclusion_wrap img t w h Hcells x0 y0 x1 y1 Hx Hy) as Hq.
  unfold inclusion_exclusion in Hq. unfold rect. cbv zeta.
  assert (0 ≤ w * h) by nia.
  rewrite (bool_decide_eq_true_2 (_ ∧ _)) by lia.
  rewrite (rect_lookup x1 y1) by lia.
  destruct (bool_decide_reflect (0 < y0)), (bool_decide_reflect (0 < x0));
    simpl in *;
    rewrite ?(rect_lookup x1 (y0 - 1)), ?(rect_lookup (x0 - 1) y1),
      ?(rect_lookup (x0 - 1) (y0 - 1)) by lia;
    (destruct (cell t w x1 y1) as [A|]; simpl in *; [|done]);
    repeat match goal with
           | |- context [cell t w ?a ?b] => destruct (cell t w a b); simpl in *; [|done]
           end;
    rewrite rect_sref; simpl; congruence.
Qed.
End RectLambda.

(** ** The comparison of two tables *)

Lemma equalIntegral_loop_spec (a b : list Z) (n i : nat) :
  (i + n)%nat = length a → length a = length b →
  equalIntegral_loop n (Z.of_nat i) a b = Some (bool_decide (drop i a = drop i b)).
Proof.
  revert i. induction n as [|n IH]; intros i Hi Hl.
  - simpl. rewrite !drop_ge by lia. by rewrite bool_decide_eq_true_2.
  - destruct (lookup_lt_is_Some_2 a i) as [x Hx]; [lia|].
    destruct (lookup_lt_is_Some_2 b i) as [y Hy]; [lia|].
    simpl. rewrite (vget_lookup a (Z.of_nat i) x), (vget_lookup b (Z.of_nat i) y);
      [| lia | by rewrite Nat2Z.id | lia | by rewrite Nat2Z.id].
    simpl. rewrite (drop_S a x i Hx), (drop_S b y i Hy).
    case_bool_decide as Hxy.
    + rewrite bool_decide_eq_false_2; [done|]. intros Heq. by injection Heq.
    + replace (Z.of_nat i + 1) with (Z.of_nat (S i)) by lia.
      rewrite IH by lia. assert (x = y) as -> by (destruct (decide (x = y)); tauto).
      apply f_equal, bool_decide_ext. split; [by intros -> | by intros [= ->]].
Qed.

Lemma equalIntegral_spec (a b : list Z) :
  equalIntegral a b = Some (bool_decide (a = b)).
Proof.
  unfold equalIntegral. case_bool_decide as Hl.
  - rewrite bool_decide_eq_false_2; [done|]. by intros ->.
  - assert (length a = length b) by (destruct (decide (length a = length b)); tauto).
    apply (equalIntegral_loop_spec a b (length a) 0); [lia | done].
Qed.

(** [a = b] spelled out: the same size and the same element at every index. *)
Lemma tables_equal_iff (a b : list Z) :
  a = b ↔ length a = length b ∧ ∀ i, (i < length a)%nat → a !! i = b !! i.
Proof.
  split; [by intros ->|]. intros [Hl Hi]. apply list_eq. intros i.
  destruct (decide (i < length a)%nat); [by apply Hi|].
  rewrite !(proj2 (lookup_ge_None _ _)) by lia. done.
Qed.

(** ** The harness *)

Section HarnessFacts.
Variable single : list Z → Z → Z → list Z → option (list Z).
Variable multi : list Z → Z → Z → list Z → Z → option (list Z).
Variable openmp : option (list Z → Z → Z → list Z → Z → option (list Z)).
Variable randImage : Z → Z → Z → list Z.
Variables stoul stoi : string → option Z.
Variable hardware_concurrency : Z.

Let run := main single multi openmp randImage stoul stoi hardware_concurrency.

Lemma main_mismatch argv o I_single I_multi :
  parse_args stoul stoi argv (defaults hardware_concurrency) = Parsed o →
  opt_w o ≠ 0 → opt_h o ≠ 0 →
  single (randImage (opt_w o) (opt_h o) (opt_seed o)) (opt_w o) (opt_h o) []
    = Some I_single →
  multi (randImage (opt_w o) (opt_h o) (opt_seed o)) (opt_w o) (opt_h o) []
    (if bool_decide (opt_threads o ≤ 0) then 1 else opt_threads o) = Some I_multi →
  I_single ≠ I_multi →
  ∃ banner, run argv = (Exit 2, [banner; Differ "multi"]).
Proof.
  intros Hp Hw Hh Hs Hm Hne. unfold run, main. rewrite Hp.
  rewrite !bool_decide_eq_false_2 by done. simpl. rewrite Hs, Hm.
  rewrite equalIntegral_spec, bool_decide_eq_false_2 by done.
  eexists. reflexivity.
Qed.

Lemma bench_only_bench name runs f buf buf' lines :
  bench name runs f buf = Some (buf', lines) → Forall is_bench lines.
Proof.
  unfold bench. destruct (for_loop _ _ _ _); simpl; [|done].
  intros [= _ <-]. by repeat constructor.
Qed.

Lemma guarded_bench (c : bool) name runs f buf buf' lines :
  (if c then bench name runs f buf else Some (buf, [])) = Some (buf', lines) →
  Forall is_bench lines.
Proof.
  destruct c; [apply bench_only_bench | intros [= _ <-]; constructor].
Qed.

Lemma benchmarks_only_bench method runs img w h threads I_single I_multi lines :
  benchmarks single multi openmp method runs img w h threads I_single I_multi
    = Some lines →
  Forall is_bench lines.
Proof.
  unfold benchmarks. intros Hb.
  destruct (if _ || _ then bench "Single" _ _ _ else _) as [[b1 l1]|] eqn:H1;
    simpl in Hb; [|done].
  destruct (if _ || _ then bench "Multi" _ _ _ else _) as [[b2 l2]|] eqn:H2;
    simpl in Hb; [|done].
  destruct (match openmp with Some _ => _ | None => _ end) as [[b3 l3]|] eqn:H3;
    simpl in Hb; [|done].
  injection Hb as <-. repeat apply Forall_app_2.
  - eapply guarded_bench; exact H1.
  - eapply guarded_bench; exact H2.
  - revert H3. destruct openmp as [backend|]; intros H3.
    + eapply guarded_bench; exact H3.
    + injection H3 as _ <-. constructor.
Qed.

Lemma main_exit_status argv code log :
  run argv = (Exit code, log) →
  (code = 2 ∧ Exists is_differ log ∧ Forall (λ e, ¬ is_bench e) log) ∨
  (code = 0 ∧ Forall (λ e, ¬ is_differ e) log).
Proof.
  unfold run, main. intros Hrun.
  destruct (parse_args _ _ _ _) as [o| |]; [|injection Hrun as <- <-|done].
  2:{ right. split; [done|]. repeat constructor. simpl. tauto. }
  destruct (_ || _); [done|].
  destruct (single _ _ _ _) as [I_single|]; [|done].
  destruct (multi _ _ _ _ _) as [I_multi|]; [|done].
  destruct (equalIntegral I_single I_multi) as [[|]|]; [| |done].
  - destruct (check_openmp _ _ _ _ _ _ _ _) as [[[|] I_multi']|]; [| |done].
    + destruct (benchmarks _ _ _ _ _ _ _ _ _ _ _) as [lines|] eqn:Hb; [|done].
      injection Hrun as <- <-. right. split; [done|].
      simpl. apply Forall_cons_2; [simpl; tauto|].
      eapply Forall_impl; [by eapply benchmarks_only_bench|].
      intros [] ?; simpl in *; tauto.
    + injection Hrun as <- <-. left. split; [done|]. split.
      * simpl. apply Exists_cons_tl, Exists_cons_hd. exact I.
      * repeat constructor; simpl; tauto.
  - injection Hrun as <- <-. left. split; [done|]. split.
    + simpl. apply Exists_cons_tl, Exists_cons_hd. exact I.
    + repeat constructor; simpl; tauto.
Qed.
End HarnessFacts.

(** ** A single row of equal samples *)

Lemma constant_row_pixel n c x :
  0 ≤ x < n → pixel (replicate (Z.to_nat n) c) n x 0 = c.
Proof.
  intros. unfold pixel. rewrite lookup_replicate_2 by lia. done.
Qed.

Lemma constant_row_sat n c x :
  0 ≤ x < n → sat (replicate (Z.to_nat n) c) n x 0 = (x + 1) * c.
Proof.
  intros. unfold sat, row_prefix.
  rewrite (sumZ_snoc 0 0), (sumZ_nil 0 0) by lia.
  rewrite (sumZ_ext 0 (x + 1) _ (λ _, c)).
  - rewrite sumZ_const by lia. lia.
  - intros i Hi. apply constant_row_pixel. lia.
Qed.

Lemma total_replicate k c : total (replicate k c) = Z.of_nat k * c.
Proof. induction k as [|k IH]; [done|]. unfold total in *. simpl. rewrite IH. lia. Qed.

Lemma constant_row_total n c :
  0 ≤ n → total (replicate (Z.to_nat n) c) = n * c.
Proof. intros. rewrite total_replicate, Z2Nat.id by lia. done. Qed.

Lemma constant_row_grid n c :
  1 ≤ n → 4 * n < 2 ^ 64 → is_u32 c → grid (replicate (Z.to_nat n) c) n 1.
Proof.
  intros Hn Hfit Hc. unfold grid, vec_u32, is_u64.
  rewrite length_replicate.
  split; [lia|]. split; [lia|]. split; [|lia].
  split; [by apply Forall_replicate | lia].
Qed.

Lemma constant_row_table n c buf :
  1 ≤ n < 2 ^ 62 →
  ∃ t, computeIntegralSingle (replicate (Z.to_nat n) c) n 1 buf = Some t ∧
       ∀ x, 0 ≤ x < n → cell t n x 0 = Some (wrap64 ((x + 1) * c)).
Proof.
  intros Hn.
  destruct (single_cells (replicate (Z.to_nat n) c) n 1 buf) as (t & Hrun & _ & Hc).
  - lia.
  - lia.
  - rewrite length_replicate. lia.
  - lia.
  - exists t. split; [exact Hrun|]. intros x Hx.
    rewrite Hc by lia. by rewrite constant_row_sat.
Qed.

(** The wide row: the running sum passes [2^64] at its last sample. *)
Lemma wide_row_grid : grid wide_row wide_w 1.
Proof. apply constant_row_grid; unfold wide_w, is_u32; lia. Qed.

Lemma wide_row_table :
  ∃ t, computeIntegralSingle wide_row wide_w 1 [] = Some t ∧
       (∀ x, 0 ≤ x < wide_w →
             cell t wide_w x 0 = Some (wrap64 ((x + 1) * (2 ^ 32 - 1)))) ∧
       cell t wide_w (2 ^ 32) 0 = Some (2 ^ 64 - 1) ∧
       cell t wide_w (2 ^ 32 + 1) 0 = Some (2 ^ 32 - 2).
Proof.
  destruct (constant_row_table wide_w (2 ^ 32 - 1) []) as (t & Hrun & Hc).
  { unfold wide_w. lia. }
  exists t. split; [exact Hrun|]. split; [exact Hc|]. split.
  - etrans; [apply (Hc (2 ^ 32)); unfold wide_w; lia | reflexivity].
  - etrans; [apply (Hc (2 ^ 32 + 1)); unfold wide_w; lia | reflexivity].
Qed.

Lemma wide_row_sat : sat wide_row wide_w (2 ^ 32 + 1) 0 = 2 ^ 64 + 2 ^ 32 - 2.
Proof.
  unfold wide_row. rewrite constant_row_sat by (unfold wide_w; lia). reflexivity.
Qed.

Lemma wide_row_total : total wide_row = 2 ^ 64 + 2 ^ 32 - 2.
Proof.
  unfold wide_row. rewrite constant_row_total by (unfold wide_w; lia). reflexivity.
Qed.

(** The rectangle from the origin to the last sample of the wide row. *)
Lemma constant_row_query n c x t :
  1 ≤ n → 0 ≤ x < n →
  (∀ x, 0 ≤ x < n → cell t n x 0 = Some (wrap64 ((x + 1) * c))) →
  inclusion_exclusion t n 0 0 x 0 = Some (wrap64 ((x + 1) * c)) ∧
  rect_sum (replicate (Z.to_nat n) c) n 0 0 x 0 = (x + 1) * c.
Proof.
  intros Hn Hx Hc.
  assert (Hrs : rect_sum (replicate (Z.to_nat n) c) n 0 0 x 0 = (x + 1) * c).
  { rewrite <- (constant_row_sat n c x) by done. reflexivity. }
  split; [|done].
  rewrite (inclusion_exclusion_wrap (replicate (Z.to_nat n) c) t n 1); [by rewrite Hrs | | lia | lia].
  intros x' y' Hx' Hy'. replace y' with 0 by lia.
  rewrite Hc by done. by rewrite constant_row_sat.
Qed.

Lemma wide_row_query t :
  (∀ x, 0 ≤ x < wide_w → cell t wide_w x 0 = Some (wrap64 ((x + 1) * (2 ^ 32 - 1)))) →
  inclusion_exclusion t wide_w 0 0 (2 ^ 32 + 1) 0 = Some (2 ^ 32 - 2) ∧
  rect_sum wide_row wide_w 0 0 (2 ^ 32 + 1) 0 = 2 ^ 64 + 2 ^ 32 - 2.
Proof.
  intros Hc.
  destruct (constant_row_query wide_w (2 ^ 32 - 1) (2 ^ 32 + 1) t) as [Hq Hrs];
    [unfold wide_w; lia | unfold wide_w; lia | exact Hc |].
  split.
  - etrans; [exact Hq | reflexivity].
  - etrans; [exact Hrs | reflexivity].
Qed.

(** ** Grids *)

Lemma grid_nonempty_bounds img w h :
  grid img w h → 1 ≤ w → 1 ≤ h →
  w * h ≤ Z.of_nat (length img) ∧ w * h < 2 ^ 62 ∧ Forall is_u32 img.
Proof. intros (Hw & Hh & (Himg & Hfit) & Hl) ? ?. repeat split; [lia | lia | done]. Qed.

Lemma grid_empty_or_not img w h :
  grid img w h → (w = 0 ∨ h = 0) ∨ (1 ≤ w ∧ 1 ≤ h).
Proof. intros ([? ?] & [? ?] & _). lia. Qed.

(** Concrete grids. *)
Ltac solve_grid :=
  unfold grid, vec_u32, is_u64, is_u32, is_int; simpl;
  repeat split; try lia; repeat constructor; lia.

Lemma single_empty img w h buf :
  w = 0 ∨ h = 0 → computeIntegralSingle img w h buf = Some [].
Proof.
  intros Hz. unfold computeIntegralSingle, computeIntegralSingle_with.
  destruct Hz as [-> | ->]; [done|]. by rewrite orb_true_r.
Qed.

Lemma multi_sched_empty sched1 sched2 img w h buf num_threads :
  w = 0 ∨ h = 0 →
  computeIntegralMulti_sched sched1 sched2 img w h buf num_threads = Some [].
Proof.
  intros Hz. unfold computeIntegralMulti_sched.
  destruct Hz as [-> | ->]; [done|]. by rewrite orb_true_r.
Qed.

Lemma multi_empty img w h buf num_threads :
  w = 0 ∨ h = 0 → computeIntegralMulti img w h buf num_threads = Some [].
Proof.
  intros Hz. unfold computeIntegralMulti, computeIntegralMulti_sched.
  destruct Hz as [-> | ->]; [done|]. by rewrite orb_true_r.
Qed.

Lemma naive_empty img w h buf :
  w = 0 ∨ h = 0 → computeIntegralNaive img w h buf = Some [].
Proof.
  intros Hz. unfold computeIntegralNaive.
  destruct Hz as [-> | ->]; [done|]. by rewrite orb_true_r.
Qed.

(** Below [2^64] the hardware adder and the carry-checking adder build the
    same table, and it holds the exact sums. *)
Lemma single_no_carry img w h buf :
  grid img w h → 1 ≤ w → 1 ≤ h → total img < 2 ^ 64 →
  ∃ t, computeIntegralSingle img w h buf = Some t ∧
       computeIntegralSingle_with add_u64_carry img w h buf = Some t ∧
       Z.of_nat (length t) = w * h ∧
       ∀ x y, 0 ≤ x < w → 0 ≤ y < h → cell t w x y = Some (sat img w x y).
Proof.
  intros Hg Hw Hh Htot.
  destruct (grid_nonempty_bounds img w h Hg Hw Hh) as (Hlen & Hfit & Himg).
  assert (Hl : Z.of_nat (length img) = w * h) by apply Hg.
  destruct (single_with_cells add_u64_carry (λ z, z) (λ s, s < 2 ^ 64))
    with (img := img) (w := w) (h := h) (buf := buf) as (t & Hrun & Hlt & Hc);
    try lia.
  - intros a b Hab. unfold add_u64_carry. by rewrite decide_True.
  - intros a b Hab. unfold add_u64_carry. by rewrite decide_True.
  - intros x y Hx Hy.
    pose proof (row_prefix_le_sat img w x y Himg ltac:(lia)).
    pose proof (sat_le_total img w h x y Himg Hl Hx Hy). lia.
  - intros x y Hx Hy. pose proof (sat_le_total img w h x y Himg Hl Hx Hy). lia.
  - destruct (single_cells img w h buf) as (t' & Hrun' & Hlt' & Hc'); try lia.
    assert (t' = t) as ->.
    { apply (table_ext w h); [lia | done | done |]. intros x y Hx Hy.
      rewrite Hc, Hc' by done. f_equal. apply wrap64_small.
      pose proof (sat_nonneg img w x y Himg).
      pose proof (sat_le_total img w h x y Himg Hl Hx Hy). lia. }
    exists t. done.
Qed.

Lemma openmp_empty img w h buf num_threads :
  w = 0 ∨ h = 0 → computeIntegralOpenMP img w h buf num_threads = Some [].
Proof.
  intros Hz. unfold computeIntegralOpenMP.
  destruct Hz as [-> | ->]; [done|]. by rewrite orb_true_r.
Qed.

(** On a grid the two parallel builders return the sequential table. *)
Lemma parallel_matches_single img w h buf buf' num_threads :
  grid img w h → is_int num_threads →
  ∃ t, computeIntegralSingle img w h buf = Some t ∧
       computeIntegralMulti img w h buf' num_threads = Some t ∧
       computeIntegralOpenMP img w h buf' num_threads = Some t.
Proof.
  intros Hg Hnt. destruct (grid_empty_or_not img w h Hg) as [Hz | [Hw Hh]].
  { exists []. by rewrite single_empty, multi_empty, openmp_empty. }
  destruct (grid_nonempty_bounds img w h Hg Hw Hh) as (Hlen & Hfit & Himg).
  destruct (single_cells img w h buf) as (t & Hrun & Hl & Hc); try lia.
  destruct (multi_cells img w h buf' num_threads) as (t1 & Hrun1 & Hl1 & Hc1);
    try lia; [done|].
  destruct (openmp_cells img w h buf' num_threads) as (t2 & Hrun2 & Hl2 & Hc2);
    try lia.
  exists t. split; [done|]. rewrite Hrun1, Hrun2.
  split; f_equal; apply (table_ext w h); try lia; try done;
    intros x y Hx Hy; by rewrite Hc, ?Hc1, ?Hc2.
Qed.

(** The harness built from the builders of this file never reports a
    difference: on a grid its exit status is 0. *)
Lemma main_never_reports (with_openmp : bool) randImage stoul stoi
    hardware_concurrency argv o code log :
  parse_args stoul stoi argv (defaults hardware_concurrency) = Parsed o →
  grid (randImage (opt_w o) (opt_h o) (opt_seed o)) (opt_w o) (opt_h o) →
  is_int (opt_threads o) →
  main computeIntegralSingle computeIntegralMulti
       (if with_openmp then Some computeIntegralOpenMP else None)
       randImage stoul stoi hardware_concurrency argv = (Exit code, log) →
  code = 0.
Proof.
  intros Hp Hg Hint. unfold main. rewrite Hp.
  destruct (_ || _); [done|].
  set (threads := if bool_decide (opt_threads o ≤ 0) then 1 else opt_threads o).
  assert (Hthreads : is_int threads).
  { unfold threads, is_int in *. case_bool_decide; lia. }
  destruct (parallel_matches_single _ _ _ [] [] threads Hg Hthreads)
    as (t & Hs & Hm & _).
  rewrite Hs, Hm, equalIntegral_spec, bool_decide_eq_true_2 by done.
  assert (Hcheck : ∃ I, check_openmp
            (if with_openmp then Some computeIntegralOpenMP else None)
            (opt_method o) (randImage (opt_w o) (opt_h o) (opt_seed o))
            (opt_w o) (opt_h o) threads t t = Some (true, I)).
  { unfold check_openmp. destruct with_openmp; [|by eexists].
    case_bool_decide; [|by eexists].
    destruct (parallel_matches_single _ _ _ [] t threads Hg Hthreads)
      as (t' & Hs' & _ & ->).
    assert (t' = t) as -> by congruence.
    simpl. rewrite equalIntegral_spec, bool_decide_eq_true_2 by done.
    by eexists. }
  destruct Hcheck as (I & ->).
  destruct (benchmarks _ _ _ _ _ _ _ _ _ _ _); by intros [= <- <-].
Qed.

(** ** The assertions of [tests/test_integral.cpp] *)

(** [test_small_known]. *)
Lemma test_small_known_passes :
  ∃ A, computeIntegralSingle [1;2;3;4;5;6;7;8;9] 3 3 [] = Some A ∧
       computeIntegralMulti [1;2;3;4;5;6;7;8;9] 3 3 [] 2 = Some A ∧
       computeIntegralNaive [1;2;3;4;5;6;7;8;9] 3 3 [] = Some A.
Proof. exists [1;3;6;5;12;21;12;27;45]. repeat split; vm_compute; reflexivity. Qed.

(** [test_random_compare(w, h, seed)], whatever samples the generator
    draws. *)
Lemma test_random_compare_passes img w h :
  grid img w h →
  ∃ A, computeIntegralSingle img w h [] = Some A ∧
       computeIntegralMulti img w h [] 4 = Some A.
Proof.
  intros Hg. destruct (parallel_matches_single img w h [] [] 4 Hg) as (A & ? & ? & _).
  - unfold is_int. lia.
  - by exists A.
Qed.

(** [test_rect_sum_property]: on a 10x10 grid, whatever its samples and
    whatever rectangle is drawn, [p.first == p.second]. *)
Lemma test_rect_sum_property_passes img x0 y0 x1 y1 :
  grid img 10 10 → 0 ≤ x0 ≤ x1 ∧ x1 < 10 → 0 ≤ y0 ≤ y1 ∧ y1 < 10 →
  ∃ I p, computeIntegralSingle img 10 10 [] = Some I ∧
         rect I img 10 x0 y0 x1 y1 = Some p ∧ p.1 = p.2.
Proof.
  intros Hg Hx Hy.
  destruct (grid_nonempty_bounds img 10 10 Hg) as (Hlen & Hfit & Himg); [lia | lia |].
  destruct (single_cells img 10 10 []) as (I & Hrun & _ & Hc); try lia.
  exists I, (wrap64 (rect_sum img 10 x0 y0 x1 y1), wrap64 (rect_sum img 10 x0 y0 x1 y1)).
  split; [done|]. split; [|done].
  apply (rect_wrap img I 10 10); try done; lia.
Qed.

(** * The claims *)

(** C1 (as amended).  For every grid with [w ≥ 1], [h ≥ 1] and
    [img.size() == w*h], [computeIntegralSingle] produces a table of [w*h]
    elements whose entry at index [y*w+x] is the sum of [img[j*w+i]] over
    [0 ≤ i ≤ x], [0 ≤ j ≤ y] reduced modulo [2^64]; it is that sum itself
    whenever the sum is below [2^64]. *)
Theorem single_table_sums img w h buf :
  grid img w h → 1 ≤ w → 1 ≤ h →
  ∃ t, computeIntegralSingle img w h buf = Some t ∧
       Z.of_nat (length t) = w * h ∧
       ∀ x y, 0 ≤ x < w → 0 ≤ y < h →
         cell t w x y = Some (wrap64 (sat img w x y)) ∧
         (sat img w x y < 2 ^ 64 → cell t w x y = Some (sat img w x y)).
Proof.
  intros Hg Hw Hh.
  destruct (grid_nonempty_bounds img w h Hg Hw Hh) as (Hlen & Hfit & Himg).
  destruct (single_cells img w h buf) as (t & Hrun & Hl & Hc); try lia.
  exists t. split; [done|]. split; [done|]. intros x y Hx Hy.
  split; [by apply Hc|]. intros Hlt. rewrite Hc by done. f_equal.
  apply wrap64_small. pose proof (sat_nonneg img w x y Himg). lia.
Qed.

(** The 3x3 grid of [test_small_known], at the cell [(2, 1)]. *)
Lemma single_table_sums_witness :
  ∃ t, computeIntegralSingle [1;2;3;4;5;6;7;8;9] 3 3 [] = Some t ∧
       Z.of_nat (length t) = 3 * 3 ∧
       cell t 3 2 1 = Some (wrap64 (sat [1;2;3;4;5;6;7;8;9] 3 2 1)) ∧
       cell t 3 2 1 = Some (sat [1;2;3;4;5;6;7;8;9] 3 2 1).
Proof.
  destruct (single_table_sums [1;2;3;4;5;6;7;8;9] 3 3 []) as (t & Hrun & Hl & Hc);
    [solve_grid | lia | lia |].
  destruct (Hc 2 1) as [Hwrap Hexact]; [lia | lia |].
  exists t. split; [exact Hrun|]. split; [exact Hl|]. split; [exact Hwrap|].
  apply Hexact. vm_compute. reflexivity.
Defined.

(** C1 as stated fails: on the wide row the last entry of the table is
    [2^32 - 2], the sum it stands for is [2^64 + 2^32 - 2]. *)
Lemma single_table_sum_wraps :
  grid wide_row wide_w 1 ∧ 1 ≤ wide_w ∧
  ∃ t, computeIntegralSingle wide_row wide_w 1 [] = Some t ∧
       cell t wide_w (2 ^ 32 + 1) 0 = Some (2 ^ 32 - 2) ∧
       sat wide_row wide_w (2 ^ 32 + 1) 0 = 2 ^ 64 + 2 ^ 32 - 2 ∧
       cell t wide_w (2 ^ 32 + 1) 0 ≠ Some (sat wide_row wide_w (2 ^ 32 + 1) 0).
Proof.
  split; [apply wide_row_grid|]. split; [unfold wide_w; lia|].
  destruct wide_row_table as (t & Hrun & _ & _ & Hlast).
  exists t. split; [exact Hrun|]. split; [exact Hlast|]. split; [apply wide_row_sat|].
  rewrite Hlast, wide_row_sat. intros [=].
Qed.

(** C2.  For every grid and every worker count, [computeIntegralMulti]
    produces the table [computeIntegralSingle] produces; so does every run
    of its two phases in which the workers take effect in another order. *)
Theorem multi_equals_single img w h buf buf' num_threads :
  grid img w h → is_int num_threads →
  ∃ t, computeIntegralSingle img w h buf = Some t ∧
       computeIntegralMulti img w h buf' num_threads = Some t ∧
       ∀ sched1 sched2, complete_schedule sched1 → complete_schedule sched2 →
         computeIntegralMulti_sched sched1 sched2 img w h buf' num_threads = Some t.
Proof.
  intros Hg Hnt.
  enough (∃ t, computeIntegralSingle img w h buf = Some t ∧
            ∀ sched1 sched2, complete_schedule sched1 → complete_schedule sched2 →
              computeIntegralMulti_sched sched1 sched2 img w h buf' num_threads = Some t)
    as (t & Hs & Hm).
  { exists t. split; [done|]. split; [|done].
    apply Hm; apply spawn_order_complete. }
  destruct (grid_empty_or_not img w h Hg) as [Hz | [Hw Hh]].
  { exists []. rewrite single_empty by done. split; [done|]. intros.
    by apply multi_sched_empty. }
  destruct (grid_nonempty_bounds img w h Hg Hw Hh) as (Hlen & Hfit & Himg).
  destruct (single_cells img w h buf) as (t & Hrun & Hl & Hc); try lia.
  exists t. split; [done|]. intros sched1 sched2 Hs1 Hs2.
  destruct (multi_sched_cells img w h buf' num_threads sched1 sched2)
    as (t' & Hrun' & Hl' & Hc'); try lia; try done.
  rewrite Hrun'. f_equal.
  apply (table_ext w h); [lia | done | done |]. intros x y Hx Hy.
  by rewrite Hc, Hc'.
Qed.

(** The 3x3 grid of [test_small_known] with two workers, in spawn order
    and with the last worker of phase 1 first. *)
Lemma multi_equals_single_witness :
  ∃ t, computeIntegralSingle [1;2;3;4;5;6;7;8;9] 3 3 [] = Some t ∧
       computeIntegralMulti [1;2;3;4;5;6;7;8;9] 3 3 [] 2 = Some t ∧
       computeIntegralMulti_sched (λ n, reverse (seqZ 0 n)) spawn_order
         [1;2;3;4;5;6;7;8;9] 3 3 [] 2 = Some t.
Proof.
  destruct (multi_equals_single [1;2;3;4;5;6;7;8;9] 3 3 [] [] 2)
    as (t & Hs & Hm & Hany); [solve_grid | solve_grid |].
  exists t. split; [exact Hs|]. split; [exact Hm|].
  apply Hany; [|apply spawn_order_complete].
  intros n tid. rewrite elem_of_reverse, elem_of_seqZ. lia.
Defined.

(** C3.  For every grid, [computeIntegralNaive] produces the table
    [computeIntegralSingle] produces. *)
Theorem naive_equals_single img w h buf buf' :
  grid img w h →
  ∃ t, computeIntegralSingle img w h buf = Some t ∧
       computeIntegralNaive img w h buf' = Some t.
Proof.
  intros Hg. destruct (grid_empty_or_not img w h Hg) as [Hz | [Hw Hh]].
  { exists []. by rewrite single_empty, naive_empty. }
  destruct (grid_nonempty_bounds img w h Hg Hw Hh) as (Hlen & Hfit & Himg).
  destruct (single_cells img w h buf) as (t & Hrun & Hl & Hc); try lia.
  destruct (naive_cells img w h) with (buf := buf') as (t' & Hrun' & Hl' & Hc'); try lia.
  exists t. split; [done|]. rewrite Hrun'. f_equal.
  apply (table_ext w h); [lia | done | done |]. intros x y Hx Hy.
  by rewrite Hc, Hc'.
Qed.

(** The 3x3 grid of [test_small_known]. *)
Lemma naive_equals_single_witness :
  ∃ t, computeIntegralSingle [1;2;3;4;5;6;7;8;9] 3 3 [] = Some t ∧
       computeIntegralNaive [1;2;3;4;5;6;7;8;9] 3 3 [] = Some t.
Proof. apply naive_equals_single; solve_grid. Defined.

(** C4 (as amended).  For every grid, its table as built by
    [computeIntegralSingle] and every inclusive rectangle inside the grid,
    the inclusion-exclusion value [A - B - C + D] of the four lookups,
    evaluated in [u64], is the sum of the samples of the rectangle reduced
    modulo [2^64]; it is that sum itself whenever the sum is below
    [2^64]. *)
Theorem rectangle_query_sums img w h buf x0 y0 x1 y1 :
  grid img w h → 0 ≤ x0 ≤ x1 ∧ x1 < w → 0 ≤ y0 ≤ y1 ∧ y1 < h →
  ∃ t, computeIntegralSingle img w h buf = Some t ∧
       inclusion_exclusion t w x0 y0 x1 y1 = Some (wrap64 (rect_sum img w x0 y0 x1 y1)) ∧
       (rect_sum img w x0 y0 x1 y1 < 2 ^ 64 →
        inclusion_exclusion t w x0 y0 x1 y1 = Some (rect_sum img w x0 y0 x1 y1)).
Proof.
  intros Hg Hx Hy.
  destruct (grid_nonempty_bounds img w h Hg) as (Hlen & Hfit & Himg); [lia | lia |].
  destruct (single_cells img w h buf) as (t & Hrun & _ & Hc); try lia.
  assert (Hq : inclusion_exclusion t w x0 y0 x1 y1
               = Some (wrap64 (rect_sum img w x0 y0 x1 y1)))
    by (by apply (inclusion_exclusion_wrap img t w h)).
  exists t. split; [done|]. split; [done|].
  intros Hlt. rewrite Hq. f_equal. apply wrap64_small. split; [|done].
  unfold rect_sum. apply sumZ_nonneg. intros y _. apply sumZ_nonneg. intros x _.
  by apply pixel_nonneg.
Qed.

(** The rectangle [(1,1)-(2,2)] of the 3x3 grid. *)
Lemma rectangle_query_sums_witness :
  ∃ t, computeIntegralSingle [1;2;3;4;5;6;7;8;9] 3 3 [] = Some t ∧
       inclusion_exclusion t 3 1 1 2 2 = Some (rect_sum [1;2;3;4;5;6;7;8;9] 3 1 1 2 2).
Proof.
  destruct (rectangle_query_sums [1;2;3;4;5;6;7;8;9] 3 3 [] 1 1 2 2)
    as (t & Hrun & _ & Hexact); [solve_grid | lia | lia |].
  exists t. split; [exact Hrun|]. apply Hexact. vm_compute. reflexivity.
Defined.

(** C4 as stated fails: on the wide row the rectangle from the origin to
    the last sample has the inclusion-exclusion value [2^32 - 2], the
    samples in it sum to [2^64 + 2^32 - 2]. *)
Lemma rectangle_query_wraps :
  grid wide_row wide_w 1 ∧
  ∃ t, computeIntegralSingle wide_row wide_w 1 [] = Some t ∧
       inclusion_exclusion t wide_w 0 0 (2 ^ 32 + 1) 0 = Some (2 ^ 32 - 2) ∧
       rect_sum wide_row wide_w 0 0 (2 ^ 32 + 1) 0 = 2 ^ 64 + 2 ^ 32 - 2.
Proof.
  split; [apply wide_row_grid|].
  destruct wide_row_table as (t & Hrun & Hc & _ & _).
  exists t. split; [exact Hrun|]. by apply wide_row_query.
Qed.

(** C5.  For every grid of [u32] samples: when [w*h ≤ 2^32] the total of
    the samples is below [2^64]; and when the total is below [2^64], no
    addition of [computeIntegralSingle] carries out of 64 bits (the run
    with the carry-checking adder completes, with the same table) and
    every entry of the table is the exact sum it stands for. *)
Theorem sums_exact_below_2_64 img w h buf :
  grid img w h →
  (w * h ≤ 2 ^ 32 → total img < 2 ^ 64) ∧
  (total img < 2 ^ 64 →
   ∃ t, computeIntegralSingle img w h buf = Some t ∧
        computeIntegralSingle_with add_u64_carry img w h buf = Some t ∧
        ∀ x y, 0 ≤ x < w → 0 ≤ y < h → cell t w x y = Some (sat img w x y)).
Proof.
  intros Hg. split.
  - intros Hs. apply (small_grid_total img w h); [apply Hg | apply Hg | done].
  - intros Htot. destruct (grid_empty_or_not img w h Hg) as [Hz | [Hw Hh]].
    + exists []. rewrite single_empty by done. split; [done|]. split.
      * apply (single_empty img w h buf) in Hz as Hrun.
        unfold computeIntegralSingle_with in *.
        destruct Hz as [-> | ->]; [done|]. by rewrite orb_true_r.
      * intros; lia.
    + destruct (single_no_carry img w h buf Hg Hw Hh Htot) as (t & ? & ? & _ & ?).
      by exists t.
Qed.

(** The 3x3 grid: nine cells, total 45. *)
Lemma sums_exact_below_2_64_witness :
  total [1;2;3;4;5;6;7;8;9] < 2 ^ 64 ∧
  ∃ t, computeIntegralSingle [1;2;3;4;5;6;7;8;9] 3 3 [] = Some t ∧
       computeIntegralSingle_with add_u64_carry [1;2;3;4;5;6;7;8;9] 3 3 [] = Some t ∧
       ∀ x y, 0 ≤ x < 3 → 0 ≤ y < 3 →
              cell t 3 x y = Some (sat [1;2;3;4;5;6;7;8;9] 3 x y).
Proof.
  assert (Hg : grid [1;2;3;4;5;6;7;8;9] 3 3) by solve_grid.
  split.
  - apply (proj1 (sums_exact_below_2_64 _ 3 3 [] Hg)). lia.
  - apply (proj2 (sums_exact_below_2_64 _ 3 3 [] Hg)). vm_compute. reflexivity.
Defined.

(** C6 (as amended).  For every grid whose samples total less than [2^64],
    the table of [computeIntegralSingle] is non-decreasing along each row
    and along each column, and for a non-empty grid its last entry is the
    sum of all samples. *)
Theorem table_monotone img w h buf :
  grid img w h → total img < 2 ^ 64 →
  ∃ t, computeIntegralSingle img w h buf = Some t ∧
       (∀ x y, 0 ≤ x < w - 1 → 0 ≤ y < h →
          ∃ a b, cell t w x y = Some a ∧ cell t w (x + 1) y = Some b ∧ a ≤ b) ∧
       (∀ x y, 0 ≤ x < w → 0 ≤ y < h - 1 →
          ∃ a b, cell t w x y = Some a ∧ cell t w x (y + 1) = Some b ∧ a ≤ b) ∧
       (1 ≤ w → 1 ≤ h → cell t w (w - 1) (h - 1) = Some (total img)).
Proof.
  intros Hg Htot. destruct (grid_empty_or_not img w h Hg) as [Hz | [Hw Hh]].
  { exists []. rewrite single_empty by done. repeat split; intros; lia. }
  destruct (grid_nonempty_bounds img w h Hg Hw Hh) as (Hlen & Hfit & Himg).
  assert (Hl : Z.of_nat (length img) = w * h) by apply Hg.
  destruct (single_no_carry img w h buf Hg Hw Hh Htot) as (t & Hrun & _ & _ & Hc).
  exists t. split; [done|]. repeat split.
  - intros x y Hx Hy. exists (sat img w x y), (sat img w (x + 1) y).
    rewrite !Hc by lia. repeat split. apply sat_mono; [done | lia | lia].
  - intros x y Hx Hy. exists (sat img w x y), (sat img w x (y + 1)).
    rewrite !Hc by lia. repeat split. apply sat_mono; [done | lia | lia].
  - intros _ _. rewrite Hc by lia. f_equal. apply (sat_total img w h); [lia | lia | done].
Qed.

(** The 3x3 grid: one step along a row, one along a column, the last entry. *)
Lemma table_monotone_witness :
  ∃ t, computeIntegralSingle [1;2;3;4;5;6;7;8;9] 3 3 [] = Some t ∧
       (∃ a b, cell t 3 1 2 = Some a ∧ cell t 3 (1 + 1) 2 = Some b ∧ a ≤ b) ∧
       (∃ a b, cell t 3 2 0 = Some a ∧ cell t 3 2 (0 + 1) = Some b ∧ a ≤ b) ∧
       cell t 3 (3 - 1) (3 - 1) = Some (total [1;2;3;4;5;6;7;8;9]).
Proof.
  destruct (table_monotone [1;2;3;4;5;6;7;8;9] 3 3 [])
    as (t & Hrun & Hrow & Hcol & Hlast); [solve_grid | vm_compute; reflexivity |].
  exists t. split; [exact Hrun|]. split; [apply Hrow; lia|].
  split; [apply Hcol; lia|]. apply Hlast; lia.
Defined.

(** C6 as stated fails: along the wide row the table drops from [2^64 - 1]
    to [2^32 - 2] at its last entry, and that last entry is not the sum of
    all samples, [2^64 + 2^32 - 2]. *)
Lemma table_not_monotone :
  grid wide_row wide_w 1 ∧
  ∃ t a b, computeIntegralSingle wide_row wide_w 1 [] = Some t ∧
           cell t wide_w (2 ^ 32) 0 = Some a ∧
           cell t wide_w (2 ^ 32 + 1) 0 = Some b ∧ b < a ∧
           cell t wide_w (wide_w - 1) (1 - 1) = Some b ∧ b ≠ total wide_row.
Proof.
  split; [apply wide_row_grid|].
  destruct wide_row_table as (t & Hrun & _ & Hprev & Hlast).
  exists t, (2 ^ 64 - 1), (2 ^ 32 - 2).
  split; [exact Hrun|]. split; [exact Hprev|]. split; [exact Hlast|].
  split; [lia|]. split.
  - replace (wide_w - 1) with (2 ^ 32 + 1) by reflexivity.
    replace (1 - 1) with 0 by reflexivity. exact Hlast.
  - rewrite wide_row_total. lia.
Qed.

(** C7.  When [w == 0] or [h == 0], whatever [img] and the output buffer
    hold, each of the three builders returns normally with an empty
    table. *)
Theorem degenerate_dimensions img w h buf num_threads :
  w = 0 ∨ h = 0 →
  computeIntegralSingle img w h buf = Some [] ∧
  computeIntegralMulti img w h buf num_threads = Some [] ∧
  computeIntegralNaive img w h buf = Some [].
Proof.
  intros Hz. by rewrite single_empty, multi_empty, naive_empty.
Qed.

(** Width 0, with a non-empty image and a non-empty output buffer. *)
Lemma degenerate_dimensions_witness :
  computeIntegralSingle [1;2] 0 3 [5;6;7] = Some [] ∧
  computeIntegralMulti [1;2] 0 3 [5;6;7] 4 = Some [] ∧
  computeIntegralNaive [1;2] 0 3 [5;6;7] = Some [].
Proof. apply degenerate_dimensions. left. reflexivity. Defined.

(** C8.  A worker count below 1 is clamped to 1: [computeIntegralMulti]
    does what it does for [num_threads == 1], and on a grid it returns the
    table of [computeIntegralSingle]. *)
Theorem worker_count_clamped img w h buf num_threads :
  num_threads < 1 →
  computeIntegralMulti img w h buf num_threads = computeIntegralMulti img w h buf 1 ∧
  (grid img w h →
   ∃ t, computeIntegralMulti img w h buf num_threads = Some t ∧
        computeIntegralSingle img w h buf = Some t).
Proof.
  intros Hnt.
  assert (Heq : computeIntegralMulti img w h buf num_threads
                = computeIntegralMulti img w h buf 1).
  { unfold computeIntegralMulti, computeIntegralMulti_sched.
    destruct (bool_decide (w = 0) || bool_decide (h = 0)); [done|].
    rewrite (bool_decide_eq_true_2 (num_threads < 1)) by done.
    rewrite (bool_decide_eq_false_2 (1 < 1)) by lia. done. }
  split; [done|]. intros Hg. rewrite Heq.
  destruct (parallel_matches_single img w h buf buf 1 Hg) as (t & Hs & Hm & _).
  { unfold is_int. lia. }
  by exists t.
Qed.

(** Worker count [-2] on the 3x3 grid. *)
Lemma worker_count_clamped_witness :
  computeIntegralMulti [1;2;3;4;5;6;7;8;9] 3 3 [] (-2)
  = computeIntegralMulti [1;2;3;4;5;6;7;8;9] 3 3 [] 1 ∧
  ∃ t, computeIntegralMulti [1;2;3;4;5;6;7;8;9] 3 3 [] (-2) = Some t ∧
       computeIntegralSingle [1;2;3;4;5;6;7;8;9] 3 3 [] = Some t.
Proof.
  destruct (worker_count_clamped [1;2;3;4;5;6;7;8;9] 3 3 [] (-2)) as [Heq Hgrid];
    [lia|].
  split; [exact Heq|]. apply Hgrid. solve_grid.
Defined.

(** C9.  [equalIntegral] returns, and returns [true] exactly when the two
    tables have the same size and agree at every index.  When the tables
    [main] gets from the sequential and from the parallel builder differ,
    [main] exits with status 2 right after the error message, before any
    benchmark; every other exit of [main] has status 0, and status 2 is
    only ever returned after a reported difference and without a
    benchmark having run. *)
Theorem mismatch_is_fatal :
  (∀ a b : list Z, ∃ r,
     equalIntegral a b = Some r ∧
     (r = true ↔ length a = length b ∧ ∀ i, (i < length a)%nat → a !! i = b !! i)) ∧
  (∀ single multi openmp randImage stoul stoi hardware_concurrency argv o
     I_single I_multi,
     parse_args stoul stoi argv (defaults hardware_concurrency) = Parsed o →
     opt_w o ≠ 0 → opt_h o ≠ 0 →
     single (randImage (opt_w o) (opt_h o) (opt_seed o)) (opt_w o) (opt_h o) []
       = Some I_single →
     multi (randImage (opt_w o) (opt_h o) (opt_seed o)) (opt_w o) (opt_h o) []
       (if bool_decide (opt_threads o ≤ 0) then 1 else opt_threads o) = Some I_multi →
     I_single ≠ I_multi →
     ∃ banner,
       main single multi openmp randImage stoul stoi hardware_concurrency argv
       = (Exit 2, [banner; Differ "multi"])) ∧
  (∀ single multi openmp randImage stoul stoi hardware_concurrency argv code log,
     main single multi openmp randImage stoul stoi hardware_concurrency argv
       = (Exit code, log) →
     (code = 2 ∧ Exists is_differ log ∧ Forall (λ e, ¬ is_bench e) log) ∨
     (code = 0 ∧ Forall (λ e, ¬ is_differ e) log)).
Proof.
  split; [|split].
  - intros a b. exists (bool_decide (a = b)). split; [apply equalIntegral_spec|].
    rewrite bool_decide_eq_true. apply tables_equal_iff.
  - intros. by eapply main_mismatch.
  - intros. by eapply main_exit_status.
Qed.

(** A harness whose parallel builder is broken (it returns an empty
    table), run on [--width 2 --height 2]. *)
Lemma mismatch_is_fatal_witness :
  ∃ banner,
    main computeIntegralSingle (λ _ _ _ _ _, Some []) None
         (λ w h _, replicate (Z.to_nat (w * h)) 1) (λ _, Some 2) (λ _, Some 1) 4
         ["--width"; "2"; "--height"; "2"]%string
    = (Exit 2, [banner; Differ "multi"]) ∧
    Exists is_differ [banner; Differ "multi"] ∧
    Forall (λ e, ¬ is_bench e) [banner; Differ "multi"].
Proof.
  destruct (proj1 (proj2 mismatch_is_fatal)
              computeIntegralSingle (λ _ _ _ _ _, Some []) None
              (λ w h _, replicate (Z.to_nat (w * h)) 1) (λ _, Some 2) (λ _, Some 1) 4
              ["--width"; "2"; "--height"; "2"]%string
              (Options 2 2 4 5 1337 "both") [1; 2; 2; 4] [])
    as (banner & Hrun).
  - reflexivity.
  - simpl. lia.
  - simpl. lia.
  - vm_compute. reflexivity.
  - reflexivity.
  - discriminate.
  - exists banner. split; [exact Hrun|].
    destruct (proj2 (proj2 mismatch_is_fatal) _ _ _ _ _ _ _ _ _ _ Hrun)
      as [(_ & Hd & Hb) | (Hcode & _)]; [by split | discriminate Hcode].
Defined.

(** C10.  When [img] holds at least [w*h] samples, the three builders
    return: no read of the grid, and no read or write of the row-sum
    table and of the output table, leaves its vector.  The builders do not
    check [img.size()]: on an image that is too short each of them reads
    outside it. *)
Theorem accesses_in_bounds img w h buf num_threads :
  is_u64 w → is_u64 h → vec_u32 img → w * h ≤ Z.of_nat (length img) →
  is_int num_threads →
  (is_Some (computeIntegralSingle img w h buf) ∧
   is_Some (computeIntegralMulti img w h buf num_threads) ∧
   is_Some (computeIntegralNaive img w h buf)) ∧
  (computeIntegralSingle [] 1 1 buf = None ∧
   computeIntegralMulti [] 1 1 buf num_threads = None ∧
   computeIntegralNaive [] 1 1 buf = None).
Proof.
  intros Hw Hh [Himg Hfit] Hlen Hnt. split.
  - destruct (decide (w = 0 ∨ h = 0)) as [Hz|Hnz].
    { rewrite single_empty, multi_empty, naive_empty by done. by repeat split. }
    unfold is_u64 in *.
    destruct (single_cells img w h buf) as (t1 & -> & _); try lia.
    destruct (multi_cells img w h buf num_threads) as (t2 & -> & _); try lia; [done|].
    destruct (naive_cells img w h) with (buf := buf) as (t3 & -> & _); try lia.
    by repeat split.
  - split; [|split].
    + reflexivity.
    + unfold computeIntegralMulti, computeIntegralMulti_sched. simpl.
      unfold is_int in Hnt.
      set (nt := if bool_decide (num_threads < 1) then 1 else num_threads).
      assert (1 ≤ nt < 2 ^ 31) as Hnt' by (unfold nt; case_bool_decide; lia).
      unfold spawn_order.
      rewrite (seqZ_cons 0 nt) by lia. simpl.
      assert (worker_rows [] 1 1 nt 0 [0] = None) as ->; [|done].
      unfold worker_rows.
      destruct (worker_bounds 1 nt 0) as (-> & -> & ->); [lia | lia | lia |].
      pose proof (block_size_bounds 1 nt ltac:(lia) ltac:(lia)).
      replace ((1 + nt - 1) / nt) with 1 by lia. reflexivity.
    + reflexivity.
Qed.

(** A 2x3 grid in an image of seven samples. *)
Lemma accesses_in_bounds_witness :
  (is_Some (computeIntegralSingle [1;2;3;4;5;6;7] 2 3 []) ∧
   is_Some (computeIntegralMulti [1;2;3;4;5;6;7] 2 3 [] 2) ∧
   is_Some (computeIntegralNaive [1;2;3;4;5;6;7] 2 3 [])) ∧
  (computeIntegralSingle [] 1 1 [] = None ∧
   computeIntegralMulti [] 1 1 [] 2 = None ∧
   computeIntegralNaive [] 1 1 [] = None).
Proof. apply accesses_in_bounds; solve_grid. Defined.

(** * Further properties of the code *)

(** ** The workers of [computeIntegralMulti] *)

Lemma worker_block_eq n num_threads tid :
  1 ≤ n < 2 ^ 62 → 1 ≤ num_threads < 2 ^ 31 → 0 ≤ tid < num_threads →
  worker_block n num_threads tid
  = (tid * ((n + num_threads - 1) / num_threads),
     Z.min n (tid * ((n + num_threads - 1) / num_threads)
              + (n + num_threads - 1) / num_threads)).
Proof.
  intros Hn Hnt Htid. unfold worker_block.
  destruct (worker_bounds n num_threads tid) as (-> & -> & ->); done.
Qed.

(** X1.  The blocks of the workers [0 .. num_threads-1] partition the
    indices [0 .. n-1]: every index lies in the block of exactly one
    worker, and no block holds more than [ceil(n / num_threads)]
    indices. *)
Theorem worker_blocks_partition n num_threads :
  1 ≤ n < 2 ^ 62 → 1 ≤ num_threads < 2 ^ 31 →
  (∀ i, 0 ≤ i < n →
     ∃ tid, 0 ≤ tid < num_threads ∧
            (worker_block n num_threads tid).1 ≤ i < (worker_block n num_threads tid).2 ∧
            ∀ tid', 0 ≤ tid' < num_threads →
              (worker_block n num_threads tid').1 ≤ i < (worker_block n num_threads tid').2 →
              tid' = tid) ∧
  (∀ tid, 0 ≤ tid < num_threads →
     (worker_block n num_threads tid).2 - (worker_block n num_threads tid).1
     ≤ (n + num_threads - 1) / num_threads).
Proof.
  intros Hn Hnt.
  pose proof (block_size_bounds n num_threads ltac:(lia) ltac:(lia)) as Hper.
  split.
  - intros i Hi. exists (i / ((n + num_threads - 1) / num_threads)).
    pose proof (block_of_index n num_threads i ltac:(lia) Hi) as Htid.
    split; [done|]. split.
    + rewrite worker_block_eq by done. simpl. apply in_block; [lia | done | done].
    + intros tid' Htid'. rewrite worker_block_eq by done. simpl. intros Hb.
      apply in_block in Hb; [done | lia | done].
  - intros tid Htid. rewrite worker_block_eq by done. simpl. lia.
Qed.

(** Ten rows among four workers: row 7 belongs to worker 2 only. *)
Lemma worker_blocks_partition_witness :
  ∃ tid, 0 ≤ tid < 4 ∧
         (worker_block 10 4 tid).1 ≤ 7 < (worker_block 10 4 tid).2 ∧
         ∀ tid', 0 ≤ tid' < 4 →
           (worker_block 10 4 tid').1 ≤ 7 < (worker_block 10 4 tid').2 → tid' = tid.
Proof.
  apply (proj1 (worker_blocks_partition 10 4 ltac:(lia) ltac:(lia))). lia.
Defined.

(** X2.  A worker of phase 1 writes the rows of its block and nothing
    else: whatever [rowCum] held, it returns with the running sums of the
    rows of its block in place and every other cell as it was. *)
Theorem worker_rows_footprint img w h num_threads tid rowCum :
  1 ≤ w → 1 ≤ h → w * h ≤ Z.of_nat (length img) → w * h < 2 ^ 62 →
  1 ≤ num_threads < 2 ^ 31 → 0 ≤ tid < num_threads →
  Z.of_nat (length rowCum) = w * h →
  ∃ rowCum',
    worker_rows img w h num_threads tid rowCum = Some rowCum' ∧
    length rowCum' = length rowCum ∧
    ∀ x y, 0 ≤ x < w → 0 ≤ y < h →
      cell rowCum' w x y =
      if bool_decide ((worker_block h num_threads tid).1 ≤ y
                      < (worker_block h num_threads tid).2)
      then Some (wrap64 (row_prefix img w y x))
      else cell rowCum w x y.
Proof.
  intros Hw Hh Hlen Hfit Hnt Htid Hl.
  destruct (worker_rows_spec img w h) with (num_threads := num_threads)
    (tid := tid) (R := rowCum) as (R' & Hrun & Hl' & Hin & Hout); try lia.
  exists R'. split; [done|]. split; [lia|]. intros x y Hx Hy.
  rewrite worker_block_eq by lia. simpl.
  pose proof (block_size_bounds h num_threads ltac:(lia) ltac:(lia)).
  pose proof (in_block h ((h + num_threads - 1) / num_threads) tid y
                ltac:(lia) Hy) as Hblock.
  case_bool_decide as Hb.
  - apply Hin; [done | done |]. by apply Hblock.
  - apply Hout; [done | done |]. intros Hd. apply Hb. by apply Hblock.
Qed.

(** The second of two workers on the 3x3 grid: row 2 is its block (two
    rows per worker), the rows 0 and 1 keep their sevens. *)
Lemma worker_rows_footprint_witness :
  ∃ rowCum',
    worker_rows [1;2;3;4;5;6;7;8;9] 3 3 2 1 [7;7;7;7;7;7;7;7;7] = Some rowCum' ∧
    length rowCum' = 9%nat ∧
    cell rowCum' 3 1 2 = Some (wrap64 (row_prefix [1;2;3;4;5;6;7;8;9] 3 2 1)) ∧
    cell rowCum' 3 1 0 = Some 7.
Proof.
  destruct (worker_rows_footprint [1;2;3;4;5;6;7;8;9] 3 3 2 1 [7;7;7;7;7;7;7;7;7])
    as (R' & Hrun & Hl & Hc); try (simpl; lia).
  exists R'. split; [exact Hrun|]. split; [exact Hl|]. split.
  - exact (Hc 1 2 ltac:(lia) ltac:(lia)).
  - exact (Hc 1 0 ltac:(lia) ltac:(lia)).
Defined.

(** Phase 2 over the columns [a .. b-1] of any intermediate table. *)
Lemma cols_pass_any w h R a b T :
  0 < w → 0 < h → w * h < 2 ^ 64 →
  Z.of_nat (length R) = w * h → Z.of_nat (length T) = w * h →
  0 ≤ a → b ≤ w →
  ∃ T',
    for_loop a b (λ x integral,
      '(_, integral) ← for_loop 0 h (λ y '(s, integral),
        r ← vget R (wrap64 (wrap64 (y * w) + x));
        integral ← vset integral (wrap64 (wrap64 (y * w) + x)) (wrap64 (s + r));
        Some (wrap64 (s + r), integral)) (0, integral);
      Some integral) T = Some T'
    ∧ updated w h (λ x y, a ≤ x < b) (λ x y, wrap64 (col_prefix R w x y)) T T'.
Proof.
  intros Hw Hh Hfit HlR Hl Ha Hb.
  set (colf := λ x y, wrap64 (col_prefix R w x y)).
  destruct (Z.le_gt_cases a b) as [Hab|Hab]; cycle 1.
  { exists T. split; [apply for_loop_skip; lia|]. apply updated_none; [done|]. lia. }
  apply (for_loop_inv (λ x T', updated w h (λ x' y', a ≤ x' < x) colf T T')); [done | |].
  { apply updated_none; [done|]. lia. }
  intros x T1 Hx Hu1.
  edestruct (for_loop_inv (λ y (s : Z * list Z),
      s.1 = wrap64 (col_prefix R w x (y - 1)) ∧
      updated w h (λ x' y', a ≤ x' < x ∨ (x' = x ∧ y' < y)) colf T s.2))
    as ([s T2] & Hrun & Hs & Hu2); [| | | rewrite Hrun].
  - lia.
  - split; simpl; [unfold col_prefix; by rewrite sumZ_nil|].
    eapply updated_ext; [|exact Hu1]. intros; simpl; lia.
  - intros y [s0 T2] Hy [Hs0 Hu2]. simpl in Hs0, Hu2.
    pose proof (cell_index_bound w h x y ltac:(lia) ltac:(lia)).
    rewrite index_wrap64 by lia. rewrite pixel_lookup by lia. simpl.
    assert (Hs' : wrap64 (s0 + pixel R w x y) = colf x y).
    { unfold colf, col_prefix. rewrite Hs0, wrap64_add_l. unfold col_prefix.
      rewrite (sumZ_snoc 0 y) by lia. by replace (y - 1 + 1) with y by lia. }
    rewrite Hs'.
    destruct (updated_write _ _ _ _ _ _ x y (colf x y) Hu2)
      as (T3 & Hset & Hu3); [lia | lia | done |].
    rewrite Hset. simpl. eexists. split; [done|]. split; simpl.
    + by replace (y + 1 - 1) with y by lia.
    + eapply updated_ext; [|exact Hu3]. intros; simpl; lia.
  - simpl. eexists. split; [done|]. simpl in Hu2.
    eapply updated_ext; [|exact Hu2]. intros; simpl; lia.
Qed.

(** X3.  A worker of phase 2 writes the columns of its block and nothing
    else: whatever the intermediate table [rowCum] and the output table
    held, it returns with the running sums down the columns of its block
    of [rowCum] in place and every other cell of the output as it was. *)
Theorem worker_cols_footprint rowCum w h num_threads tid integral :
  1 ≤ w → 1 ≤ h → w * h < 2 ^ 62 →
  1 ≤ num_threads < 2 ^ 31 → 0 ≤ tid < num_threads →
  Z.of_nat (length rowCum) = w * h → Z.of_nat (length integral) = w * h →
  ∃ integral',
    worker_cols rowCum w h num_threads tid integral = Some integral' ∧
    length integral' = length integral ∧
    ∀ x y, 0 ≤ x < w → 0 ≤ y < h →
      cell integral' w x y =
      if bool_decide ((worker_block w num_threads tid).1 ≤ x
                      < (worker_block w num_threads tid).2)
      then Some (wrap64 (col_prefix rowCum w x y))
      else cell integral w x y.
Proof.
  intros Hw Hh Hfit Hnt Htid HlR Hl.
  pose proof (block_size_bounds w num_threads ltac:(lia) ltac:(lia)) as Hper.
  assert (Hrun : ∃ T', worker_cols rowCum w h num_threads tid integral = Some T' ∧
            updated w h (λ x y, (worker_block w num_threads tid).1 ≤ x
                                < (worker_block w num_threads tid).2)
              (λ x y, wrap64 (col_prefix rowCum w x y)) integral T').
  { rewrite worker_block_eq by lia. simpl. unfold worker_cols.
    destruct (worker_bounds w num_threads tid) as (-> & -> & ->); [nia | done | done |].
    apply cols_pass_any; try lia; nia. }
  destruct Hrun as (T' & Hrun & Hl' & Hin & Hout).
  exists T'. split; [done|]. split; [lia|]. intros x y Hx Hy.
  case_bool_decide as Hb; [by apply Hin | by apply Hout].
Qed.

(** The first of two workers on a 3x3 table: the columns 0 and 1 are its
    block, column 2 keeps its sevens. *)
Lemma worker_cols_footprint_witness :
  ∃ integral',
    worker_cols [1;3;6;4;9;15;7;15;24] 3 3 2 0 [7;7;7;7;7;7;7;7;7] = Some integral' ∧
    length integral' = 9%nat ∧
    cell integral' 3 1 2 = Some (wrap64 (col_prefix [1;3;6;4;9;15;7;15;24] 3 1 2)) ∧
    cell integral' 3 2 2 = Some 7.
Proof.
  destruct (worker_cols_footprint [1;3;6;4;9;15;7;15;24] 3 3 2 0 [7;7;7;7;7;7;7;7;7])
    as (T' & Hrun & Hl & Hc); try (simpl; lia).
  exists T'. split; [exact Hrun|]. split; [exact Hl|]. split.
  - exact (Hc 1 2 ltac:(lia) ltac:(lia)).
  - exact (Hc 2 2 ltac:(lia) ltac:(lia)).
Defined.

(** A worker of phase 2 in terms of the owner of a column. *)
Lemma worker_cols_owner R w h num_threads tid T :
  1 ≤ w → 1 ≤ h → w * h < 2 ^ 62 →
  1 ≤ num_threads < 2 ^ 31 → 0 ≤ tid < num_threads →
  Z.of_nat (length R) = w * h → Z.of_nat (length T) = w * h →
  ∃ T', worker_cols R w h num_threads tid T = Some T' ∧
        updated w h (λ x y, x / ((w + num_threads - 1) / num_threads) = tid)
          (λ x y, wrap64 (col_prefix R w x y)) T T'.
Proof.
  intros Hw Hh Hfit Hnt Htid HlR Hl. unfold worker_cols.
  destruct (worker_bounds w num_threads tid) as (-> & -> & ->); [nia | done | done |].
  pose proof (block_size_bounds w num_threads ltac:(lia) ltac:(lia)).
  set (per := (w + num_threads - 1) / num_threads) in *.
  destruct (cols_pass_any w h R (tid * per) (Z.min w (tid * per + per)) T)
    as (T' & Hrun & Hu); try lia; try nia.
  exists T'. split; [exact Hrun|].
  eapply updated_ext; [|exact Hu].
  intros x y Hx _. simpl. apply in_block; lia.
Qed.

(** The column sums of the row sums are the sums over the rectangles
    anchored at the origin. *)
Lemma col_prefix_of_rows img R w h x y :
  0 < w → 0 ≤ x < w → 0 ≤ y < h →
  Z.of_nat (length R) = w * h →
  (∀ x y, 0 ≤ x < w → 0 ≤ y < h → cell R w x y = Some (wrap64 (row_prefix img w y x))) →
  wrap64 (col_prefix R w x y) = wrap64 (sat img w x y).
Proof.
  intros Hw Hx Hy Hl HR. unfold col_prefix, sat.
  assert (Hind : ∀ n, 0 ≤ n → n ≤ y + 1 →
            wrap64 (sumZ 0 n (λ j, pixel R w x j))
            = wrap64 (sumZ 0 n (λ j, row_prefix img w j x))).
  { apply (range_ind (λ n, n ≤ y + 1 →
      wrap64 (sumZ 0 n (λ j, pixel R w x j))
      = wrap64 (sumZ 0 n (λ j, row_prefix img w j x))) 0).
    - intros _. by rewrite !sumZ_nil.
    - intros n Hn IH Hle. rewrite !(sumZ_snoc 0 n) by lia.
      rewrite <- wrap64_add_l, IH, wrap64_add_l by lia.
      assert (Hp : pixel R w x n = wrap64 (row_prefix img w n x)).
      { unfold pixel. specialize (HR x n ltac:(lia) ltac:(lia)).
        unfold cell in HR. by rewrite HR. }
      rewrite Hp. by rewrite wrap64_add_r. }
  apply Hind; lia.
Qed.

(** X4.  The two joins of [computeIntegralMulti].  Whatever order the
    workers take effect in, and whatever the tables held before: after the
    join of phase 1 every cell of the intermediate table holds the running
    sum of its row; after the join of phase 2 every cell of the output
    holds the running sum down its column of the table phase 2 reads;
    phase 2 run on the result of phase 1 leaves the sums over the
    rectangles anchored at the origin (all of them modulo [2^64]). *)
Theorem phases_join img w h num_threads sched rowCum integral :
  1 ≤ w → 1 ≤ h → w * h ≤ Z.of_nat (length img) → w * h < 2 ^ 62 →
  1 ≤ num_threads < 2 ^ 31 → complete_schedule sched →
  Z.of_nat (length rowCum) = w * h → Z.of_nat (length integral) = w * h →
  (∃ R, fork_join (sched num_threads) (worker_rows img w h num_threads) rowCum = Some R ∧
        Z.of_nat (length R) = w * h ∧
        ∀ x y, 0 ≤ x < w → 0 ≤ y < h →
          cell R w x y = Some (wrap64 (row_prefix img w y x))) ∧
  (∃ T, fork_join (sched num_threads) (worker_cols rowCum w h num_threads) integral
        = Some T ∧
        Z.of_nat (length T) = w * h ∧
        ∀ x y, 0 ≤ x < w → 0 ≤ y < h →
          cell T w x y = Some (wrap64 (col_prefix rowCum w x y))) ∧
  (∃ R T, fork_join (sched num_threads) (worker_rows img w h num_threads) rowCum = Some R ∧
          fork_join (sched num_threads) (worker_cols R w h num_threads) integral = Some T ∧
          ∀ x y, 0 ≤ x < w → 0 ≤ y < h →
            cell T w x y = Some (wrap64 (sat img w x y))).
Proof.
  intros Hw Hh Hlen Hfit Hnt Hs HlR HlT.
  assert (Hrows : ∃ R,
    fork_join (sched num_threads) (worker_rows img w h num_threads) rowCum = Some R ∧
    Z.of_nat (length R) = w * h ∧
    ∀ x y, 0 ≤ x < w → 0 ≤ y < h → cell R w x y = Some (wrap64 (row_prefix img w y x))).
  { destruct (fork_join_updated w h (worker_rows img w h num_threads)
                (λ x y, y / ((h + num_threads - 1) / num_threads))
                (λ x y, wrap64 (row_prefix img w y x)) (sched num_threads) rowCum)
      as (R & Hrun & Hl & Hin & _); [| done |].
    { intros tid t Hin Hl. apply worker_rows_spec; try lia; try done. by apply Hs. }
    exists R. split; [done|]. split; [done|]. intros x y Hx Hy.
    apply Hin; [done..|]. apply Hs. apply block_of_index; lia. }
  assert (Hcols : ∀ R, Z.of_nat (length R) = w * h → ∃ T,
    fork_join (sched num_threads) (worker_cols R w h num_threads) integral = Some T ∧
    Z.of_nat (length T) = w * h ∧
    ∀ x y, 0 ≤ x < w → 0 ≤ y < h → cell T w x y = Some (wrap64 (col_prefix R w x y))).
  { intros R HR.
    destruct (fork_join_updated w h (worker_cols R w h num_threads)
                (λ x y, x / ((w + num_threads - 1) / num_threads))
                (λ x y, wrap64 (col_prefix R w x y)) (sched num_threads) integral)
      as (T & Hrun & Hl & Hin & _); [| done |].
    { intros tid t Hin Hl. apply worker_cols_owner; try lia; try done. by apply Hs. }
    exists T. split; [done|]. split; [done|]. intros x y Hx Hy.
    apply Hin; [done..|]. apply Hs. apply block_of_index; lia. }
  split; [exact Hrows|]. split; [by apply Hcols|].
  destruct Hrows as (R & HrunR & HlR' & HcR).
  destruct (Hcols R HlR') as (T & HrunT & _ & HcT).
  exists R, T. split; [done|]. split; [done|]. intros x y Hx Hy.
  rewrite HcT by done. f_equal. apply (col_prefix_of_rows img R w h); try done; lia.
Qed.

(** A 2x2 grid, three workers taking effect in the order 2, 0, 1, and
    tables that held sevens and nines. *)
Lemma phases_join_witness :
  ∃ R T,
    fork_join [2; 0; 1] (worker_rows [1;2;3;4] 2 2 3) [7;7;7;7] = Some R ∧
    fork_join [2; 0; 1] (worker_cols R 2 2 3) [9;9;9;9] = Some T ∧
    cell T 2 1 1 = Some (wrap64 (sat [1;2;3;4] 2 1 1)).
Proof.
  destruct (phases_join [1;2;3;4] 2 2 3
              (λ n, if bool_decide (n = 3) then [2; 0; 1] else seqZ 0 n)
              [7;7;7;7] [9;9;9;9])
    as (_ & _ & R & T & HR & HT & Hc); try (simpl; lia).
  { intros n tid. case_bool_decide as Hn.
    - subst n. rewrite !elem_of_cons, elem_of_nil. lia.
    - rewrite elem_of_seqZ. lia. }
  exists R, T. split; [exact HR|]. split; [exact HT|].
  exact (Hc 1 1 ltac:(lia) ltac:(lia)).
Defined.

(** ** [computeIntegralOpenMP] *)

(** X5.  On every grid, for every requested thread count and whatever the
    output buffers held, [computeIntegralOpenMP] returns the table
    [computeIntegralSingle] returns; on an empty grid both return the
    empty table. *)
Theorem openmp_equals_single img w h buf buf' num_threads :
  grid img w h →
  ∃ t, computeIntegralSingle img w h buf = Some t ∧
       computeIntegralOpenMP img w h buf' num_threads = Some t ∧
       (w = 0 ∨ h = 0 → t = []).
Proof.
  intros Hg. destruct (grid_empty_or_not img w h Hg) as [Hz | [Hw Hh]].
  { exists []. by rewrite single_empty, openmp_empty. }
  destruct (grid_nonempty_bounds img w h Hg Hw Hh) as (Hlen & Hfit & Himg).
  destruct (single_cells img w h buf) as (t & Hrun & Hl & Hc); try lia.
  destruct (openmp_cells img w h buf' num_threads) as (t' & Hrun' & Hl' & Hc');
    try lia.
  exists t. split; [done|]. split; [|lia].
  rewrite Hrun'. f_equal. apply (table_ext w h); try lia.
  intros x y Hx Hy. by rewrite Hc, Hc'.
Qed.

(** The 3x3 grid of [test_small_known], eight threads requested. *)
Lemma openmp_equals_single_witness :
  ∃ t, computeIntegralSingle [1;2;3;4;5;6;7;8;9] 3 3 [] = Some t ∧
       computeIntegralOpenMP [1;2;3;4;5;6;7;8;9] 3 3 [5] 8 = Some t.
Proof.
  destruct (openmp_equals_single [1;2;3;4;5;6;7;8;9] 3 3 [] [5] 8)
    as (t & Hs & Ho & _); [solve_grid|].
  exists t. split; [exact Hs | exact Ho].
Defined.

(** ** Workers without work *)

(** X6.  When there are more workers than rows (or columns), the workers
    whose block would start at or after the end of the grid, in particular
    every worker numbered [h] (or [w]) and above, return without reading a
    sample and leave the table as it was; this holds whatever the size of
    [img] and of the tables. *)
Theorem surplus_workers_idle img w h num_threads tid rowCum integral :
  1 ≤ num_threads < 2 ^ 31 → 0 ≤ tid < num_threads →
  (1 ≤ h < 2 ^ 62 → h ≤ tid * ((h + num_threads - 1) / num_threads) →
   worker_rows img w h num_threads tid rowCum = Some rowCum) ∧
  (1 ≤ w < 2 ^ 62 → w ≤ tid * ((w + num_threads - 1) / num_threads) →
   worker_cols rowCum w h num_threads tid integral = Some integral) ∧
  (1 ≤ h < 2 ^ 62 → h ≤ tid →
   worker_rows img w h num_threads tid rowCum = Some rowCum) ∧
  (1 ≤ w < 2 ^ 62 → w ≤ tid →
   worker_cols rowCum w h num_threads tid integral = Some integral).
Proof.
  intros Hnt Htid.
  assert (Hrows : 1 ≤ h < 2 ^ 62 → h ≤ tid * ((h + num_threads - 1) / num_threads) →
            worker_rows img w h num_threads tid rowCum = Some rowCum).
  { intros Hh Hidle. unfold worker_rows.
    destruct (worker_bounds h num_threads tid) as (-> & -> & ->); [done..|].
    apply for_loop_skip. lia. }
  assert (Hcols : 1 ≤ w < 2 ^ 62 → w ≤ tid * ((w + num_threads - 1) / num_threads) →
            worker_cols rowCum w h num_threads tid integral = Some integral).
  { intros Hw Hidle. unfold worker_cols.
    destruct (worker_bounds w num_threads tid) as (-> & -> & ->); [done..|].
    apply for_loop_skip. lia. }
  split; [done|]. split; [done|]. split.
  - intros Hh Hle. apply Hrows; [done|].
    pose proof (block_size_bounds h num_threads ltac:(lia) ltac:(lia)). nia.
  - intros Hw Hle. apply Hcols; [done|].
    pose proof (block_size_bounds w num_threads ltac:(lia) ltac:(lia)). nia.
Qed.

(** Nine rows among four workers: the blocks are three rows each, the
    fourth worker has none; it does not touch an image that is empty. *)
Lemma surplus_workers_idle_witness :
  worker_rows [] 5 9 4 3 [1; 2; 3] = Some [1; 2; 3] ∧
  worker_cols [] 2 7 6 4 [1; 2; 3] = Some [1; 2; 3].
Proof.
  split.
  - destruct (surplus_workers_idle [] 5 9 4 3 [1; 2; 3] []) as (Hrows & _);
      [lia | lia |]. apply Hrows; [lia | by vm_compute].
  - destruct (surplus_workers_idle [] 2 7 6 4 [] [1; 2; 3]) as (_ & _ & _ & Hcols);
      [lia | lia |]. apply Hcols; lia.
Defined.

(** ** Images that are too short *)

Lemma for_range_snoc {St : Type} (body : Z → St → option St) n i s :
  for_range (S n) i body s = s' ← for_range n i body s; body (i + Z.of_nat n) s'.
Proof.
  revert i s. induction n as [|n IH]; intros i s.
  - simpl. replace (i + Z.of_nat 0) with i by lia. by destruct (body i s).
  - change (for_range (S (S n)) i body s)
      with (s' ← body i s; for_range (S n) (i + 1) body s').
    change (for_range (S n) i body s)
      with (s' ← body i s; for_range n (i + 1) body s').
    destruct (body i s) as [s1|]; [|done].
    change (for_range (S n) (i + 1) body s1
            = s' ← for_range n (i + 1) body s1; body (i + Z.of_nat (S n)) s').
    rewrite IH. replace (i + 1 + Z.of_nat n) with (i + Z.of_nat (S n)) by lia. done.
Qed.

(** A loop whose last iteration fails in every state fails. *)
Lemma for_loop_last_fails {St : Type} (body : Z → St → option St) lo hi s :
  lo < hi → (∀ s', body (hi - 1) s' = None) → for_loop lo hi body s = None.
Proof.
  intros Hlt Hfail. unfold for_loop.
  replace (Z.to_nat (hi - lo)) with (S (Z.to_nat (hi - 1 - lo))) by lia.
  rewrite for_range_snoc.
  replace (lo + Z.of_nat (Z.to_nat (hi - 1 - lo))) with (hi - 1) by lia.
  destruct (for_range _ _ _ _); simpl; [apply Hfail | done].
Qed.

(** The workers fail as soon as one of them fails in every state. *)
Lemma fork_join_fails (worker : Z → list Z → option (list Z)) sched tid buf :
  tid ∈ sched → (∀ t, worker tid t = None) → fork_join sched worker buf = None.
Proof.
  intros Hin Hfail. revert buf. induction sched as [|tid' rest IH]; intros buf.
  - by apply elem_of_nil in Hin.
  - simpl. apply elem_of_cons in Hin as [<- | Hin].
    + by rewrite Hfail.
    + destruct (worker tid' buf); simpl; [by apply IH | done].
Qed.

(** The read of the last sample of a grid the image is too short for. *)
Lemma last_sample_missing img w h :
  1 ≤ w → 1 ≤ h → w * h < 2 ^ 62 → Z.of_nat (length img) < w * h →
  vget img (wrap64 (wrap64 ((h - 1) * w) + (w - 1))) = None.
Proof.
  intros Hw Hh Hfit Hshort.
  rewrite (wrap64_small ((h - 1) * w)) by nia.
  rewrite wrap64_small by nia.
  apply vget_out_of_range. nia.
Qed.

(** The row worker that owns the last row fails on a short image. *)
Lemma last_row_worker_fails img w h num_threads R :
  1 ≤ w → 1 ≤ h → w * h < 2 ^ 62 → Z.of_nat (length img) < w * h →
  1 ≤ num_threads < 2 ^ 31 →
  worker_rows img w h num_threads ((h - 1) / ((h + num_threads - 1) / num_threads)) R
  = None.
Proof.
  intros Hw Hh Hfit Hshort Hnt.
  pose proof (block_size_bounds h num_threads ltac:(lia) ltac:(lia)) as Hper.
  pose proof (block_of_index h num_threads (h - 1) ltac:(lia) ltac:(lia)) as Htid.
  set (per := (h + num_threads - 1) / num_threads) in *.
  set (tid := (h - 1) / per) in *.
  unfold worker_rows.
  destruct (worker_bounds h num_threads tid) as (-> & -> & ->); [nia | done | done |].
  fold per.
  assert (Hb : tid * per ≤ h - 1 < Z.min h (tid * per + per)).
  { apply (in_block h per tid (h - 1)); [lia | lia | done]. }
  replace (Z.min h (tid * per + per)) with h by lia.
  apply for_loop_last_fails; [lia|]. intros R'. cbv zeta.
  rewrite (for_loop_last_fails _ 0 w); [done | lia |].
  intros [s R'']. by rewrite last_sample_missing.
Qed.

(** X7.  The builders never look at [img.size()].  On a grid of at least
    one cell, each of the four builders returns exactly when [img] holds
    at least [w*h] samples: on any shorter image each of them reads
    outside [img] (the sample of the last cell at the latest). *)
Theorem builders_need_whole_image img w h buf num_threads :
  1 ≤ w → 1 ≤ h → w * h < 2 ^ 62 → is_int num_threads →
  (is_Some (computeIntegralSingle img w h buf) ↔ w * h ≤ Z.of_nat (length img)) ∧
  (is_Some (computeIntegralMulti img w h buf num_threads)
     ↔ w * h ≤ Z.of_nat (length img)) ∧
  (is_Some (computeIntegralOpenMP img w h buf num_threads)
     ↔ w * h ≤ Z.of_nat (length img)) ∧
  (is_Some (computeIntegralNaive img w h buf) ↔ w * h ≤ Z.of_nat (length img)).
Proof.
  intros Hw Hh Hfit Hnt.
  destruct (decide (w * h ≤ Z.of_nat (length img))) as [Hlen|Hshort].
  { destruct (single_cells img w h buf) as (t1 & -> & _); try lia.
    destruct (multi_cells img w h buf num_threads) as (t2 & -> & _); try lia; [done|].
    destruct (openmp_cells img w h buf num_threads) as (t3 & -> & _); try lia.
    destruct (naive_cells img w h) with (buf := buf) as (t4 & -> & _); try lia.
    by repeat split. }
  assert (Hlast : vget img (wrap64 (wrap64 ((h - 1) * w) + (w - 1))) = None)
    by (apply last_sample_missing; lia).
  assert (Hnone : ∀ o : option (list Z),
            o = None → is_Some o ↔ w * h ≤ Z.of_nat (length img)).
  { intros o ->. split; [by intros [? ?] | lia]. }
  split; [|split; [|split]]; apply Hnone.
  - unfold computeIntegralSingle, computeIntegralSingle_with.
    rewrite !bool_decide_eq_false_2 by lia. simpl.
    apply for_loop_last_fails; [lia|]. intros t. cbv zeta.
    rewrite (for_loop_last_fails _ 0 w); [done | lia |].
    intros [s t']. by rewrite Hlast.
  - unfold computeIntegralMulti, computeIntegralMulti_sched.
    rewrite !bool_decide_eq_false_2 by lia. simpl.
    set (nt := if bool_decide (num_threads < 1) then 1 else num_threads).
    assert (Hnt' : 1 ≤ nt < 2 ^ 31).
    { unfold nt, is_int in *. case_bool_decide; lia. }
    rewrite (fork_join_fails _ _ ((h - 1) / ((h + nt - 1) / nt))); [done | |].
    + apply spawn_order_complete. apply block_of_index; lia.
    + intros R. apply last_row_worker_fails; lia.
  - unfold computeIntegralOpenMP.
    rewrite !bool_decide_eq_false_2 by lia. simpl.
    assert (Hph : to_ptrdiff h = h)
      by (unfold to_ptrdiff; rewrite bool_decide_eq_true_2; nia).
    rewrite Hph, (for_loop_last_fails _ 0 h); [done | lia |].
    intros R. cbv zeta. rewrite (for_loop_last_fails _ 0 w); [done | lia |].
    intros [s R']. rewrite (wrap64_small (h - 1)) by nia. by rewrite Hlast.
  - unfold computeIntegralNaive.
    rewrite !bool_decide_eq_false_2 by lia. simpl.
    apply for_loop_last_fails; [lia|]. intros t.
    apply for_loop_last_fails; [lia|]. intros t'. cbv zeta.
    rewrite (for_loop_last_fails _ 0 (w - 1 + 1)); [done | lia |].
    intros s. apply for_loop_last_fails; [lia|]. intros s'.
    replace (w - 1 + 1 - 1) with (w - 1) by lia.
    replace (h - 1 + 1 - 1) with (h - 1) by lia. by rewrite Hlast.
Qed.

(** A 2x2 grid: three samples are one too few, four are enough. *)
Lemma builders_need_whole_image_witness :
  ¬ is_Some (computeIntegralSingle [1;2;3] 2 2 []) ∧
  ¬ is_Some (computeIntegralMulti [1;2;3] 2 2 [] 2) ∧
  is_Some (computeIntegralNaive [1;2;3;4] 2 2 []).
Proof.
  destruct (builders_need_whole_image [1;2;3] 2 2 [] 2) as (Hs & Hm & _);
    [lia | lia | lia | unfold is_int; lia |].
  destruct (builders_need_whole_image [1;2;3;4] 2 2 [] 2) as (_ & _ & _ & Hn);
    [lia | lia | lia | unfold is_int; lia |].
  split; [|split].
  - intros H. apply Hs in H. simpl in H. lia.
  - intros H. apply Hm in H. simpl in H. lia.
  - apply Hn. simpl. lia.
Defined.

(** ** What the table depends on *)

Lemma sat_agree img1 img2 w h x y :
  0 < w → 0 ≤ x < w → 0 ≤ y < h →
  (∀ i, 0 ≤ i < w * h → img1 !! Z.to_nat i = img2 !! Z.to_nat i) →
  sat img1 w x y = sat img2 w x y.
Proof.
  intros Hw Hx Hy Hsame. unfold sat, row_prefix, pixel.
  apply sumZ_ext. intros j Hj. apply sumZ_ext. intros i Hi.
  rewrite (Hsame (j * w + i)); [done|]. apply cell_index_bound; lia.
Qed.

(** X8.  The builders read the first [w*h] samples of [img] and nothing
    else of their arguments: two images that agree on their first [w*h]
    samples give the same table, whatever follows in them and whatever
    the output buffers held. *)
Theorem builders_read_grid_only img1 img2 w h buf1 buf2 num_threads :
  0 ≤ w → 0 ≤ h → w * h < 2 ^ 62 → is_int num_threads →
  w * h ≤ Z.of_nat (length img1) → w * h ≤ Z.of_nat (length img2) →
  (∀ i, 0 ≤ i < w * h → img1 !! Z.to_nat i = img2 !! Z.to_nat i) →
  computeIntegralSingle img1 w h buf1 = computeIntegralSingle img2 w h buf2 ∧
  computeIntegralMulti img1 w h buf1 num_threads
    = computeIntegralMulti img2 w h buf2 num_threads ∧
  computeIntegralOpenMP img1 w h buf1 num_threads
    = computeIntegralOpenMP img2 w h buf2 num_threads ∧
  computeIntegralNaive img1 w h buf1 = computeIntegralNaive img2 w h buf2.
Proof.
  intros Hw Hh Hfit Hnt Hl1 Hl2 Hsame.
  destruct (decide (w = 0 ∨ h = 0)) as [Hz|Hnz].
  { by rewrite !single_empty, !multi_empty, !openmp_empty, !naive_empty. }
  assert (Hglue : ∀ o1 o2 : option (list Z),
    (∃ t, o1 = Some t ∧ Z.of_nat (length t) = w * h ∧
          ∀ x y, 0 ≤ x < w → 0 ≤ y < h → cell t w x y = Some (wrap64 (sat img1 w x y))) →
    (∃ t, o2 = Some t ∧ Z.of_nat (length t) = w * h ∧
          ∀ x y, 0 ≤ x < w → 0 ≤ y < h → cell t w x y = Some (wrap64 (sat img2 w x y))) →
    o1 = o2).
  { intros o1 o2 (t1 & -> & Hlt1 & Hc1) (t2 & -> & Hlt2 & Hc2). f_equal.
    apply (table_ext w h); [lia | done | done |]. intros x y Hx Hy.
    rewrite Hc1, Hc2 by done. do 2 f_equal.
    apply (sat_agree img1 img2 w h); [lia | done | done | done]. }
  split; [|split; [|split]]; apply Hglue.
  - apply single_cells; lia.
  - apply single_cells; lia.
  - apply multi_cells; try lia; done.
  - apply multi_cells; try lia; done.
  - apply openmp_cells; lia.
  - apply openmp_cells; lia.
  - apply naive_cells; lia.
  - apply naive_cells; lia.
Qed.

(** A 2x2 grid inside a longer image, and the same grid alone. *)
Lemma builders_read_grid_only_witness :
  computeIntegralSingle [1;2;3;4;50;60] 2 2 [] = computeIntegralSingle [1;2;3;4] 2 2 [8] ∧
  computeIntegralNaive [1;2;3;4;50;60] 2 2 [] = computeIntegralNaive [1;2;3;4] 2 2 [8].
Proof.
  destruct (builders_read_grid_only [1;2;3;4;50;60] [1;2;3;4] 2 2 [] [8] 1)
    as (Hs & _ & _ & Hn); try (simpl; lia).
  - unfold is_int. lia.
  - intros i Hi.
    assert (i = 0 ∨ i = 1 ∨ i = 2 ∨ i = 3) as [-> | [-> | [-> | ->]]] by lia;
      reflexivity.
  - split; [exact Hs | exact Hn].
Defined.

(** X9.  Row [y] of the table depends on the rows [0 .. y] of the image
    only: the table [computeIntegralSingle] builds for the first [h']
    rows of a grid is the first [w*h'] elements of the table it builds
    for the whole grid. *)
Theorem table_of_top_rows img w h h' buf buf' :
  1 ≤ w → 1 ≤ h' ≤ h → w * h ≤ Z.of_nat (length img) → w * h < 2 ^ 62 →
  ∃ t, computeIntegralSingle img w h buf = Some t ∧
       computeIntegralSingle img w h' buf' = Some (take (Z.to_nat (w * h')) t).
Proof.
  intros Hw Hh Hlen Hfit.
  destruct (single_cells img w h buf) as (t & Hrun & Hl & Hc); try lia.
  destruct (single_cells img w h' buf') as (t' & Hrun' & Hl' & Hc'); try nia.
  exists t. split; [done|]. rewrite Hrun'. f_equal.
  apply (table_ext w h'); [lia | done | |].
  - rewrite length_take. nia.
  - intros x y Hx Hy. rewrite Hc' by done. unfold cell.
    pose proof (cell_index_bound w h' x y Hx Hy).
    rewrite lookup_take_lt by lia. apply (eq_sym (Hc x y Hx ltac:(lia))).
Qed.

(** The first two rows of the 3x3 grid of [test_small_known]. *)
Lemma table_of_top_rows_witness :
  ∃ t, computeIntegralSingle [1;2;3;4;5;6;7;8;9] 3 3 [] = Some t ∧
       computeIntegralSingle [1;2;3;4;5;6;7;8;9] 3 2 [] = Some (take 6 t).
Proof.
  destruct (table_of_top_rows [1;2;3;4;5;6;7;8;9] 3 3 2 [] [])
    as (t & Ht & Htop); try (simpl; lia).
  exists t. split; [exact Ht | exact Htop].
Defined.

(** ** From the table back to the image *)

Lemma rect_sum_cell img w x y : rect_sum img w x y x y = pixel img w x y.
Proof.
  unfold rect_sum. rewrite (sumZ_snoc y y), (sumZ_nil y y) by lia.
  rewrite (sumZ_snoc x x), (sumZ_nil x x) by lia. lia.
Qed.

(** The four lookups around one cell give its sample back. *)
Lemma cell_decodes img t w h x y :
  Forall is_u32 img → Z.of_nat (length img) = w * h →
  (∀ x y, 0 ≤ x < w → 0 ≤ y < h → cell t w x y = Some (wrap64 (sat img w x y))) →
  0 ≤ x < w → 0 ≤ y < h →
  inclusion_exclusion t w x y x y = img !! Z.to_nat (y * w + x).
Proof.
  intros Himg Hl Hc Hx Hy.
  rewrite (inclusion_exclusion_wrap img t w h) by (done || lia).
  rewrite rect_sum_cell.
  pose proof (cell_index_bound w h x y Hx Hy).
  destruct (lookup_lt_is_Some_2 img (Z.to_nat (y * w + x))) as [v Hv]; [lia|].
  unfold pixel. rewrite Hv. simpl. f_equal.
  destruct (Forall_lookup_1 _ _ _ _ Himg Hv). apply wrap64_small. lia.
Qed.

(** X10.  The table determines the image, overflow or not: the
    inclusion-exclusion value of the one-cell rectangle at [(x, y)] is the
    sample [img[y*w + x]] itself, and two grids of the same dimensions
    with the same table are the same image. *)
Theorem table_determines_image img w h buf :
  grid img w h →
  ∃ t, computeIntegralSingle img w h buf = Some t ∧
       (∀ x y, 0 ≤ x < w → 0 ≤ y < h →
          inclusion_exclusion t w x y x y = img !! Z.to_nat (y * w + x)) ∧
       (∀ img' buf', grid img' w h →
          computeIntegralSingle img' w h buf' = Some t → img' = img).
Proof.
  intros Hg. assert (Hl : Z.of_nat (length img) = w * h) by apply Hg.
  destruct (grid_empty_or_not img w h Hg) as [Hz | [Hw Hh]].
  { exists []. split; [by apply single_empty|]. split; [intros; lia|].
    intros img' buf' Hg' _. assert (Hl' : Z.of_nat (length img') = w * h) by apply Hg'.
    assert (w * h = 0) by (destruct Hz; subst; lia).
    destruct img, img'; simpl in *; try lia. done. }
  destruct (grid_nonempty_bounds img w h Hg Hw Hh) as (Hlen & Hfit & Himg).
  destruct (single_cells img w h buf) as (t & Hrun & Hlt & Hc); try lia.
  exists t. split; [done|]. split.
  { intros x y Hx Hy. by apply (cell_decodes img t w h). }
  intros img' buf' Hg' Hrun'.
  assert (Hl' : Z.of_nat (length img') = w * h) by apply Hg'.
  destruct (grid_nonempty_bounds img' w h Hg' Hw Hh) as (Hlen' & _ & Himg').
  destruct (single_cells img' w h buf') as (t' & Hrun'' & _ & Hc'); try lia.
  assert (t' = t) as -> by congruence.
  apply list_eq. intros i.
  destruct (decide (Z.of_nat i < w * h)) as [Hi|Hi]; cycle 1.
  { rewrite !(proj2 (lookup_ge_None _ _)) by lia. done. }
  pose proof (Z.mod_pos_bound (Z.of_nat i) w ltac:(lia)) as Hm.
  pose proof (Z.div_mod (Z.of_nat i) w ltac:(lia)) as Hdm.
  assert (Hd : 0 ≤ Z.of_nat i / w < h).
  { split; [apply Z.div_pos; lia | apply Z.div_lt_upper_bound; lia]. }
  replace i with (Z.to_nat (Z.of_nat i / w * w + Z.of_nat i mod w)) by lia.
  rewrite <- (cell_decodes img' t w h) by done.
  by apply (cell_decodes img t w h).
Qed.

(** The 3x3 grid of [test_small_known]: the sample 6 at [(2, 1)]. *)
Lemma table_determines_image_witness :
  ∃ t, computeIntegralSingle [1;2;3;4;5;6;7;8;9] 3 3 [] = Some t ∧
       inclusion_exclusion t 3 2 1 2 1 = Some 6.
Proof.
  destruct (table_determines_image [1;2;3;4;5;6;7;8;9] 3 3 [])
    as (t & Hrun & Hdec & _); [solve_grid|].
  exists t. split; [exact Hrun|]. exact (Hdec 2 1 ltac:(lia) ltac:(lia)).
Defined.

(** ** [randImage] *)

Section RandImageFacts.
Variable Rng : Type.
Variable mt19937 : Z → Rng.
Variable draw : Rng → Z * Rng.

Lemma redraw_length img rng : length (redraw Rng draw img rng) = length img.
Proof.
  revert rng. induction img as [|a img IH]; intros rng; [done|].
  simpl. destruct (draw rng) as [v rng']. simpl. by rewrite IH.
Qed.

Lemma redraw_overwrites img img' rng :
  length img = length img' → redraw Rng draw img rng = redraw Rng draw img' rng.
Proof.
  revert img' rng. induction img as [|a img IH]; intros [|a' img'] rng Hl;
    simpl in *; try done.
  destruct (draw rng) as [v rng']. f_equal. apply IH. lia.
Qed.

Lemma redraw_range img rng :
  (∀ rng, 0 ≤ (draw rng).1 ≤ 255) →
  Forall (λ v, 0 ≤ v ≤ 255) (redraw Rng draw img rng).
Proof.
  intros Hd. revert rng. induction img as [|a img IH]; intros rng; [constructor|].
  simpl. specialize (Hd rng). destruct (draw rng) as [v rng']. simpl in Hd.
  constructor; [|apply IH]. unfold wrap32. rewrite Z.mod_small; lia.
Qed.
End RandImageFacts.

(** X11.  [randImage] leaves [img] a grid of the dimensions asked for:
    exactly [w*h] samples, each in [0 .. 255], whatever [img] held and
    however long it was before the call (for a generator that draws within
    the range of its distribution, and [w*h] below [2^62]). *)
Theorem randImage_grid (Rng : Type) (mt19937 : Z → Rng) (draw : Rng → Z * Rng)
    img w h seed :
  (∀ rng, 0 ≤ (draw rng).1 ≤ 255) →
  is_u64 w → is_u64 h → w * h < 2 ^ 62 →
  grid (randImage Rng mt19937 draw img w h seed) w h ∧
  Forall (λ v, 0 ≤ v ≤ 255) (randImage Rng mt19937 draw img w h seed) ∧
  randImage Rng mt19937 draw img w h seed = randImage Rng mt19937 draw [] w h seed.
Proof.
  intros Hd Hw Hh Hfit. unfold is_u64 in *.
  assert (Hl : Z.of_nat (length (randImage Rng mt19937 draw img w h seed)) = w * h).
  { unfold randImage. rewrite redraw_length, length_resize, wrap64_small; nia. }
  assert (Hr : Forall (λ v, 0 ≤ v ≤ 255) (randImage Rng mt19937 draw img w h seed)).
  { unfold randImage. by apply redraw_range. }
  split; [|split; [done|]].
  - unfold grid, vec_u32, is_u64. repeat split; try lia.
    eapply Forall_impl; [exact Hr|]. unfold is_u32. intros v Hv. simpl in Hv. lia.
  - unfold randImage. apply redraw_overwrites. by rewrite !length_resize.
Qed.

(** A generator that counts up from its seed: a 2x2 image drawn over an
    image of five samples. *)
Lemma randImage_grid_witness :
  grid (randImage Z (λ seed, seed) (λ s, (s mod 256, s + 1)) [9;9;9;9;9] 2 2 254) 2 2 ∧
  randImage Z (λ seed, seed) (λ s, (s mod 256, s + 1)) [9;9;9;9;9] 2 2 254
  = [254; 255; 0; 1].
Proof.
  destruct (randImage_grid Z (λ seed, seed) (λ s, (s mod 256, s + 1))
              [9;9;9;9;9] 2 2 254) as (Hg & _ & _).
  - intros rng. simpl. pose proof (Z.mod_pos_bound rng 256). lia.
  - unfold is_u64. lia.
  - unfold is_u64. lia.
  - lia.
  - split; [exact Hg | reflexivity].
Defined.

(** ** The command line *)

(** Membership in a list that is written out. *)
Ltac in_list :=
  repeat first [apply list_elem_of_here | apply list_elem_of_further].

Section CommandLine.
Variables stoul stoi : string → option Z.

(** What the parser answers on [args] from the options [o]. *)
Let answers (args : list string) (o : options) : Prop :=
  (parse_args stoul stoi args o = Help → "--help"%string ∈ args) ∧
  (parse_args stoul stoi args o = Throws →
     ∃ v, v ∈ args ∧ (stoul v = None ∨ stoi v = None)) ∧
  (∀ o', parse_args stoul stoi args o = Parsed o' →
     is_u32 (opt_seed o) → is_u32 (opt_seed o')) ∧
  ((∀ s, s ∈ args → s ∉ option_names) → parse_args stoul stoi args o = Parsed o).

Lemma parse_args_two s v rest o :
  parse_args stoul stoi (s :: v :: rest) o =
  if bool_decide (s = "--width"%string) then
    match stoul v with
    | Some n => parse_args stoul stoi rest
                  (Options n (opt_h o) (opt_threads o) (opt_runs o) (opt_seed o) (opt_method o))
    | None => Throws
    end
  else if bool_decide (s = "--height"%string) then
    match stoul v with
    | Some n => parse_args stoul stoi rest
                  (Options (opt_w o) n (opt_threads o) (opt_runs o) (opt_seed o) (opt_method o))
    | None => Throws
    end
  else if bool_decide (s = "--threads"%string) then
    match stoi v with
    | Some n => parse_args stoul stoi rest
                  (Options (opt_w o) (opt_h o) n (opt_runs o) (opt_seed o) (opt_method o))
    | None => Throws
    end
  else if bool_decide (s = "--runs"%string) then
    match stoi v with
    | Some n => parse_args stoul stoi rest
                  (Options (opt_w o) (opt_h o) (opt_threads o) n (opt_seed o) (opt_method o))
    | None => Throws
    end
  else if bool_decide (s = "--seed"%string) then
    match stoul v with
    | Some n => parse_args stoul stoi rest
                  (Options (opt_w o) (opt_h o) (opt_threads o) (opt_runs o) (wrap32 n) (opt_method o))
    | None => Throws
    end
  else if bool_decide (s = "--method"%string) then
    parse_args stoul stoi rest
      (Options (opt_w o) (opt_h o) (opt_threads o) (opt_runs o) (opt_seed o) v)
  else if bool_decide (s = "--help"%string) then Help
  else parse_args stoul stoi (v :: rest) o.
Proof. reflexivity. Qed.

(** An option that fails to convert its value. *)
Lemma answers_throws s v rest o r :
  r = Throws → s ∈ option_names → (stoul v = None ∨ stoi v = None) →
  (r = Help → "--help"%string ∈ s :: v :: rest) ∧
  (r = Throws → ∃ v', v' ∈ s :: v :: rest ∧ (stoul v' = None ∨ stoi v' = None)) ∧
  (∀ o', r = Parsed o' → is_u32 (opt_seed o) → is_u32 (opt_seed o')) ∧
  ((∀ s', s' ∈ s :: v :: rest → s' ∉ option_names) → r = Parsed o).
Proof.
  intros -> Hs Hv. split; [done|]. split; [|split; [done|]].
  - intros _. exists v. split; [|done]. apply list_elem_of_further, list_elem_of_here.
  - intros Hno. destruct (Hno s); [apply list_elem_of_here | done].
Qed.

(** An option that consumed its value: the rest is parsed from [o1]. *)
Lemma answers_consumed s v rest o o1 :
  answers rest o1 → s ∈ option_names →
  (is_u32 (opt_seed o) → is_u32 (opt_seed o1)) →
  (parse_args stoul stoi rest o1 = Help → "--help"%string ∈ s :: v :: rest) ∧
  (parse_args stoul stoi rest o1 = Throws →
     ∃ v', v' ∈ s :: v :: rest ∧ (stoul v' = None ∨ stoi v' = None)) ∧
  (∀ o', parse_args stoul stoi rest o1 = Parsed o' →
     is_u32 (opt_seed o) → is_u32 (opt_seed o')) ∧
  ((∀ s', s' ∈ s :: v :: rest → s' ∉ option_names) →
     parse_args stoul stoi rest o1 = Parsed o).
Proof.
  intros (Hhelp & Hthrows & Hseed & _) Hs Hu. split; [|split; [|split]].
  - intros H. by apply list_elem_of_further, list_elem_of_further, Hhelp.
  - intros H. destruct (Hthrows H) as (v' & Hin & Hbad). exists v'.
    split; [|done]. by apply list_elem_of_further, list_elem_of_further.
  - intros o' Hp Ho. apply (Hseed o' Hp). by apply Hu.
  - intros Hno. destruct (Hno s); [apply list_elem_of_here | done].
Qed.

Lemma parse_args_answers n : ∀ args o, (length args ≤ n)%nat → answers args o.
Proof.
  induction n as [|n IH]; intros [|s [|v rest]] o Hlen; simpl in Hlen; try lia.
  1,2: unfold answers; simpl; split; [done|]; split; [done|];
    split; [by intros ? [= <-] | done].
  - unfold answers. simpl. case_bool_decide as Hs.
    + subst s. split; [intros _; apply list_elem_of_here|].
      split; [done|]. split; [done|]. intros Hno.
      destruct (Hno "--help"%string); [apply list_elem_of_here|].
      in_list.
    + split; [done|]. split; [done|]. split; [by intros ? [= <-] | done].
  - assert (Hrest : ∀ o1, answers rest o1) by (intros; apply IH; lia).
    assert (Htail : answers (v :: rest) o) by (apply IH; simpl; lia).
    unfold answers. rewrite parse_args_two.
    repeat (let Hs := fresh "Hs" in
      case_bool_decide as Hs;
      [subst s;
       try match goal with
           | |- context [match stoul v with Some _ => _ | None => _ end] =>
               destruct (stoul v) eqn:Hv
           | |- context [match stoi v with Some _ => _ | None => _ end] =>
               destruct (stoi v) eqn:Hv
           end;
       first
         [ apply answers_consumed;
             [apply Hrest | in_list
             | simpl; try done; intros _; unfold is_u32, wrap32;
               apply Z.mod_pos_bound; lia]
         | apply answers_throws; [done | in_list | tauto] ]
      |]).
    case_bool_decide as Hhelp.
    + subst s. split; [intros _; apply list_elem_of_here|].
      split; [done|]. split; [done|]. intros Hno.
      destruct (Hno "--help"%string); [apply list_elem_of_here | in_list].
    + destruct Htail as (Hh & Ht & Hseed & Hnone). split; [|split; [|split]].
      * intros H. by apply list_elem_of_further, Hh.
      * intros H. destruct (Ht H) as (v' & Hin & Hbad). exists v'.
        split; [by apply list_elem_of_further | done].
      * done.
      * intros Hno. apply Hnone. intros s' Hin. apply Hno.
        by apply list_elem_of_further.
Qed.

(** X12.  The command-line parser.  It answers with the usage text only
    when [--help] is among the arguments, and it lets an exception escape
    only when one of the arguments does not convert to a number; the seed
    it returns is a [uint32_t] value if the seed it started from is one;
    and arguments none of which is an option name are skipped, leaving the
    options as they were. *)
Theorem parse_args_outcomes args o :
  (parse_args stoul stoi args o = Help → "--help"%string ∈ args) ∧
  (parse_args stoul stoi args o = Throws →
     ∃ v, v ∈ args ∧ (stoul v = None ∨ stoi v = None)) ∧
  (∀ o', parse_args stoul stoi args o = Parsed o' →
     is_u32 (opt_seed o) → is_u32 (opt_seed o')) ∧
  ((∀ s, s ∈ args → s ∉ option_names) → parse_args stoul stoi args o = Parsed o).
Proof.
  pose proof (parse_args_answers (length args) args o (le_n _)) as Ha.
  destruct Ha as (Hhelp & Hthrows & Hseed & Hnone).
  split; [exact Hhelp|]. split; [exact Hthrows|]. split; [exact Hseed | exact Hnone].
Qed.
End CommandLine.

(** Two arguments that are no options, with conversions that always fail:
    nothing is converted, the defaults are the answer. *)
Lemma parse_args_outcomes_witness :
  parse_args (λ _, None) (λ _, None) ["input.pgm"; "-v"]%string (defaults 8)
  = Parsed (defaults 8).
Proof.
  apply (parse_args_outcomes (λ _, None) (λ _, None)).
  intros s Hs. unfold option_names.
  apply elem_of_cons in Hs as [-> | Hs]; [|apply elem_of_cons in Hs as [-> | Hs]].
  - rewrite !not_elem_of_cons. repeat split; try discriminate. apply not_elem_of_nil.
  - rewrite !not_elem_of_cons. repeat split; try discriminate. apply not_elem_of_nil.
  - by apply elem_of_nil in Hs.
Defined.


(** ** A run of the harness *)

(** What the output buffer held does not matter to a builder. *)
Lemma builders_overwrite img w h buf num_threads :
  computeIntegralSingle img w h buf = computeIntegralSingle img w h [] ∧
  computeIntegralMulti img w h buf num_threads
    = computeIntegralMulti img w h [] num_threads ∧
  computeIntegralOpenMP img w h buf num_threads
    = computeIntegralOpenMP img w h [] num_threads.
Proof. repeat split. Qed.

(** A benchmark of a function that returns runs to its end and prints its
    line. *)
Lemma bench_runs name runs (f : list Z → option (list Z)) buf :
  (∀ b, is_Some (f b)) →
  ∃ buf', bench name runs f buf = Some (buf', [Bench name runs]).
Proof.
  intros Hf. unfold bench.
  destruct (Z.le_gt_cases 0 runs) as [Hr|Hr].
  - destruct (for_loop_inv (λ _ _, True) (λ _ b, f b) 0 runs buf)
      as (buf' & -> & _); [done | done | | by eexists].
    intros i b _ _. destruct (Hf b) as [b' Hb]. by exists b'.
  - rewrite for_loop_skip by lia. by eexists.
Qed.

(** X13.  A run of the program, compiled with or without OpenMP, on a
    command line that parses: with a width or height of 0 it ends in the
    exception, before anything is printed; otherwise it prints the banner
    (with the run and thread counts raised to 1 when they are 0 or
    negative), finds the tables of the builders equal, prints the line of
    each benchmark [--method] selects, in the order Single, Multi, OpenMP,
    and exits with status 0.  A method other than [single], [multi],
    [both] or [openmp] selects no benchmark, and so does [openmp] in a
    program compiled without it. *)
Theorem main_runs (with_openmp : bool) (Rng : Type) (mt19937 : Z → Rng)
    (draw : Rng → Z * Rng) stoul stoi hardware_concurrency argv o :
  parse_args stoul stoi argv (defaults hardware_concurrency) = Parsed o →
  (∀ rng, 0 ≤ (draw rng).1 ≤ 255) →
  is_u64 (opt_w o) → is_u64 (opt_h o) → opt_w o * opt_h o < 2 ^ 62 →
  is_int (opt_threads o) →
  main computeIntegralSingle computeIntegralMulti
       (if with_openmp then Some computeIntegralOpenMP else None)
       (randImage Rng mt19937 draw []) stoul stoi hardware_concurrency argv
  = if bool_decide (opt_w o = 0) || bool_decide (opt_h o = 0) then (Terminate, [])
    else
      let runs := if bool_decide (opt_runs o ≤ 0) then 1 else opt_runs o in
      let threads := if bool_decide (opt_threads o ≤ 0) then 1 else opt_threads o in
      (Exit 0, Banner (opt_w o) (opt_h o) threads runs (opt_seed o)
               :: benchmark_lines with_openmp (opt_method o) runs).
Proof.
  intros Hp Hd Hw Hh Hfit Hint. unfold main. rewrite Hp.
  destruct (bool_decide (opt_w o = 0) || bool_decide (opt_h o = 0)); [done|].
  cbv zeta.
  set (w := opt_w o) in *. set (h := opt_h o) in *.
  set (runs := if bool_decide (opt_runs o ≤ 0) then 1 else opt_runs o).
  set (threads := if bool_decide (opt_threads o ≤ 0) then 1 else opt_threads o).
  set (img := randImage Rng mt19937 draw [] w h (opt_seed o)).
  assert (Hthreads : is_int threads).
  { unfold threads, is_int in *. case_bool_decide; lia. }
  assert (Hg : grid img w h).
  { unfold is_u64 in *. unfold grid, vec_u32, is_u64.
    assert (Hl : Z.of_nat (length img) = w * h).
    { unfold img, randImage. rewrite redraw_length, length_resize, wrap64_small; nia. }
    repeat split; try lia.
    eapply Forall_impl; [by apply redraw_range|].
    unfold is_u32. intros v Hv. simpl in Hv. lia. }
  destruct (parallel_matches_single img w h [] [] threads Hg Hthreads)
    as (t & Hs & Hm & Ho).
  assert (Hsb : ∀ b, is_Some (computeIntegralSingle img w h b)).
  { intros b. rewrite (proj1 (builders_overwrite img w h b threads)), Hs. by eexists. }
  assert (Hmb : ∀ b, is_Some (computeIntegralMulti img w h b threads)).
  { intros b. rewrite (proj1 (proj2 (builders_overwrite img w h b threads))), Hm.
    by eexists. }
  assert (Hob : ∀ b, computeIntegralOpenMP img w h b threads = Some t).
  { intros b. by rewrite (proj2 (proj2 (builders_overwrite img w h b threads))). }
  rewrite Hs, Hm, equalIntegral_spec, bool_decide_eq_true_2 by done.
  assert (Hcheck : ∃ I, check_openmp
            (if with_openmp then Some computeIntegralOpenMP else None)
            (opt_method o) img w h threads t t = Some (true, I)).
  { unfold check_openmp. destruct with_openmp; [|by eexists].
    case_bool_decide; [|by eexists].
    rewrite Hob. simpl. rewrite equalIntegral_spec, bool_decide_eq_true_2 by done.
    by eexists. }
  destruct Hcheck as (I & ->).
  assert (Hbench : benchmarks computeIntegralSingle computeIntegralMulti
            (if with_openmp then Some computeIntegralOpenMP else None)
            (opt_method o) runs img w h threads t I
          = Some (benchmark_lines with_openmp (opt_method o) runs)).
  { unfold benchmarks, benchmark_lines.
    destruct (bench_runs "Single" runs (computeIntegralSingle img w h) t Hsb)
      as (b1 & ->).
    destruct (bench_runs "Multi" runs
                (λ buf, computeIntegralMulti img w h buf threads) I Hmb) as (b2 & H2).
    destruct (bool_decide (opt_method o = "both"%string)
              || bool_decide (opt_method o = "single"%string)); simpl;
      (destruct (bool_decide (opt_method o = "both"%string)
                 || bool_decide (opt_method o = "multi"%string)); simpl;
       [rewrite H2; simpl|]);
      (destruct with_openmp; simpl; [|done]);
      (destruct (bool_decide (opt_method o = "openmp"%string)); simpl; [|done]).
    all: match goal with
         | |- context [bench "OpenMP" ?r ?f ?b] =>
             destruct (bench_runs "OpenMP" r f b) as (b3 & ->);
               [intros b'; rewrite Hob; by eexists | done]
         end. }
  rewrite Hbench. done.
Qed.

(** [--width 2 --height 2 --method multi --runs 0] with a generator that
    counts up: the banner, then the line of the parallel builder. *)
Lemma main_runs_witness :
  main computeIntegralSingle computeIntegralMulti None
       (randImage Z (λ seed, seed) (λ s, (s mod 256, s + 1)) [])
       (λ _, Some 2) (λ _, Some 0) 8
       ["--width"; "2"; "--height"; "2"; "--method"; "multi"; "--runs"; "0"]%string
  = (Exit 0, [Banner 2 2 8 1 1337; Bench "Multi" 1]).
Proof.
  apply (main_runs false Z (λ seed, seed) (λ s, (s mod 256, s + 1))
           (λ _, Some 2) (λ _, Some 0) 8
           ["--width"; "2"; "--height"; "2"; "--method"; "multi"; "--runs"; "0"]%string
           (Options 2 2 8 0 1337 "multi")).
  - reflexivity.
  - intros rng. simpl. pose proof (Z.mod_pos_bound rng 256). lia.
  - unfold is_u64. simpl. lia.
  - unfold is_u64. simpl. lia.
  - simpl. lia.
  - unfold is_int. simpl. lia.
Defined.

(** ** The test program *)

Section TestFacts.
Variable Rng : Type.
Variable mt19937 : Z → Rng.
Variable draw : Rng → Z * Rng.
Variable next : Rng → Z * Rng.
Hypothesis draw_range : ∀ rng, 0 ≤ (draw rng).1 ≤ 255.

Lemma fill_random_redraw img rng :
  (fill_random Rng draw img rng).1 = redraw Rng draw img rng.
Proof.
  revert rng. induction img as [|a img IH]; intros rng; [done|].
  simpl. destruct (draw rng) as [v rng']. specialize (IH rng').
  destruct (fill_random Rng draw img rng') as [rest rng'']. simpl in *. by rewrite IH.
Qed.

(** The image of a test is a grid of bytes. *)
Lemma fill_random_grid w h rng :
  is_u32 w → is_u32 h → w * h < 2 ^ 32 →
  grid (fill_random Rng draw (replicate (Z.to_nat (wrap32 (w * h))) 0) rng).1 w h.
Proof.
  intros Hw Hh Hfit. unfold is_u32 in *. rewrite fill_random_redraw.
  unfold grid, vec_u32, is_u64.
  assert (Hl : Z.of_nat (length (redraw Rng draw
                (replicate (Z.to_nat (wrap32 (w * h))) 0) rng)) = w * h).
  { rewrite redraw_length, length_replicate, wrap32_small; nia. }
  repeat split; try lia.
  eapply Forall_impl; [by apply redraw_range|].
  unfold is_u32. intros v Hv. simpl in Hv. lia.
Qed.

Lemma test_random_compare_returns w h seed :
  is_u32 w → is_u32 h → w * h < 2 ^ 32 →
  test_random_compare Rng mt19937 draw w h seed = Some true.
Proof.
  intros Hw Hh Hfit. unfold test_random_compare.
  pose proof (fill_random_grid w h (mt19937 seed) Hw Hh Hfit) as Hg.
  destruct (fill_random _ _ _ _) as [img rng']. simpl in Hg.
  destruct (parallel_matches_single img w h [] [] 4 Hg) as (A & -> & -> & _).
  { unfold is_int. lia. }
  simpl. by rewrite bool_decide_eq_true_2.
Qed.

Lemma to_int_small z : 0 ≤ z < 2 ^ 31 → to_int z = z.
Proof. intros. unfold to_int. rewrite bool_decide_eq_true_2; lia. Qed.

Lemma rect_trials_return img I w h n rng :
  1 ≤ w < 2 ^ 31 → 1 ≤ h < 2 ^ 31 → w * h ≤ 2 ^ 32 →
  w * h ≤ Z.of_nat (length img) →
  (∀ x y, 0 ≤ x < w → 0 ≤ y < h → cell I w x y = Some (wrap64 (sat img w x y))) →
  rect_trials Rng next n I img w h rng = Some true.
Proof.
  intros Hw Hh Hsmall Hlen Hc. revert rng. induction n as [|n IH]; intros rng; [done|].
  cbn [rect_trials].
  destruct (next rng) as [r1 rng1]. destruct (next rng1) as [r2 rng2].
  destruct (next rng2) as [r3 rng3]. destruct (next rng3) as [r4 rng4].
  pose proof (Z.mod_pos_bound r1 w ltac:(lia)).
  pose proof (Z.mod_pos_bound r2 w ltac:(lia)).
  pose proof (Z.mod_pos_bound r3 h ltac:(lia)).
  pose proof (Z.mod_pos_bound r4 h ltac:(lia)).
  rewrite !to_int_small by lia.
  set (a := r1 mod w) in *. set (b := r2 mod w) in *.
  set (c := r3 mod h) in *. set (d := r4 mod h) in *.
  destruct (bool_decide_reflect (a > b)), (bool_decide_reflect (c > d));
    rewrite (rect_wrap img I w h) by (done || lia); simpl;
    rewrite bool_decide_eq_true_2 by done; apply IH.
Qed.

Lemma test_rect_sum_property_returns :
  test_rect_sum_property Rng mt19937 draw next = Some true.
Proof.
  unfold test_rect_sum_property. cbv zeta.
  assert (Hg := fill_random_grid 10 10 (mt19937 123)).
  destruct (fill_random _ _ _ _) as [img rng']. simpl in Hg.
  assert (Hgrid : grid img 10 10) by (apply Hg; unfold is_u32; lia).
  destruct (grid_nonempty_bounds img 10 10 Hgrid) as (Hlen & Hfit & Himg); [lia | lia |].
  destruct (single_cells img 10 10 []) as (I & -> & _ & Hc); try lia.
  change (rect_trials Rng next 100 I img 10 10 rng' = Some true).
  apply rect_trials_return; try lia; done.
Qed.

Lemma random_compares_return n s rest :
  0 ≤ s → s + Z.of_nat n ≤ 1000 →
  random_compares Rng mt19937 draw n s rest = rest.
Proof.
  revert s. induction n as [|n IH]; intros s Hs Hn; [done|].
  cbn [random_compares].
  rewrite (wrap32_small (s * 8)), (wrap32_small (s * 7)) by lia.
  rewrite !wrap32_small by lia.
  rewrite test_random_compare_returns by (unfold is_u32; nia).
  simpl. apply IH; lia.
Qed.

(** X14.  The test program passes, whatever samples and rectangles its
    generators draw (the distribution within its range [0 .. 255]): no
    assertion fails, no vector is left, and [main] returns 0.  The same
    holds of [test_random_compare] for all dimensions whose product is
    below [2^32], and of any number of rectangles in the loop of
    [test_rect_sum_property]. *)
Theorem tests_pass :
  test_main Rng mt19937 draw next = Returned 0 ∧
  test_small_known = Some true ∧
  (∀ w h seed, is_u32 w → is_u32 h → w * h < 2 ^ 32 →
     test_random_compare Rng mt19937 draw w h seed = Some true) ∧
  test_rect_sum_property Rng mt19937 draw next = Some true ∧
  (∀ img I n rng, grid img 10 10 → computeIntegralSingle img 10 10 [] = Some I →
     rect_trials Rng next n I img 10 10 rng = Some true).
Proof.
  assert (Hsmall : test_small_known = Some true) by (vm_compute; reflexivity).
  split; [|split; [done|split; [|split]]].
  - unfold test_main. rewrite Hsmall. cbn [check].
    rewrite random_compares_return by lia.
    by rewrite test_rect_sum_property_returns.
  - apply test_random_compare_returns.
  - apply test_rect_sum_property_returns.
  - intros img I n rng Hg Hrun.
    destruct (grid_nonempty_bounds img 10 10 Hg) as (Hlen & Hfit & Himg); [lia | lia |].
    destruct (single_cells img 10 10 []) as (I' & Hrun' & _ & Hc); try lia.
    assert (I' = I) as -> by congruence.
    apply rect_trials_return; try lia; done.
Qed.
End TestFacts.

(** The test program with a generator that counts up from its seed. *)
Lemma tests_pass_witness :
  test_main Z (λ seed, seed) (λ s, (s mod 256, s + 1)) (λ s, (s, s + 7)) = Returned 0.
Proof.
  apply (tests_pass Z (λ seed, seed) (λ s, (s mod 256, s + 1)) (λ s, (s, s + 7))).
  intros rng. simpl. pose proof (Z.mod_pos_bound rng 256). lia.
Defined.

(** ** Images of bytes *)

Lemma total_bytes img :
  Forall (λ v, 0 ≤ v ≤ 255) img → total img ≤ 255 * Z.of_nat (length img).
Proof.
  induction 1 as [|a img Ha _ IH]; simpl; [lia|]. unfold total in *. simpl. lia.
Qed.

Lemma pixel_byte img w x y :
  Forall (λ v, 0 ≤ v ≤ 255) img → 0 ≤ pixel img w x y ≤ 255.
Proof.
  intros Himg. unfold pixel.
  destruct (img !! Z.to_nat (y * w + x)) as [v|] eqn:Hv; simpl; [|lia].
  apply (Forall_lookup_1 _ _ _ _ Himg Hv).
Qed.

Lemma sat_bytes img w x y :
  Forall (λ v, 0 ≤ v ≤ 255) img → 0 ≤ x → 0 ≤ y →
  sat img w x y ≤ 255 * (x + 1) * (y + 1).
Proof.
  intros Himg Hx Hy. unfold sat, row_prefix.
  etrans; [apply (sumZ_le _ _ _ (λ _, 255 * (x + 1)))|].
  - intros j Hj. etrans; [apply (sumZ_le _ _ _ (λ _, 255))|].
    + intros i Hi. apply pixel_byte. done.
    + rewrite sumZ_const by lia. lia.
  - rewrite sumZ_const by lia. lia.
Qed.

(** X15.  The images the harness generates cannot make the accumulators
    wrap: on an image drawn by [randImage] with fewer than [2^56] samples,
    the table of [computeIntegralSingle] holds every sum exactly, and the
    entry at [(x, y)] is at most [255 * (x+1) * (y+1)]. *)
Theorem harness_tables_exact (Rng : Type) (mt19937 : Z → Rng)
    (draw : Rng → Z * Rng) img0 w h seed buf :
  (∀ rng, 0 ≤ (draw rng).1 ≤ 255) →
  1 ≤ w → 1 ≤ h → w * h < 2 ^ 56 →
  ∃ t, computeIntegralSingle (randImage Rng mt19937 draw img0 w h seed) w h buf
       = Some t ∧
       ∀ x y, 0 ≤ x < w → 0 ≤ y < h →
         cell t w x y = Some (sat (randImage Rng mt19937 draw img0 w h seed) w x y) ∧
         sat (randImage Rng mt19937 draw img0 w h seed) w x y
           ≤ 255 * (x + 1) * (y + 1) < 2 ^ 64.
Proof.
  intros Hd Hw Hh Hfit.
  set (img := randImage Rng mt19937 draw img0 w h seed).
  assert (Hl : Z.of_nat (length img) = w * h).
  { unfold img, randImage. rewrite redraw_length, length_resize, wrap64_small; nia. }
  assert (Hb : Forall (λ v, 0 ≤ v ≤ 255) img) by (by apply redraw_range).
  assert (Himg : Forall is_u32 img).
  { eapply Forall_impl; [exact Hb|]. unfold is_u32. intros v Hv. simpl in Hv. lia. }
  destruct (single_cells img w h buf) as (t & Hrun & _ & Hc); try lia.
  exists t. split; [done|]. intros x y Hx Hy.
  pose proof (sat_bytes img w x y Hb ltac:(lia) ltac:(lia)) as Hle.
  pose proof (sat_nonneg img w x y Himg) as Hge.
  assert (Hlt : 255 * (x + 1) * (y + 1) < 2 ^ 64) by nia.
  split; [|lia]. rewrite Hc by done. f_equal. apply wrap64_small. lia.
Qed.

(** A 2x2 image drawn by a generator that counts up from 254. *)
Lemma harness_tables_exact_witness :
  ∃ t, computeIntegralSingle
         (randImage Z (λ seed, seed) (λ s, (s mod 256, s + 1)) [] 2 2 254) 2 2 []
       = Some t ∧
       cell t 2 1 1
       = Some (sat (randImage Z (λ seed, seed) (λ s, (s mod 256, s + 1)) [] 2 2 254)
                 2 1 1).
Proof.
  destruct (harness_tables_exact Z (λ seed, seed) (λ s, (s mod 256, s + 1))
              [] 2 2 254 []) as (t & Hrun & Hc); try lia.
  { intros rng. simpl. pose proof (Z.mod_pos_bound rng 256). lia. }
  exists t. split; [exact Hrun|]. exact (proj1 (Hc 1 1 ltac:(lia) ltac:(lia))).
Defined.

(** ** Workers in either order *)

(** Two updates of regions of a table by the same function, in either
    order. *)
Lemma updates_commute w h (D1 D2 : Z → Z → Prop) f t t1 t12 t2 t21 :
  0 < w → (∀ x y, Decision (D1 x y)) → (∀ x y, Decision (D2 x y)) →
  updated w h D1 f t t1 → updated w h D2 f t1 t12 →
  updated w h D2 f t t2 → updated w h D1 f t2 t21 →
  t12 = t21.
Proof.
  intros Hw Hdec1 Hdec2 (_ & Hin1 & Hout1) (Hl12 & Hin12 & Hout12)
    (_ & Hin2 & Hout2) (Hl21 & Hin21 & Hout21).
  apply (table_ext w h); [done..|]. intros x y Hx Hy.
  destruct (Hdec1 x y) as [H1|H1], (Hdec2 x y) as [H2|H2].
  - by rewrite Hin12, Hin21.
  - by rewrite Hout12, Hin1, Hin21.
  - by rewrite Hin12, Hout21, Hin2.
  - by rewrite Hout12, Hout1, Hout21, Hout2.
Qed.

(** X16.  Two workers of a phase of [computeIntegralMulti] have the same
    effect in either order, from whatever the table of the phase holds:
    they write different cells, and none reads a cell that a worker of
    its phase writes. *)
Theorem workers_commute img w h num_threads tid1 tid2 rowCum integral :
  1 ≤ w → 1 ≤ h → w * h ≤ Z.of_nat (length img) → w * h < 2 ^ 62 →
  1 ≤ num_threads < 2 ^ 31 →
  0 ≤ tid1 < num_threads → 0 ≤ tid2 < num_threads →
  Z.of_nat (length rowCum) = w * h → Z.of_nat (length integral) = w * h →
  (R ← worker_rows img w h num_threads tid1 rowCum;
   worker_rows img w h num_threads tid2 R)
  = (R ← worker_rows img w h num_threads tid2 rowCum;
     worker_rows img w h num_threads tid1 R) ∧
  (T ← worker_cols rowCum w h num_threads tid1 integral;
   worker_cols rowCum w h num_threads tid2 T)
  = (T ← worker_cols rowCum w h num_threads tid2 integral;
     worker_cols rowCum w h num_threads tid1 T) ∧
  is_Some (R ← worker_rows img w h num_threads tid1 rowCum;
           worker_rows img w h num_threads tid2 R) ∧
  is_Some (T ← worker_cols rowCum w h num_threads tid1 integral;
           worker_cols rowCum w h num_threads tid2 T).
Proof.
  intros Hw Hh Hlen Hfit Hnt Ht1 Ht2 HlR HlT.
  destruct (worker_rows_spec img w h) with (num_threads := num_threads)
      (tid := tid1) (R := rowCum) as (R1 & HR1 & Hu1); try lia; try done.
  destruct (worker_rows_spec img w h) with (num_threads := num_threads)
      (tid := tid2) (R := R1) as (R12 & HR12 & Hu12); try lia; try done.
  { apply Hu1. }
  destruct (worker_rows_spec img w h) with (num_threads := num_threads)
      (tid := tid2) (R := rowCum) as (R2 & HR2 & Hu2); try lia; try done.
  destruct (worker_rows_spec img w h) with (num_threads := num_threads)
      (tid := tid1) (R := R2) as (R21 & HR21 & Hu21); try lia; try done.
  { apply Hu2. }
  destruct (worker_cols_owner rowCum w h num_threads tid1 integral)
    as (T1 & HT1 & Hv1); try lia; try done.
  destruct (worker_cols_owner rowCum w h num_threads tid2 T1)
    as (T12 & HT12 & Hv12); try lia; try done.
  { apply Hv1. }
  destruct (worker_cols_owner rowCum w h num_threads tid2 integral)
    as (T2 & HT2 & Hv2); try lia; try done.
  destruct (worker_cols_owner rowCum w h num_threads tid1 T2)
    as (T21 & HT21 & Hv21); try lia; try done.
  { apply Hv2. }
  rewrite HR1, HR2, HT1, HT2. simpl. rewrite HR12, HR21, HT12, HT21.
  split; [|split; [|split; by eexists]].
  - f_equal. eapply (updates_commute w h); [lia | | | exact Hu1 | exact Hu12
                                             | exact Hu2 | exact Hu21];
      intros x y; simpl; apply _.
  - f_equal. eapply (updates_commute w h); [lia | | | exact Hv1 | exact Hv12
                                             | exact Hv2 | exact Hv21];
      intros x y; simpl; apply _.
Qed.

(** The two row workers of a 2x2 grid, on a table of sevens. *)
Lemma workers_commute_witness :
  (R ← worker_rows [1;2;3;4] 2 2 2 0 [7;7;7;7]; worker_rows [1;2;3;4] 2 2 2 1 R)
  = (R ← worker_rows [1;2;3;4] 2 2 2 1 [7;7;7;7]; worker_rows [1;2;3;4] 2 2 2 0 R).
Proof.
  apply (workers_commute [1;2;3;4] 2 2 2 0 1 [7;7;7;7] [7;7;7;7]); simpl; lia.
Defined.

(** ** The lambda [rect] of the test *)

(** X17.  The lambda [rect] of [test_rect_sum_property], on the table of
    [computeIntegralSingle] for a grid of at most [2^32] cells whose width
    and height are below [2^31]: for every inclusive rectangle inside the
    grid it returns the exact sum of the samples of the rectangle twice,
    as [sum] and as the brute-force [sref], so the assertion
    [p.first == p.second] holds.  A rectangle whose [x1] or [y1] is
    [INT_MAX] makes the [++] of an [int] loop counter overflow. *)
Theorem rect_lambda_sums img w h buf x0 y0 x1 y1 :
  grid img w h → w < 2 ^ 31 → h < 2 ^ 31 → w * h ≤ 2 ^ 32 →
  0 ≤ x0 ≤ x1 ∧ x1 < w → 0 ≤ y0 ≤ y1 ∧ y1 < h →
  (∃ t, computeIntegralSingle img w h buf = Some t ∧
        rect t img w x0 y0 x1 y1
        = Some (rect_sum img w x0 y0 x1 y1, rect_sum img w x0 y0 x1 y1)) ∧
  (∀ I img' w' a0 b0 a1 b1, a0 ≤ a1 → b0 ≤ b1 →
     a1 = 2 ^ 31 - 1 ∨ b1 = 2 ^ 31 - 1 →
     rect I img' w' a0 b0 a1 b1 = None).
Proof.
  intros Hg Hw31 Hh31 Hsmall Hx Hy. split.
  - destruct (grid_nonempty_bounds img w h Hg) as (Hlen & Hfit & Himg); [lia | lia |].
    assert (Hl : Z.of_nat (length img) = w * h) by apply Hg.
    destruct (single_cells img w h buf) as (t & Hrun & _ & Hc); try lia.
    exists t. split; [done|].
    rewrite (rect_wrap img t w h) by done.
    assert (Hexact : wrap64 (rect_sum img w x0 y0 x1 y1) = rect_sum img w x0 y0 x1 y1).
    { apply wrap64_small.
      pose proof (rect_sum_le_sat img w x0 y0 x1 y1 Himg ltac:(lia) ltac:(lia)).
      pose proof (sat_le_total img w h x1 y1 Himg Hl ltac:(lia) ltac:(lia)).
      pose proof (small_grid_total img w h Himg Hl Hsmall). lia. }
    by rewrite Hexact.
  - intros I img' w' a0 b0 a1 b1 Ha Hb Hmax. unfold rect.
    case_bool_decide as Htypes; [|done]. cbv zeta.
    repeat match goal with
           | |- (?m ≫= _) = None =>
               lazymatch m with
               | for_loop _ _ _ _ => fail
               | _ => destruct m; [|done]; cbn [mbind option_bind]
               end
           end.
    rewrite (for_loop_last_fails _ b0 (b1 + 1)); [done | lia |].
    intros s. replace (b1 + 1 - 1) with b1 by lia.
    destruct Hmax as [-> | ->].
    + rewrite (for_loop_last_fails _ a0 (2 ^ 31 - 1 + 1)); [done | lia |].
      intros s'. replace (2 ^ 31 - 1 + 1 - 1) with (2 ^ 31 - 1) by lia.
      by destruct (vget img' _).
    + by destruct (for_loop a0 (a1 + 1) _ s).
Qed.

(** The rectangle [(1,1)-(2,2)] of the 3x3 grid of [test_small_known]. *)
Lemma rect_lambda_sums_witness :
  ∃ t, computeIntegralSingle [1;2;3;4;5;6;7;8;9] 3 3 [] = Some t ∧
       rect t [1;2;3;4;5;6;7;8;9] 3 1 1 2 2
       = Some (rect_sum [1;2;3;4;5;6;7;8;9] 3 1 1 2 2,
               rect_sum [1;2;3;4;5;6;7;8;9] 3 1 1 2 2).
Proof.
  destruct (rect_lambda_sums [1;2;3;4;5;6;7;8;9] 3 3 [] 1 1 2 2) as [Hsum _];
    [solve_grid | lia | lia | lia | lia | lia |].
  exact Hsum.
Defined.
